(** * advanced-vector: [RawMemory<T>] and [Vector<T>] of [vector.h]

    A shallow embedding of the class templates [RawMemory] and [Vector].

    - A block of raw memory is a list of slots, [None] for uninitialized
      storage and [Some x] for a live object of value [x].
    - The element type [T] is a parameter.  What the container can observe
      of it is gathered in the class [Element]: the value left in the source
      of a move, the two type traits consulted by [if constexpr], and an
      oracle that decides, from the history of the operations run so far,
      whether the next constructor, assignment or allocation throws.
    - Every operation passes the state explicitly: the vector [*this], the
      blocks it works on and a [World] that records the operations of [T]
      (and of [operator new]) in order, plus the objects that ended without
      a destructor call: those alive in a block when it was released, and
      those over which another object was constructed.
    - An operation ends in [Returned r], in [Thrown] (an exception leaves the
      function) or in [Undefined] (a violated precondition: the asserts of
      the source, reads of uninitialized slots, accesses past the end of a
      block).
    - size_t values are natural numbers.  The two products that can leave
      64 bits, [size_ * 2] and the byte count [n * sizeof(T)] handed to
      [operator new], are taken modulo 2^64: a block has as many slots as
      the bytes obtained can hold, whatever [capacity_] says.  Every
      subtraction of the source stands behind the comparison that keeps it
      from wrapping.

    What is assumed of the element type: [sizeof(T)] is positive, a
    constructor or an assignment that throws leaves its operands and the
    storage it was given as they were, a move that completes gives the
    target the value of the source and leaves [moved_from] of it behind, and
    destructors do not throw.  What is assumed of [operator new]: it may
    fail at any request, and it fails when asked for more than PTRDIFF_MAX
    bytes ([max_alloc]). *)

From stdpp Require Import prelude.
From Stdlib Require Import NArith.

(** ** Element type and environment *)

Inductive Event (T : Type) : Type :=
| EvAlloc (n : nat)            (* operator new(n * sizeof(T)) *)
| EvDefaultCtor                (* T() *)
| EvCtor (x : T)               (* T(args...) building an object of value x *)
| EvCopyCtor (x : T)           (* T(const T&) from an object of value x *)
| EvMoveCtor (x : T)           (* T(T&&) from an object of value x *)
| EvCopyAssign (dst src : T)   (* dst = src *)
| EvMoveAssign (dst src : T)   (* dst = std::move(src) *)
| EvDtor (x : T).              (* ~T() on an object of value x *)

Arguments EvAlloc {T} n.
Arguments EvDefaultCtor {T}.
Arguments EvCtor {T} x.
Arguments EvCopyCtor {T} x.
Arguments EvMoveCtor {T} x.
Arguments EvCopyAssign {T} dst src.
Arguments EvMoveAssign {T} dst src.
Arguments EvDtor {T} x.

Class Element (T : Type) : Type := {
  (* the value of a value-initialized object, T() *)
  default_value : T;
  (* the value left in the source object by a move *)
  moved_from : T → T;
  (* std::is_nothrow_move_constructible_v<T> *)
  is_nothrow_move_constructible : bool;
  (* std::is_copy_constructible_v<T> *)
  is_copy_constructible : bool;
  (* sizeof(T) *)
  sizeof : nat;
  (* [throws h e]: after the operations [h], operation [e] throws *)
  throws : list (Event T) → Event T → bool
}.

(** The largest byte count a single allocation can serve: PTRDIFF_MAX =
    2^63 - 1. *)
Definition max_alloc : N := 9223372036854775807.

(** size_t is 64 bits wide. *)
Definition size_t_modulus : N := 18446744073709551616.

Definition wrap64 (n : nat) : nat := N.to_nat (N.of_nat n mod size_t_modulus).

(** n * sizeof(T), in size_t: the byte count that Allocate(n) hands to
    operator new. *)
Definition alloc_bytes {T : Type} `{Element T} (n : nat) : nat :=
  wrap64 (n * sizeof).

(** What the element type, its traits and the allocator promise. *)
Class Lawful (T : Type) `{Element T} : Prop := {
  sizeof_pos : 0 < sizeof;
  sizeof_size_t : (N.of_nat sizeof < size_t_modulus)%N;
  nothrow_move_sound :
    is_nothrow_move_constructible = true →
    ∀ h x, throws h (EvMoveCtor x) = false;
  alloc_limit :
    ∀ h n, (max_alloc < N.of_nat (alloc_bytes n))%N →
           throws h (EvAlloc n) = true
}.

Record World (T : Type) : Type := mkWorld {
  log : list (Event T);     (* operations run so far, oldest first *)
  leaked : list T           (* objects that ended without a destructor call *)
}.
Arguments mkWorld {T} log leaked.
Arguments log {T} w.
Arguments leaked {T} w.

Inductive outcome (A : Type) : Type :=
| Returned (a : A)
| Thrown
| Undefined.
Arguments Returned {A} a.
Arguments Thrown {A}.
Arguments Undefined {A}.

(** An exception (or undefined behaviour) crossing a frame that returns [B]. *)
Definition rethrow {A B : Type} (r : outcome A) : outcome B :=
  match r with
  | Thrown => Thrown
  | _ => Undefined
  end.

Section Model.
Context {T : Type} `{Element T}.

Local Abbreviation block := (list (option T)).

Definition record (e : Event T) (w : World T) : World T :=
  mkWorld (log w ++ [e]) (leaked w).

(** Runs operation [e]; [true] when it completes, [false] when it throws. *)
Definition attempt (e : Event T) (w : World T) : bool * World T :=
  (negb (throws (log w) e), record e w).

(** The storage of slot content [old] is reused for another object: a
    live object in it ends there, and no destructor runs. *)
Definition forget (old : option T) (w : World T) : World T :=
  match old with
  | Some y => mkWorld (log w) (leaked w ++ [y])
  | None => w
  end.

(** ** Standard-library algorithms on raw blocks *)

(** std::construct_at(b + p, ...): constructor [e] builds an object of value
    [x] in slot [p], over whatever the slot holds; a slot past the end of
    the block is not storage to construct in. *)
Definition construct_at (b : block) (p : nat) (e : Event T) (x : T)
    (w : World T) : outcome unit * block * World T :=
  match b !! p with
  | Some old =>
    let (ok, w1) := attempt e w in
    if ok then (Returned tt, <[p := Some x]> b, forget old w1)
    else (Thrown, b, w1)
  | None => (Undefined, b, w)
  end.

(** std::destroy_at(b + p). *)
Definition destroy_at (b : block) (p : nat) (w : World T)
    : outcome unit * block * World T :=
  match b !! p with
  | Some (Some x) => (Returned tt, <[p := None]> b, record (EvDtor x) w)
  | _ => (Undefined, b, w)
  end.

(** std::destroy_n(b + first, n). *)
Fixpoint destroy_n (b : block) (first n : nat) (w : World T)
    : outcome unit * block * World T :=
  match n with
  | 0 => (Returned tt, b, w)
  | S n' =>
    match destroy_at b first w with
    | (Returned _, b1, w1) => destroy_n b1 (S first) n' w1
    | other => other
    end
  end.

(** The loop of std::uninitialized_copy_n ([by_move = false]) and of
    std::uninitialized_move_n ([by_move = true]): objects are constructed
    from [src + first] on into [dst + cur] on; when a constructor throws,
    the objects built so far, [dst + result .. dst + cur), are destroyed and
    the exception goes on. *)
Fixpoint uninitialized_loop (by_move : bool) (src : block) (first n : nat)
    (dst : block) (result cur : nat) (w : World T)
    : outcome unit * block * block * World T :=
  match n with
  | 0 => (Returned tt, src, dst, w)
  | S n' =>
    match src !! first with
    | Some (Some x) =>
      match construct_at dst cur
              (if by_move then EvMoveCtor x else EvCopyCtor x) x w with
      | (Returned _, dst1, w1) =>
        let src1 :=
          if by_move then <[first := Some (moved_from x)]> src else src in
        uninitialized_loop by_move src1 (S first) n' dst1 result (S cur) w1
      | (r, dst1, w1) =>
        match destroy_n dst1 result (cur - result) w1 with
        | (Returned _, dst2, w2) => (rethrow r, src, dst2, w2)
        | (_, dst2, w2) => (Undefined, src, dst2, w2)
        end
      end
    | _ => (Undefined, src, dst, w)
    end
  end.

(** std::uninitialized_copy_n(src + first, n, dst + result). *)
Definition uninitialized_copy_n (src : block) (first n : nat) (dst : block)
    (result : nat) (w : World T) : outcome unit * block * block * World T :=
  uninitialized_loop false src first n dst result result w.

(** std::uninitialized_move_n(src + first, n, dst + result). *)
Definition uninitialized_move_n (src : block) (first n : nat) (dst : block)
    (result : nat) (w : World T) : outcome unit * block * block * World T :=
  uninitialized_loop true src first n dst result result w.

(** The loop of std::uninitialized_value_construct_n. *)
Fixpoint value_construct_loop (b : block) (result cur n : nat) (w : World T)
    : outcome unit * block * World T :=
  match n with
  | 0 => (Returned tt, b, w)
  | S n' =>
    match construct_at b cur EvDefaultCtor default_value w with
    | (Returned _, b1, w1) => value_construct_loop b1 result (S cur) n' w1
    | (r, b1, w1) =>
      match destroy_n b1 result (cur - result) w1 with
      | (Returned _, b2, w2) => (rethrow r, b2, w2)
      | (_, b2, w2) => (Undefined, b2, w2)
      end
    end
  end.

(** std::uninitialized_value_construct_n(b + first, n). *)
Definition uninitialized_value_construct_n (b : block) (first n : nat)
    (w : World T) : outcome unit * block * World T :=
  value_construct_loop b first first n w.

(** std::copy_n(src + first, n, dst + result): copy assignment, slot by
    slot; an exception leaves the slots already assigned as they are. *)
Fixpoint copy_n (src : block) (first n : nat) (dst : block) (result : nat)
    (w : World T) : outcome unit * block * World T :=
  match n with
  | 0 => (Returned tt, dst, w)
  | S n' =>
    match src !! first, dst !! result with
    | Some (Some x), Some (Some y) =>
      let (ok, w1) := attempt (EvCopyAssign y x) w in
      if ok then copy_n src (S first) n' (<[result := Some x]> dst) (S result) w1
      else (Thrown, dst, w1)
    | _, _ => (Undefined, dst, w)
    end
  end.

(** b[d] = std::move(b[s]) for two slots of one block. *)
Definition move_assign (b : block) (d s : nat) (w : World T)
    : outcome unit * block * World T :=
  match b !! d, b !! s with
  | Some (Some y), Some (Some x) =>
    let (ok, w1) := attempt (EvMoveAssign y x) w in
    if ok then
      (Returned tt, <[s := Some (moved_from x)]> (<[d := Some x]> b), w1)
    else (Thrown, b, w1)
  | _, _ => (Undefined, b, w)
  end.

(** std::move(b + first, b + first + n, b + d_first): move assignment from
    left to right. *)
Fixpoint move_range (b : block) (first n d_first : nat) (w : World T)
    : outcome unit * block * World T :=
  match n with
  | 0 => (Returned tt, b, w)
  | S n' =>
    match move_assign b d_first first w with
    | (Returned _, b1, w1) => move_range b1 (S first) n' (S d_first) w1
    | other => other
    end
  end.

(** ** RawMemory *)

Record RawMemory : Type := mkRawMemory {
  buffer_ : block;
  capacity_ : nat
}.

(** RawMemory() = default. *)
Definition RawMemory_default : RawMemory := mkRawMemory [] 0.

(** RawMemory::Allocate: no allocation for n = 0, otherwise
    operator new(n * sizeof(T)), which may throw std::bad_alloc.  The block
    obtained has room for as many elements as the byte count asked for
    holds: [n] of them unless the product has wrapped around. *)
Definition Allocate (n : nat) (w : World T) : outcome block * World T :=
  if decide (n = 0) then (Returned [], w)
  else
    let (ok, w1) := attempt (EvAlloc n) w in
    if ok then (Returned (replicate (alloc_bytes n / sizeof) None), w1)
    else (Thrown, w1).

(** explicit RawMemory(size_t capacity). *)
Definition RawMemory_new (capacity : nat) (w : World T)
    : outcome RawMemory * World T :=
  match Allocate capacity w with
  | (Returned b, w1) => (Returned (mkRawMemory b capacity), w1)
  | (r, w1) => (rethrow r, w1)
  end.

(** RawMemory::Deallocate, run by ~RawMemory: the block goes back to the
    allocator with no destructor call, so that the objects still alive in
    it end without one. *)
Definition Deallocate (b : block) (w : World T) : World T :=
  mkWorld (log w) (leaked w ++ omap id b).

(** RawMemory::Swap. *)
Definition RawMemory_Swap (a b : RawMemory) : RawMemory * RawMemory := (b, a).

(** The same RawMemory after the contents of its block changed. *)
Definition with_block (m : RawMemory) (b : block) : RawMemory :=
  mkRawMemory b (capacity_ m).

(** ** Vector *)

Record Vector : Type := mkVector {
  data_ : RawMemory;
  size_ : nat
}.

Definition Size (v : Vector) : nat := size_ v.

Definition Capacity (v : Vector) : nat := capacity_ (data_ v).

(** The block of [v]. *)
Definition slots (v : Vector) : block := buffer_ (data_ v).

(** [v] after the contents of its block changed, size untouched. *)
Definition with_slots (v : Vector) (b : block) : Vector :=
  mkVector (with_block (data_ v) b) (size_ v).

(** Vector() noexcept = default. *)
Definition Vector_default : Vector := mkVector RawMemory_default 0.

(** T& operator[](size_t index): assert(index < size_). *)
Definition Vector_at (v : Vector) (index : nat) : outcome T :=
  if decide (index < size_ v) then
    match slots v !! index with
    | Some (Some x) => Returned x
    | _ => Undefined
    end
  else Undefined.

(** The values of the live elements, in order. *)
Definition elements (v : Vector) : list T := omap id (take (size_ v) (slots v)).

(** What a caller does through the reference that operator[] returns (or
    through an iterator): element [index] is given the value [x]. *)
Definition store_at (index : nat) (x : T) (v : Vector) : outcome unit * Vector :=
  if decide (index < size_ v)
  then (Returned tt, with_slots v (<[index := Some x]> (slots v)))
  else (Undefined, v).

(** explicit Vector(size_t size). *)
Definition Vector_sized (size : nat) (w : World T) : outcome Vector * World T :=
  match RawMemory_new size w with
  | (Returned data, w1) =>
    match uninitialized_value_construct_n (buffer_ data) 0 size w1 with
    | (Returned _, b, w2) => (Returned (mkVector (with_block data b) size), w2)
    | (r, b, w2) => (rethrow r, Deallocate b w2)
    end
  | (r, w1) => (rethrow r, w1)
  end.

(** Vector(const Vector& other). *)
Definition Vector_copy (other : Vector) (w : World T) : outcome Vector * World T :=
  match RawMemory_new (size_ other) w with
  | (Returned data, w1) =>
    match uninitialized_copy_n (slots other) 0 (size_ other) (buffer_ data) 0 w1 with
    | (Returned _, _, b, w2) =>
      (Returned (mkVector (with_block data b) (size_ other)), w2)
    | (r, _, b, w2) => (rethrow r, Deallocate b w2)
    end
  | (r, w1) => (rethrow r, w1)
  end.

(** Vector(Vector&& other) noexcept: the new vector, and [other] afterwards. *)
Definition Vector_move (other : Vector) : Vector * Vector :=
  let (mine, theirs) := RawMemory_Swap RawMemory_default (data_ other) in
  (mkVector mine (size_ other), mkVector theirs 0).

(** void Swap(Vector& other) noexcept: [*this] and [other] afterwards. *)
Definition Swap (v other : Vector) : Vector * Vector :=
  let (mine, theirs) := RawMemory_Swap (data_ v) (data_ other) in
  (mkVector mine (size_ other), mkVector theirs (size_ v)).

(** ~Vector(): destroys the live elements, then ~RawMemory releases the
    block. *)
Definition Vector_destroy (v : Vector) (w : World T) : outcome unit * World T :=
  match destroy_n (slots v) 0 (size_ v) w with
  | (Returned _, b, w1) => (Returned tt, Deallocate b w1)
  | (_, _, w1) => (Undefined, w1)
  end.

(** The right-hand side of an assignment: [*this] itself, or another
    vector. *)
Inductive VectorRef : Type :=
| This
| Other (rhs : Vector).

(** Vector& operator=(const Vector& rhs). *)
Definition Vector_copy_assign (rhs : VectorRef) (v : Vector) (w : World T)
    : outcome unit * Vector * World T :=
  match rhs with
  | This => (Returned tt, v, w)
  | Other rhs =>
    if decide (Capacity v < size_ rhs) then
      match Vector_copy rhs w with
      | (Returned tmp, w1) =>
        let (v1, tmp1) := Swap v tmp in
        match Vector_destroy tmp1 w1 with
        | (Returned _, w2) => (Returned tt, v1, w2)
        | (_, w2) => (Undefined, v1, w2)
        end
      | (r, w1) => (rethrow r, v, w1)
      end
    else
      match copy_n (slots rhs) 0 (size_ v `min` size_ rhs) (slots v) 0 w with
      | (Returned _, b1, w1) =>
        if decide (size_ v < size_ rhs) then
          match uninitialized_copy_n (slots rhs) (size_ v)
                  (size_ rhs - size_ v) b1 (size_ v) w1 with
          | (Returned _, _, b2, w2) =>
            (Returned tt, mkVector (with_block (data_ v) b2) (size_ rhs), w2)
          | (r, _, b2, w2) => (rethrow r, with_slots v b2, w2)
          end
        else if decide (size_ rhs < size_ v) then
          match destroy_n b1 (size_ rhs) (size_ v - size_ rhs) w1 with
          | (Returned _, b2, w2) =>
            (Returned tt, mkVector (with_block (data_ v) b2) (size_ rhs), w2)
          | (_, b2, w2) => (Undefined, with_slots v b2, w2)
          end
        else (Returned tt, mkVector (with_block (data_ v) b1) (size_ rhs), w1)
      | (r, b1, w1) => (rethrow r, with_slots v b1, w1)
      end
  end.

(** Vector& operator=(Vector&& rhs) noexcept. *)
Definition Vector_move_assign (v rhs : Vector) : Vector * Vector := Swap v rhs.

(** The [if constexpr] of Reserve, EmplaceBack and EmplaceWithRealloc. *)
Definition relocate_by_move : bool :=
  is_nothrow_move_constructible || negb is_copy_constructible.

(** void Reserve(size_t new_capacity). *)
Definition Reserve (new_capacity : nat) (v : Vector) (w : World T)
    : outcome unit * Vector * World T :=
  if decide (new_capacity ≤ Capacity v) then (Returned tt, v, w)
  else
    match RawMemory_new new_capacity w with
    | (Returned new_data, w1) =>
      match (if relocate_by_move
             then uninitialized_move_n (slots v) 0 (size_ v) (buffer_ new_data) 0 w1
             else uninitialized_copy_n (slots v) 0 (size_ v) (buffer_ new_data) 0 w1)
      with
      | (Returned _, old1, new1, w2) =>
        match destroy_n old1 0 (size_ v) w2 with
        | (Returned _, old2, w3) =>
          (Returned tt, mkVector (with_block new_data new1) (size_ v),
           Deallocate old2 w3)
        | (_, old2, w3) => (Undefined, with_slots v old2, Deallocate new1 w3)
        end
      | (r, old1, new1, w2) => (rethrow r, with_slots v old1, Deallocate new1 w2)
      end
    | (r, w1) => (rethrow r, v, w1)
    end.

(** void Resize(size_t new_size). *)
Definition Resize (new_size : nat) (v : Vector) (w : World T)
    : outcome unit * Vector * World T :=
  if decide (new_size < size_ v) then
    match destroy_n (slots v) new_size (size_ v - new_size) w with
    | (Returned _, b, w1) =>
      (Returned tt, mkVector (with_block (data_ v) b) new_size, w1)
    | (_, b, w1) => (Undefined, with_slots v b, w1)
    end
  else
    match (if decide (Capacity v < new_size) then Reserve new_size v w
           else (Returned tt, v, w)) with
    | (Returned _, v1, w1) =>
      match uninitialized_value_construct_n (slots v1) (size_ v1)
              (new_size - size_ v1) w1 with
      | (Returned _, b, w2) =>
        (Returned tt, mkVector (with_block (data_ v1) b) new_size, w2)
      | (r, b, w2) => (rethrow r, with_slots v1 b, w2)
      end
    | (r, v1, w1) => (rethrow r, v1, w1)
    end.

(** void PopBack() noexcept: assert(size_ > 0). *)
Definition PopBack (v : Vector) (w : World T) : outcome unit * Vector * World T :=
  match size_ v with
  | 0 => (Undefined, v, w)
  | S n =>
    match destroy_at (slots v) n w with
    | (Returned _, b, w1) => (Returned tt, mkVector (with_block (data_ v) b) n, w1)
    | (_, b, w1) => (Undefined, mkVector (with_block (data_ v) b) n, w1)
    end
  end.

(** A reference argument: an object that lives outside of the vector, or the
    vector's own element [j]. *)
Inductive Ref : Type :=
| Outside (x : T)
| Inside (j : nat).

(** The arguments forwarded to the constructor of a new element.  (A copy
    presupposes a copy-constructible [T]; the template does not compile
    otherwise.) *)
Inductive Args : Type :=
| ByCopy (r : Ref)      (* a const T&: the copy constructor runs *)
| ByMove (x : T)        (* a T&& to an outside object: the move constructor *)
| ByCtor (x : T).       (* anything else: a constructor building x *)

(** The constructor that [args] selects and the value it builds, read when
    the constructor runs, with [own] the block of the vector then. *)
Definition resolve (args : Args) (own : block) : option (Event T * T) :=
  match args with
  | ByCopy (Outside x) => Some (EvCopyCtor x, x)
  | ByCopy (Inside j) =>
    match own !! j with
    | Some (Some y) => Some (EvCopyCtor y, y)
    | _ => None
    end
  | ByMove x => Some (EvMoveCtor x, x)
  | ByCtor x => Some (EvCtor x, x)
  end.

(** size_ == 0 ? 1 : size_ * 2, in size_t. *)
Definition grown_capacity (size : nat) : nat :=
  if decide (size = 0) then 1 else wrap64 (size * 2).

(** template <typename... Args> T& EmplaceBack(Args&&... args); the result
    is the index of the new element. *)
Definition EmplaceBack (args : Args) (v : Vector) (w : World T)
    : outcome nat * Vector * World T :=
  if decide (size_ v = Capacity v) then
    let new_capacity := grown_capacity (size_ v) in
    match RawMemory_new new_capacity w with
    | (Returned new_data, w1) =>
      match (if relocate_by_move
             then uninitialized_move_n (slots v) 0 (size_ v) (buffer_ new_data) 0 w1
             else uninitialized_copy_n (slots v) 0 (size_ v) (buffer_ new_data) 0 w1)
      with
      | (Returned _, old1, new1, w2) =>
        match resolve args old1 with
        | Some (e, x) =>
          match construct_at new1 (size_ v) e x w2 with
          | (Returned _, new2, w3) =>
            match destroy_n old1 0 (size_ v) w3 with
            | (Returned _, old2, w4) =>
              (Returned (size_ v),
               mkVector (with_block new_data new2) (S (size_ v)),
               Deallocate old2 w4)
            | (_, old2, w4) =>
              (Undefined, with_slots v old2, Deallocate new2 w4)
            end
          | (r, new2, w3) =>
            (* catch (...) { std::destroy_n(new_data.GetAddress(), size_); throw; } *)
            match destroy_n new2 0 (size_ v) w3 with
            | (Returned _, new3, w4) =>
              (rethrow r, with_slots v old1, Deallocate new3 w4)
            | (_, new3, w4) =>
              (Undefined, with_slots v old1, Deallocate new3 w4)
            end
          end
        | None => (Undefined, with_slots v old1, Deallocate new1 w2)
        end
      | (r, old1, new1, w2) => (rethrow r, with_slots v old1, Deallocate new1 w2)
      end
    | (r, w1) => (rethrow r, v, w1)
    end
  else
    match resolve args (slots v) with
    | Some (e, x) =>
      match construct_at (slots v) (size_ v) e x w with
      | (Returned _, b, w1) =>
        (Returned (size_ v), mkVector (with_block (data_ v) b) (S (size_ v)), w1)
      | (r, b, w1) => (rethrow r, with_slots v b, w1)
      end
    | None => (Undefined, v, w)
    end.

(** void PushBack(const T& value). *)
Definition PushBack_copy (value : Ref) (v : Vector) (w : World T)
    : outcome unit * Vector * World T :=
  match EmplaceBack (ByCopy value) v w with
  | (Returned _, v1, w1) => (Returned tt, v1, w1)
  | (r, v1, w1) => (rethrow r, v1, w1)
  end.

(** void PushBack(T&& value). *)
Definition PushBack_move (value : T) (v : Vector) (w : World T)
    : outcome unit * Vector * World T :=
  match EmplaceBack (ByMove value) v w with
  | (Returned _, v1, w1) => (Returned tt, v1, w1)
  | (r, v1, w1) => (rethrow r, v1, w1)
  end.

(** The two-statement relocation of EmplaceWithRealloc takes the same branch
    of the [if constexpr] both times. *)
Definition uninitialized_relocate_n
    : block → nat → nat → block → nat → World T
      → outcome unit * block * block * World T :=
  if relocate_by_move then uninitialized_move_n else uninitialized_copy_n.

(** iterator EmplaceWithRealloc(size_t index, Args&&... args). *)
Definition EmplaceWithRealloc (index : nat) (args : Args) (v : Vector)
    (w : World T) : outcome nat * Vector * World T :=
  let new_capacity := grown_capacity (size_ v) in
  match RawMemory_new new_capacity w with
  | (Returned new_data, w1) =>
    match uninitialized_relocate_n (slots v) 0 index (buffer_ new_data) 0 w1 with
    | (Returned _, old1, new1, w2) =>
      match resolve args old1 with
      | Some (e, x) =>
        match construct_at new1 index e x w2 with
        | (Returned _, new2, w3) =>
          match uninitialized_relocate_n old1 index (size_ v - index)
                  new2 (S index) w3 with
          | (Returned _, old2, new3, w4) =>
            match destroy_n old2 0 (size_ v) w4 with
            | (Returned _, old3, w5) =>
              (Returned index,
               mkVector (with_block new_data new3) (S (size_ v)),
               Deallocate old3 w5)
            | (_, old3, w5) =>
              (Undefined, with_slots v old3, Deallocate new3 w5)
            end
          | (r, old2, new3, w4) =>
            (rethrow r, with_slots v old2, Deallocate new3 w4)
          end
        | (r, new2, w3) => (rethrow r, with_slots v old1, Deallocate new2 w3)
        end
      | None => (Undefined, with_slots v old1, Deallocate new1 w2)
      end
    | (r, old1, new1, w2) => (rethrow r, with_slots v old1, Deallocate new1 w2)
    end
  | (r, w1) => (rethrow r, v, w1)
  end.

(** std::construct_at(b + p, std::move(b[s])) inside one block. *)
Definition move_construct_at (b : block) (p s : nat) (w : World T)
    : outcome unit * block * World T :=
  match b !! s with
  | Some (Some y) =>
    match construct_at b p (EvMoveCtor y) y w with
    | (Returned _, b1, w1) =>
      (Returned tt, <[s := Some (moved_from y)]> b1, w1)
    | other => other
    end
  | _ => (Undefined, b, w)
  end.

(** for (size_t i = start; i > index; --i) b[i] = std::move(b[i - 1]). *)
Fixpoint shift_right (b : block) (index i : nat) (w : World T)
    : outcome unit * block * World T :=
  match i with
  | 0 => (Returned tt, b, w)
  | S i' =>
    if decide (index < i) then
      match move_assign b i i' w with
      | (Returned _, b1, w1) => shift_right b1 index i' w1
      | other => other
      end
    else (Returned tt, b, w)
  end.

(** b[p] = std::move(temp) for a local object [temp] of value [x]. *)
Definition move_assign_from (b : block) (p : nat) (x : T) (w : World T)
    : outcome unit * block * World T :=
  match b !! p with
  | Some (Some y) =>
    let (ok, w1) := attempt (EvMoveAssign y x) w in
    if ok then (Returned tt, <[p := Some x]> b, w1) else (Thrown, b, w1)
  | _ => (Undefined, b, w)
  end.

(** iterator EmplaceWithoutRealloc(size_t index, Args&&... args).  The local
    [temp] is destroyed when the function is left, whichever way. *)
Definition EmplaceWithoutRealloc (index : nat) (args : Args) (v : Vector)
    (w : World T) : outcome nat * Vector * World T :=
  match resolve args (slots v) with
  | Some (e, x) =>
    let (ok, w1) := attempt e w in
    if ok then
      if decide (index < size_ v) then
        match move_construct_at (slots v) (size_ v) (size_ v - 1) w1 with
        | (Returned _, b1, w2) =>
          match shift_right b1 index (size_ v - 1) w2 with
          | (Returned _, b2, w3) =>
            match move_assign_from b2 index x w3 with
            | (Returned _, b3, w4) =>
              (Returned index,
               mkVector (with_block (data_ v) b3) (S (size_ v)),
               record (EvDtor (moved_from x)) w4)
            | (r, b3, w4) =>
              (rethrow r, with_slots v b3, record (EvDtor x) w4)
            end
          | (r, b2, w3) => (rethrow r, with_slots v b2, record (EvDtor x) w3)
          end
        | (r, b1, w2) => (rethrow r, with_slots v b1, record (EvDtor x) w2)
        end
      else
        match construct_at (slots v) index (EvMoveCtor x) x w1 with
        | (Returned _, b1, w2) =>
          (Returned index,
           mkVector (with_block (data_ v) b1) (S (size_ v)),
           record (EvDtor (moved_from x)) w2)
        | (r, b1, w2) => (rethrow r, with_slots v b1, record (EvDtor x) w2)
        end
    else (Thrown, v, w1)
  | None => (Undefined, v, w)
  end.

(** iterator Emplace(const_iterator pos, Args&&... args), with [pos] given
    as the offset pos - begin(); a position outside of [begin(), end()] is
    not a valid argument. *)
Definition Emplace (pos : nat) (args : Args) (v : Vector) (w : World T)
    : outcome nat * Vector * World T :=
  if decide (pos ≤ size_ v) then
    if decide (size_ v = Capacity v)
    then EmplaceWithRealloc pos args v w
    else EmplaceWithoutRealloc pos args v w
  else (Undefined, v, w).

(** iterator Insert(const_iterator pos, const T& value). *)
Definition Insert_copy (pos : nat) (value : Ref) (v : Vector) (w : World T)
    : outcome nat * Vector * World T :=
  Emplace pos (ByCopy value) v w.

(** iterator Insert(const_iterator pos, T&& value). *)
Definition Insert_move (pos : nat) (value : T) (v : Vector) (w : World T)
    : outcome nat * Vector * World T :=
  Emplace pos (ByMove value) v w.

(** iterator Erase(const_iterator pos): assert(pos >= begin() && pos < end()). *)
Definition Erase (pos : nat) (v : Vector) (w : World T)
    : outcome nat * Vector * World T :=
  if decide (pos < size_ v) then
    match move_range (slots v) (S pos) (size_ v - S pos) pos w with
    | (Returned _, b1, w1) =>
      match destroy_at b1 (size_ v - 1) w1 with
      | (Returned _, b2, w2) =>
        (Returned pos, mkVector (with_block (data_ v) b2) (size_ v - 1), w2)
      | (_, b2, w2) => (Undefined, with_slots v b2, w2)
      end
    | (r, b1, w1) => (rethrow r, with_slots v b1, w1)
    end
  else (Undefined, v, w).

(** ** The remaining members

    A pointer into a block is the offset of its slot, so that
    [GetAddress()] is offset 0 and an iterator of a vector is an index. *)

(** T* GetAddress() noexcept. *)
Definition GetAddress (m : RawMemory) : nat := 0.

(** size_t RawMemory::Capacity() const. *)
Definition RawMemory_Capacity (m : RawMemory) : nat := capacity_ m.

(** T* operator+(size_t offset) noexcept: assert(offset <= capacity_), and
    the pointer formed has to stay within the block or one past its end. *)
Definition RawMemory_plus (m : RawMemory) (offset : nat) : outcome nat :=
  if decide (offset ≤ capacity_ m) then
    if decide (offset ≤ length (buffer_ m))
    then Returned (GetAddress m + offset)
    else Undefined
  else Undefined.

(** T& operator[](size_t index) noexcept: assert(index < capacity_); the
    slot the reference designates. *)
Definition RawMemory_at (m : RawMemory) (index : nat) : outcome (option T) :=
  if decide (index < capacity_ m) then
    match buffer_ m !! index with
    | Some slot => Returned slot
    | None => Undefined
    end
  else Undefined.

(** RawMemory(RawMemory&& other) noexcept: the members take their default
    values, then Swap(other); the new object, and [other] afterwards. *)
Definition RawMemory_move (other : RawMemory) : RawMemory * RawMemory :=
  RawMemory_Swap RawMemory_default other.

(** RawMemory& operator=(RawMemory&& rhs) noexcept. *)
Definition RawMemory_move_assign (m rhs : RawMemory) : RawMemory * RawMemory :=
  RawMemory_Swap m rhs.

(** ~RawMemory(). *)
Definition RawMemory_destroy (m : RawMemory) (w : World T) : World T :=
  Deallocate (buffer_ m) w.

(** iterator begin() noexcept, and const_iterator begin() const noexcept. *)
Definition begin (v : Vector) : nat := GetAddress (data_ v).

(** iterator end() noexcept, and const_iterator end() const noexcept. *)
Definition end_ (v : Vector) : nat := GetAddress (data_ v) + size_ v.

Definition cbegin (v : Vector) : nat := begin v.

Definition cend (v : Vector) : nat := end_ v.

End Model.

Arguments RawMemory : clear implicits.
Arguments Vector : clear implicits.
Arguments VectorRef : clear implicits.
Arguments Ref : clear implicits.
Arguments Args : clear implicits.

(** * Specification vocabulary *)

(** [w] after the operations [es]. *)
Definition after {T : Type} (es : list (Event T)) (w : World T) : World T :=
  mkWorld (log w ++ es) (leaked w).

(** [w] after the objects [ys] have ended without a destructor call. *)
Definition lose {T : Type} (ys : list T) (w : World T) : World T :=
  mkWorld (log w) (leaked w ++ ys).

(** The objects alive in the slots [b]. *)
Definition live {T : Type} (b : list (option T)) : list T := omap id b.
Global Arguments live : simpl never.

Section Specification.
Context {T : Type} `{Element T}.

Local Abbreviation block := (list (option T)).

(** The constructor a relocation runs and what it leaves in the source. *)
Definition relocation_ctor (by_move : bool) (x : T) : Event T :=
  if by_move then EvMoveCtor x else EvCopyCtor x.

Definition residue (by_move : bool) (x : T) : T :=
  if by_move then moved_from x else x.

(** The move assignments of a shift that starts by overwriting an object of
    value [y] and walks through [xs], and the value in the slot vacated
    last. *)
Fixpoint shift_events (y : T) (xs : list T) : list (Event T) :=
  match xs with
  | [] => []
  | x :: xs' => EvMoveAssign y x :: shift_events (moved_from x) xs'
  end.

Fixpoint shift_last (y : T) (xs : list T) : T :=
  match xs with
  | [] => y
  | x :: xs' => shift_last (moved_from x) xs'
  end.

(** What [operator new] is asked for a block of [n] elements. *)
Definition alloc_events (n : nat) : list (Event T) :=
  if decide (n = 0) then [] else [EvAlloc n].

(** A block of [k] slots is one the allocator can have served. *)
Definition servable (k : nat) : Prop := (N.of_nat (k * sizeof) ≤ max_alloc)%N.

(** [models v l junk]: the block of [v] holds the live elements [l] followed
    by the slots [junk] and nothing else, it is one the allocator can have
    served, and capacity_ is at least its number of slots. *)
Definition models (v : Vector T) (l : list T) (junk : block) : Prop :=
  slots v = (Some <$> l) ++ junk
  ∧ size_ v = length l
  ∧ length l + length junk ≤ Capacity v
  ∧ servable (length l + length junk).

(** capacity_ is the number of slots of the block.  (It is larger after a
    Reserve whose byte count has wrapped around.) *)
Definition intact (v : Vector T) : Prop := length (slots v) = Capacity v.

(** The request for [n] elements reaches operator new as it is: the byte
    count fits size_t. *)
Definition fits_size_t (n : nat) : Prop :=
  (N.of_nat (n * sizeof) < size_t_modulus)%N.

Definition size_within_capacity (v : Vector T) : Prop := size_ v ≤ Capacity v.

Definition prefix_constructed (v : Vector T) : Prop :=
  ∀ i, i < size_ v → ∃ x, slots v !! i = Some (Some x).

Definition tail_unconstructed (v : Vector T) : Prop :=
  ∀ i, size_ v ≤ i < Capacity v → slots v !! i = Some None.

(** [inv strict v]: [v] has a well-formed prefix of live elements; when
    [strict], the slots behind it are uninitialized as well. *)
Definition inv (strict : bool) (v : Vector T) : Prop :=
  ∃ l junk, models v l junk ∧ (strict = true → Forall (.= None) junk).

(** Move assignment of [T] never throws. *)
Definition nothrow_move_assign : Prop :=
  ∀ h d s, throws h (EvMoveAssign d s) = false.

(** ** Reachable states

    The states a vector object goes through: it is constructed by one of
    the constructors and then changed by the public operations, each of
    which either returns or lets an exception through.  Calls that violate
    a precondition (outcome [Undefined]) are not part of any run. *)
Inductive reachable : Vector T → Prop :=
| reach_default : reachable Vector_default
| reach_sized n w v w' :
    Vector_sized n w = (Returned v, w') → reachable v
| reach_copy other w v w' :
    reachable other → Vector_copy other w = (Returned v, w') → reachable v
| reach_move other :
    reachable other → reachable (Vector_move other).1
| reach_moved_from other :
    reachable other → reachable (Vector_move other).2
| reach_store index x v r v' :
    reachable v → store_at index x v = (r, v') → r ≠ Undefined → reachable v'
| reach_copy_assign_self v w r v' w' :
    reachable v → Vector_copy_assign This v w = (r, v', w') →
    r ≠ Undefined → reachable v'
| reach_copy_assign rhs v w r v' w' :
    reachable v → reachable rhs →
    Vector_copy_assign (Other rhs) v w = (r, v', w') →
    r ≠ Undefined → reachable v'
| reach_move_assign v rhs :
    reachable v → reachable rhs → reachable (Vector_move_assign v rhs).1
| reach_move_assigned_from v rhs :
    reachable v → reachable rhs → reachable (Vector_move_assign v rhs).2
| reach_Swap v other :
    reachable v → reachable other → reachable (Swap v other).1
| reach_Swapped v other :
    reachable v → reachable other → reachable (Swap v other).2
| reach_Reserve n v w r v' w' :
    reachable v → Reserve n v w = (r, v', w') → r ≠ Undefined → reachable v'
| reach_Resize n v w r v' w' :
    reachable v → Resize n v w = (r, v', w') → r ≠ Undefined → reachable v'
| reach_PushBack_copy value v w r v' w' :
    reachable v → PushBack_copy value v w = (r, v', w') → r ≠ Undefined →
    reachable v'
| reach_PushBack_move value v w r v' w' :
    reachable v → PushBack_move value v w = (r, v', w') → r ≠ Undefined →
    reachable v'
| reach_PopBack v w r v' w' :
    reachable v → PopBack v w = (r, v', w') → r ≠ Undefined → reachable v'
| reach_EmplaceBack args v w r v' w' :
    reachable v → EmplaceBack args v w = (r, v', w') → r ≠ Undefined →
    reachable v'
| reach_Emplace pos args v w r v' w' :
    reachable v → Emplace pos args v w = (r, v', w') → r ≠ Undefined →
    reachable v'
| reach_Insert_copy pos value v w r v' w' :
    reachable v → Insert_copy pos value v w = (r, v', w') → r ≠ Undefined →
    reachable v'
| reach_Insert_move pos value v w r v' w' :
    reachable v → Insert_move pos value v w = (r, v', w') → r ≠ Undefined →
    reachable v'
| reach_Erase pos v w r v' w' :
    reachable v → Erase pos v w = (r, v', w') → r ≠ Undefined → reachable v'.

(** The value that [args] builds when it does not refer to an element of
    the vector itself. *)
Definition outside_value (args : Args T) : option T :=
  match args with
  | ByCopy (Outside x) | ByMove x | ByCtor x => Some x
  | ByCopy (Inside _) => None
  end.

(** A caller's loop [for (...) v.EmplaceBack(args);] over a list of
    arguments, left at the first call that does not return. *)
Fixpoint EmplaceBack_each (argss : list (Args T)) (v : Vector T) (w : World T)
    : outcome unit * Vector T * World T :=
  match argss with
  | [] => (Returned tt, v, w)
  | args :: rest =>
    match EmplaceBack args v w with
    | (Returned _, v1, w1) => EmplaceBack_each rest v1 w1
    | (r, v1, w1) => (rethrow r, v1, w1)
    end
  end.

(** The operations [es], run in this order after the history [h], all
    complete: none of them throws. *)
Fixpoint quiet (h es : list (Event T)) : bool :=
  match es with
  | [] => true
  | e :: es' => negb (throws h e) && quiet (h ++ [e]) es'
  end.

(** The number of allocation requests among the operations [es]. *)
Fixpoint allocations (es : list (Event T)) : nat :=
  match es with
  | [] => 0
  | EvAlloc _ :: es' => S (allocations es')
  | _ :: es' => allocations es'
  end.

(** The number of copy constructions among the operations [es]. *)
Fixpoint copy_constructions (es : list (Event T)) : nat :=
  match es with
  | [] => 0
  | EvCopyCtor _ :: es' => S (copy_constructions es')
  | _ :: es' => copy_constructions es'
  end.

(** The number of copy constructions that building the new element from
    [args] takes. *)
Definition copies_built_by (args : Args T) : nat :=
  match args with
  | ByCopy _ => 1
  | _ => 0
  end.

(** [args] is a valid argument for an insertion into [v]: a reference
    among the arguments designates an object outside of [v] or one of its
    elements. *)
Definition valid_args (args : Args T) (v : Vector T) : Prop :=
  match args with
  | ByCopy (Inside j) => j < size_ v
  | _ => True
  end.

(** The vector that holds exactly the elements [l] in a block of [cap]
    slots. *)
Definition packed (l : list T) (cap : nat) : Vector T :=
  mkVector (mkRawMemory ((Some <$> l) ++ replicate (cap - length l) None) cap)
    (length l).

End Specification.

(** ** Instrumented element types over [nat]

    The value [0] plays the moved-from state.  [copy_bomb] relocates by move
    (its move constructor is noexcept) and its copy constructor throws on
    the value 13; [copy_only] relocates by copy for its move constructor
    may throw, and throws on copying 13 as well; [assign_bomb] throws on a
    move assignment from the value 13. *)
Module Instr.

(** Four-byte elements; operator new fails exactly when asked for more than
    PTRDIFF_MAX bytes. *)
Definition alloc_throws (n : nat) : bool :=
  (max_alloc <? N.of_nat (wrap64 (n * 4)))%N.

Definition copy_bomb : Element nat := {|
  default_value := 0;
  moved_from := λ _, 0;
  is_nothrow_move_constructible := true;
  is_copy_constructible := true;
  sizeof := 4;
  throws := λ _ e,
    match e with
    | EvAlloc n => alloc_throws n
    | EvCopyCtor 13 => true
    | _ => false
    end
|}.

Definition copy_only : Element nat := {|
  default_value := 0;
  moved_from := λ _, 0;
  is_nothrow_move_constructible := false;
  is_copy_constructible := true;
  sizeof := 4;
  throws := λ _ e,
    match e with
    | EvAlloc n => alloc_throws n
    | EvCopyCtor 13 => true
    | _ => false
    end
|}.

Definition assign_bomb : Element nat := {|
  default_value := 0;
  moved_from := λ _, 0;
  is_nothrow_move_constructible := true;
  is_copy_constructible := true;
  sizeof := 4;
  throws := λ _ e,
    match e with
    | EvAlloc n => alloc_throws n
    | EvMoveAssign _ 13 => true
    | _ => false
    end
|}.

Definition w0 : World nat := mkWorld [] [].

(** The state left behind by an in-place Insert whose shift was cut short:
    two elements, and a third object alive in the slot behind them. *)
Definition stranded : Vector nat :=
  mkVector (mkRawMemory [Some 13; Some 0; Some 2; None] 4) 2.

(** A request that wraps around: 2^62 four-byte elements are 2^64 bytes,
    which is 0 in size_t. *)
Definition huge : nat := N.to_nat 4611686018427387904.

(** The state that Reserve(2^62) leaves an empty vector of four-byte
    elements in: capacity 2^62, and a block of 0 bytes. *)
Definition wrapped : Vector nat := mkVector (mkRawMemory [] huge) 0.

End Instr.

(** * Verification *)

Lemma wrap64_small (n : nat) :
  (N.of_nat n < size_t_modulus)%N → wrap64 n = n.
Proof.
  intros Hn. unfold wrap64. rewrite N.mod_small by exact Hn. apply Nat2N.id.
Qed.

Lemma grown_capacity_small (n : nat) :
  (N.of_nat n ≤ max_alloc)%N →
  grown_capacity n = if decide (n = 0) then 1 else n * 2.
Proof.
  intros Hn. unfold grown_capacity. case_decide; [done|].
  apply wrap64_small. unfold max_alloc in Hn. unfold size_t_modulus. lia.
Qed.

Lemma after_nil {T : Type} (w : World T) : after [] w = w.
Proof. destruct w. unfold after. simpl. by rewrite app_nil_r. Qed.

Lemma after_after {T : Type} (es1 es2 : list (Event T)) (w : World T) :
  after es2 (after es1 w) = after (es1 ++ es2) w.
Proof. unfold after. simpl. by rewrite app_assoc. Qed.

Lemma record_after {T : Type} (e : Event T) (w : World T) :
  record e w = after [e] w.
Proof. done. Qed.

Lemma middle_lookup {A} (pre post : list A) (x : A) :
  (pre ++ x :: post) !! length pre = Some x.
Proof. by rewrite list_lookup_middle. Qed.

Lemma middle_insert {A} (pre post : list A) (x y : A) :
  <[length pre := y]> (pre ++ x :: post) = pre ++ y :: post.
Proof. by rewrite insert_app_r_alt, Nat.sub_diag. Qed.

Lemma snoc_app {A} (pre post : list A) (x : A) :
  pre ++ x :: post = (pre ++ [x]) ++ post.
Proof. by rewrite <- app_assoc. Qed.

Lemma lose_nil {T : Type} (w : World T) : lose [] w = w.
Proof. destruct w. unfold lose. simpl. by rewrite app_nil_r. Qed.

Lemma lose_lose {T : Type} (ys1 ys2 : list T) (w : World T) :
  lose ys2 (lose ys1 w) = lose (ys1 ++ ys2) w.
Proof. unfold lose. simpl. by rewrite app_assoc. Qed.

Lemma after_lose {T : Type} (es : list (Event T)) (ys : list T) (w : World T) :
  after es (lose ys w) = lose ys (after es w).
Proof. done. Qed.

Ltac list_norm :=
  repeat (rewrite ?fmap_app, ?length_app, ?after_lose, ?after_after,
            ?lose_lose, ?app_nil_r, <- ?app_assoc; csimpl).
Ltac solve_list := list_norm; repeat first [done | f_equal; try lia].

(** ** Byte counts *)

Section Bytes.
Context {T : Type} `{Element T} `{!Lawful T}.

Lemma alloc_bytes_fits (n : nat) : fits_size_t n → alloc_bytes n = n * sizeof.
Proof. intros Hn. unfold alloc_bytes. by apply wrap64_small. Qed.

Lemma alloc_slots_fits (n : nat) : fits_size_t n → alloc_bytes n / sizeof = n.
Proof.
  intros Hn. rewrite alloc_bytes_fits by done.
  apply Nat.div_mul. pose proof sizeof_pos. lia.
Qed.

Lemma alloc_bytes_le (n : nat) : alloc_bytes n ≤ n * sizeof.
Proof.
  unfold alloc_bytes, wrap64.
  assert (N.of_nat (n * sizeof) mod size_t_modulus ≤ N.of_nat (n * sizeof))%N
    by (apply N.Div0.mod_le).
  lia.
Qed.

Lemma alloc_slots_le (n : nat) : alloc_bytes n / sizeof ≤ n.
Proof.
  pose proof sizeof_pos as Hs. pose proof (alloc_bytes_le n) as Hb.
  apply Nat.Div0.div_le_upper_bound. lia.
Qed.

Lemma alloc_slots_wrapped (n : nat) :
  ¬ fits_size_t n → alloc_bytes n / sizeof < n.
Proof.
  intros Hn. unfold fits_size_t in Hn. pose proof sizeof_pos as Hs.
  apply Nat.Div0.div_lt_upper_bound.
  unfold alloc_bytes, wrap64.
  assert (N.of_nat (n * sizeof) mod size_t_modulus < size_t_modulus)%N
    by (by apply N.mod_lt).
  lia.
Qed.

Lemma alloc_slots_servable (n : nat) :
  (N.of_nat (alloc_bytes n) ≤ max_alloc)%N → servable (alloc_bytes n / sizeof).
Proof.
  intros Hb. unfold servable.
  assert (alloc_bytes n / sizeof * sizeof ≤ alloc_bytes n)
    by (rewrite Nat.mul_comm; apply Nat.Div0.mul_div_le).
  lia.
Qed.

Lemma servable_le (j k : nat) : j ≤ k → servable k → servable j.
Proof. unfold servable. intros Hjk Hk. nia. Qed.

Lemma servable_bound (k : nat) : servable k → (N.of_nat k ≤ max_alloc)%N.
Proof. unfold servable. pose proof sizeof_pos. intros Hk. nia. Qed.

Lemma servable_double (k : nat) : servable k → fits_size_t (k * 2).
Proof.
  unfold servable, fits_size_t, max_alloc, size_t_modulus. intros Hk. nia.
Qed.

Lemma servable_fits (k : nat) : servable k → fits_size_t k.
Proof.
  unfold servable, fits_size_t, max_alloc, size_t_modulus. intros Hk. lia.
Qed.

Lemma fits_size_t_one : fits_size_t 1.
Proof. unfold fits_size_t. rewrite Nat.mul_1_l. apply sizeof_size_t. Qed.

Lemma fits_size_t_zero : fits_size_t 0.
Proof. unfold fits_size_t, size_t_modulus. simpl. lia. Qed.

Lemma servable_zero : servable 0.
Proof. unfold servable, max_alloc. simpl. lia. Qed.

Lemma alloc_slots_zero : alloc_bytes 0 / sizeof = 0.
Proof. by rewrite alloc_slots_fits by apply fits_size_t_zero. Qed.

End Bytes.

Section Algorithms.
Context {T : Type} `{Element T}.

Local Abbreviation block := (list (option T)).

Lemma forget_lose (h : option T) (w : World T) :
  forget h w = lose (live [h]) w.
Proof. destruct h; [done|]. symmetry. apply lose_nil. Qed.

Lemma live_cons (h : option T) (b : block) :
  live (h :: b) = live [h] ++ live b.
Proof. by destruct h. Qed.

Lemma live_nil : live (@nil (option T)) = [].
Proof. done. Qed.

Lemma destroy_n_spec (pre post : block) (xs : list T) (w : World T) :
  destroy_n (pre ++ (Some <$> xs) ++ post) (length pre) (length xs) w
  = (Returned tt, pre ++ replicate (length xs) None ++ post,
     after (EvDtor <$> xs) w).
Proof.
  revert pre w. induction xs as [|x xs IH]; intros pre w; csimpl.
  - by rewrite after_nil.
  - unfold destroy_at. rewrite middle_lookup, middle_insert.
    specialize (IH (pre ++ [None]) (record (EvDtor x) w)).
    rewrite <- !app_assoc, length_app, Nat.add_1_r in IH. simpl in IH.
    rewrite IH, record_after, after_after. done.
Qed.

Lemma construct_at_middle (pre post : block) (h : option T) (e : Event T)
    (x : T) (w : World T) :
  construct_at (pre ++ h :: post) (length pre) e x w
  = if throws (log w) e
    then (Thrown, pre ++ h :: post, after [e] w)
    else (Returned tt, pre ++ Some x :: post,
          lose (live [h]) (after [e] w)).
Proof.
  unfold construct_at, attempt. rewrite middle_lookup.
  destruct (throws (log w) e); simpl; [done|].
  by rewrite middle_insert, forget_lose.
Qed.

Lemma construct_at_end (b : block) (p : nat) (e : Event T) (x : T)
    (w : World T) :
  length b ≤ p → construct_at b p e x w = (Undefined, b, w).
Proof. intros Hp. unfold construct_at. by rewrite lookup_ge_None_2. Qed.

Lemma uninitialized_loop_spec (by_move : bool) (xs : list T) :
  ∀ (sp ss dp ds hole : block) (ys : list T) (w : World T) r src' dst' w',
  length hole = length xs →
  uninitialized_loop by_move (sp ++ (Some <$> xs) ++ ss) (length sp)
    (length xs) (dp ++ (Some <$> ys) ++ hole ++ ds) (length dp)
    (length dp + length ys) w = (r, src', dst', w') →
  (r = Returned tt
   ∧ src' = sp ++ (Some <$> (residue by_move <$> xs)) ++ ss
   ∧ dst' = dp ++ (Some <$> (ys ++ xs)) ++ ds
   ∧ w' = lose (live hole) (after (relocation_ctor by_move <$> xs) w))
  ∨ (r = Thrown ∧ ∃ xs1 x xs2,
       xs = xs1 ++ x :: xs2
       ∧ throws (log w ++ (relocation_ctor by_move <$> xs1))
           (relocation_ctor by_move x) = true
       ∧ src' = sp ++ (Some <$> (residue by_move <$> xs1))
                  ++ (Some <$> (x :: xs2)) ++ ss
       ∧ dst' = dp ++ replicate (length ys + length xs1) None
                  ++ drop (length xs1) hole ++ ds
       ∧ w' = lose (live (take (length xs1) hole))
                (after ((relocation_ctor by_move <$> xs1)
                        ++ [relocation_ctor by_move x]
                        ++ (EvDtor <$> (ys ++ xs1))) w)).
Proof.
  induction xs as [|x xs IH]; intros sp ss dp ds hole ys w r src' dst' w' Hlen.
  - destruct hole; [|done]. csimpl. intros [= <- <- <- <-]. left.
    by rewrite app_nil_r, after_nil, live_nil, lose_nil.
  - destruct hole as [|h hole]; [done|]. csimpl.
    rewrite middle_lookup.
    replace (dp ++ (Some <$> ys) ++ h :: hole ++ ds)
      with ((dp ++ (Some <$> ys)) ++ h :: hole ++ ds) by by rewrite <- app_assoc.
    replace (length dp + length ys) with (length (dp ++ (Some <$> ys)))
      by by rewrite length_app, length_fmap.
    rewrite construct_at_middle.
    fold (relocation_ctor by_move x).
    destruct (throws (log w) (relocation_ctor by_move x)) eqn:Hthrow.
    + rewrite length_app, length_fmap, Nat.add_sub'.
      rewrite <- app_assoc, destroy_n_spec, after_after.
      intros [= <- <- <- <-]. right. split; [done|].
      exists [], x, xs. csimpl. rewrite !app_nil_r, Nat.add_0_r, ?take_0, ?live_nil, lose_nil. done.
    + intros Hloop. simpl in Hlen. injection Hlen as Hlen.
      specialize (IH (sp ++ [Some (residue by_move x)]) ss dp ds hole
                     (ys ++ [x])
                     (lose (live [h]) (after [relocation_ctor by_move x] w))
                     r src' dst' w' Hlen).
      rewrite !fmap_app, !length_app, <- !app_assoc in IH. csimpl in IH.
      rewrite Nat.add_1_r, Nat.add_assoc, Nat.add_1_r in IH.
      rewrite length_app, length_fmap, <- app_assoc in Hloop.
      assert (Hsrc : (if by_move
                      then <[length sp:=Some (moved_from x)]>
                             (sp ++ Some x :: (Some <$> xs) ++ ss)
                      else sp ++ Some x :: (Some <$> xs) ++ ss)
                     = sp ++ Some (residue by_move x) :: (Some <$> xs) ++ ss).
      { unfold residue. destruct by_move; [by rewrite middle_insert|done]. }
      rewrite Hsrc in Hloop. clear Hsrc.
      destruct (IH Hloop)
        as [(-> & -> & -> & ->)|(-> & xs1 & x' & xs2 & -> & Hx & -> & -> & ->)].
      * left. rewrite (live_cons h hole). repeat split; solve_list.
      * right. split; [done|]. exists (x :: xs1), x', xs2.
        rewrite <- app_assoc in Hx. cbn [length take]. rewrite (live_cons h (take _ hole)).
        repeat split; solve_list.
Qed.

(** The same loop when the destination block ends before all of the source
    has a slot: the construction past the end is undefined, unless a
    constructor throws before. *)
Lemma uninitialized_loop_short (by_move : bool) (xs1 : list T) :
  ∀ (sp ss dp hole : block) (ys : list T) (x : T) (xs2 : list T)
    (w : World T) r src' dst' w',
  length hole = length xs1 →
  uninitialized_loop by_move (sp ++ (Some <$> (xs1 ++ x :: xs2)) ++ ss)
    (length sp) (length (xs1 ++ x :: xs2)) (dp ++ (Some <$> ys) ++ hole)
    (length dp) (length dp + length ys) w = (r, src', dst', w') →
  (r = Undefined
   ∧ src' = sp ++ (Some <$> (residue by_move <$> xs1))
              ++ (Some <$> (x :: xs2)) ++ ss
   ∧ dst' = dp ++ replicate (length ys + length xs1) None
   ∧ w' = lose (live hole)
            (after ((relocation_ctor by_move <$> xs1)
                    ++ (EvDtor <$> (ys ++ xs1))) w))
  ∨ (r = Thrown ∧ ∃ l1 y l2,
       xs1 = l1 ++ y :: l2
       ∧ throws (log w ++ (relocation_ctor by_move <$> l1))
           (relocation_ctor by_move y) = true
       ∧ src' = sp ++ (Some <$> (residue by_move <$> l1))
                  ++ (Some <$> (y :: l2 ++ x :: xs2)) ++ ss
       ∧ dst' = dp ++ replicate (length ys + length l1) None
                  ++ drop (length l1) hole
       ∧ w' = lose (live (take (length l1) hole))
                (after ((relocation_ctor by_move <$> l1)
                        ++ [relocation_ctor by_move y]
                        ++ (EvDtor <$> (ys ++ l1))) w)).
Proof.
  induction xs1 as [|z xs1 IH];
    intros sp ss dp hole ys x xs2 w r src' dst' w' Hlen.
  - destruct hole; [|done]. csimpl. rewrite middle_lookup, app_nil_r.
    rewrite construct_at_end by (rewrite length_app, length_fmap; lia).
    rewrite Nat.add_sub'.
    rewrite <- (app_nil_r (Some <$> ys)) at 1.
    rewrite destroy_n_spec. csimpl.
    intros [= <- <- <- <-]. left.
    rewrite !app_nil_r, Nat.add_0_r, ?take_0, ?live_nil, lose_nil. done.
  - destruct hole as [|h hole]; [done|]. csimpl.
    rewrite middle_lookup.
    replace (dp ++ (Some <$> ys) ++ h :: hole)
      with ((dp ++ (Some <$> ys)) ++ h :: hole) by by rewrite <- app_assoc.
    replace (length dp + length ys) with (length (dp ++ (Some <$> ys)))
      by by rewrite length_app, length_fmap.
    rewrite construct_at_middle.
    fold (relocation_ctor by_move z).
    destruct (throws (log w) (relocation_ctor by_move z)) eqn:Hthrow.
    + rewrite length_app, length_fmap, Nat.add_sub'.
      rewrite <- app_assoc, destroy_n_spec, after_after.
      intros [= <- <- <- <-]. right. split; [done|].
      exists [], z, xs1. csimpl.
      rewrite !app_nil_r, Nat.add_0_r, ?take_0, ?live_nil, lose_nil.
      repeat split; solve_list.
    + intros Hloop. simpl in Hlen. injection Hlen as Hlen.
      assert (Hsrc : ∀ tl : block,
                (if by_move
                 then <[length sp:=Some (moved_from z)]> (sp ++ Some z :: tl)
                 else sp ++ Some z :: tl)
                = sp ++ Some (residue by_move z) :: tl).
      { intros tl. unfold residue.
        destruct by_move; [by rewrite middle_insert|done]. }
      rewrite Hsrc in Hloop. clear Hsrc.
      destruct (IH (sp ++ [Some (residue by_move z)]) ss dp hole
                   (ys ++ [z]) x xs2
                   (lose (live [h]) (after [relocation_ctor by_move z] w))
                   r src' dst' w' Hlen)
        as [(-> & -> & -> & ->)|(-> & l1 & y & l2 & -> & Hy & -> & -> & ->)].
      * rewrite <- Hloop. f_equal; list_norm; rewrite ?length_fmap;
          first [done|lia].
      * left. rewrite (live_cons h hole). repeat split; solve_list.
      * right. split; [done|]. exists (z :: l1), y, l2.
        simpl in Hy. rewrite <- app_assoc in Hy.
        cbn [length take]. rewrite (live_cons h (take _ hole)).
        repeat split; solve_list.
Qed.

Lemma value_construct_loop_spec (n : nat) :
  ∀ (dp ds hole : block) (ys : list T) (w : World T) r b' w',
  length hole = n →
  value_construct_loop (dp ++ (Some <$> ys) ++ hole ++ ds) (length dp)
    (length dp + length ys) n w = (r, b', w') →
  (r = Returned tt
   ∧ b' = dp ++ (Some <$> (ys ++ replicate n default_value)) ++ ds
   ∧ w' = lose (live hole) (after (replicate n EvDefaultCtor) w))
  ∨ (r = Thrown ∧ ∃ k,
       k < n
       ∧ throws (log w ++ replicate k EvDefaultCtor) EvDefaultCtor = true
       ∧ b' = dp ++ replicate (length ys + k) None ++ drop k hole ++ ds
       ∧ w' = lose (live (take k hole))
                (after (replicate k EvDefaultCtor ++ [EvDefaultCtor]
                        ++ (EvDtor <$> (ys ++ replicate k default_value))) w)).
Proof.
  induction n as [|n IH]; intros dp ds hole ys w r b' w' Hlen.
  - destruct hole; [|done]. csimpl. intros [= <- <- <-]. left.
    by rewrite app_nil_r, after_nil, live_nil, lose_nil.
  - destruct hole as [|h hole]; [done|]. csimpl.
    replace (dp ++ (Some <$> ys) ++ h :: hole ++ ds)
      with ((dp ++ (Some <$> ys)) ++ h :: hole ++ ds) by by rewrite <- app_assoc.
    replace (length dp + length ys) with (length (dp ++ (Some <$> ys)))
      by by rewrite length_app, length_fmap.
    rewrite construct_at_middle.
    destruct (throws (log w) EvDefaultCtor) eqn:Hthrow.
    + rewrite length_app, length_fmap, Nat.add_sub'.
      rewrite <- app_assoc, destroy_n_spec, after_after.
      intros [= <- <- <-]. right. split; [done|].
      exists 0. csimpl. rewrite !app_nil_r, Nat.add_0_r, ?take_0, ?live_nil, lose_nil.
      repeat split; try done. lia.
    + intros Hloop. simpl in Hlen. injection Hlen as Hlen.
      specialize (IH dp ds hole (ys ++ [default_value])
                     (lose (live [h]) (after [EvDefaultCtor] w))
                     r b' w' Hlen).
      rewrite !fmap_app, !length_app, <- !app_assoc in IH. csimpl in IH.
      rewrite Nat.add_assoc, Nat.add_1_r in IH.
      rewrite length_app, length_fmap, <- app_assoc in Hloop.
      destruct (IH Hloop) as [(-> & -> & ->)|(-> & k & Hk & Hx & -> & ->)].
      * left. rewrite (live_cons h hole). repeat split; solve_list.
      * right. split; [done|]. exists (S k).
        rewrite <- app_assoc in Hx. cbn [length take]. rewrite (live_cons h (take _ hole)).
        repeat split; try lia; solve_list.
Qed.

(** The value-construction loop when the block ends after [k < n] more
    slots. *)
Lemma value_construct_loop_short (k : nat) :
  ∀ (dp hole : block) (ys : list T) (m : nat) (w : World T) r b' w',
  length hole = k →
  value_construct_loop (dp ++ (Some <$> ys) ++ hole) (length dp)
    (length dp + length ys) (k + S m) w = (r, b', w') →
  (r = Undefined
   ∧ b' = dp ++ replicate (length ys + k) None
   ∧ w' = lose (live hole)
            (after (replicate k EvDefaultCtor
                    ++ (EvDtor <$> (ys ++ replicate k default_value))) w))
  ∨ (r = Thrown ∧ ∃ j,
       j < k
       ∧ throws (log w ++ replicate j EvDefaultCtor) EvDefaultCtor = true
       ∧ b' = dp ++ replicate (length ys + j) None ++ drop j hole
       ∧ w' = lose (live (take j hole))
                (after (replicate j EvDefaultCtor ++ [EvDefaultCtor]
                        ++ (EvDtor <$> (ys ++ replicate j default_value))) w)).
Proof.
  induction k as [|k IH]; intros dp hole ys m w r b' w' Hlen.
  - destruct hole; [|done]. csimpl. rewrite app_nil_r.
    rewrite construct_at_end by (rewrite length_app, length_fmap; lia).
    rewrite Nat.add_sub'.
    rewrite <- (app_nil_r (Some <$> ys)) at 1.
    rewrite destroy_n_spec. csimpl.
    intros [= <- <- <-]. left.
    rewrite !app_nil_r, Nat.add_0_r, ?take_0, ?live_nil, lose_nil. done.
  - destruct hole as [|h hole]; [done|]. csimpl.
    replace (dp ++ (Some <$> ys) ++ h :: hole)
      with ((dp ++ (Some <$> ys)) ++ h :: hole) by by rewrite <- app_assoc.
    replace (length dp + length ys) with (length (dp ++ (Some <$> ys)))
      by by rewrite length_app, length_fmap.
    rewrite construct_at_middle.
    destruct (throws (log w) EvDefaultCtor) eqn:Hthrow.
    + rewrite length_app, length_fmap, Nat.add_sub'.
      rewrite <- app_assoc, destroy_n_spec, after_after.
      intros [= <- <- <-]. right. split; [done|].
      exists 0. csimpl. rewrite !app_nil_r, Nat.add_0_r, ?take_0, ?live_nil, lose_nil.
      repeat split; try done. lia.
    + intros Hloop. simpl in Hlen. injection Hlen as Hlen.
      specialize (IH dp hole (ys ++ [default_value]) m
                     (lose (live [h]) (after [EvDefaultCtor] w))
                     r b' w' Hlen).
      rewrite !fmap_app, !length_app, <- !app_assoc in IH. csimpl in IH.
      rewrite Nat.add_assoc, Nat.add_1_r in IH.
      rewrite length_app, length_fmap, <- app_assoc in Hloop.
      destruct (IH Hloop) as [(-> & -> & ->)|(-> & j & Hj & Hx & -> & ->)].
      * left. rewrite (live_cons h hole). repeat split; solve_list.
      * right. split; [done|]. exists (S j).
        rewrite <- app_assoc in Hx. cbn [length take]. rewrite (live_cons h (take _ hole)).
        repeat split; try lia; solve_list.
Qed.

Lemma copy_n_spec (xs : list T) :
  ∀ (sp ss dp ds : block) (ys : list T) (w : World T) r b' w',
  length ys = length xs →
  copy_n (sp ++ (Some <$> xs) ++ ss) (length sp) (length xs)
    (dp ++ (Some <$> ys) ++ ds) (length dp) w = (r, b', w') →
  (r = Returned tt
   ∧ b' = dp ++ (Some <$> xs) ++ ds
   ∧ w' = after (zip_with EvCopyAssign ys xs) w)
  ∨ (r = Thrown ∧ ∃ xs1 x xs2 ys1 y ys2,
       xs = xs1 ++ x :: xs2 ∧ ys = ys1 ++ y :: ys2
       ∧ length ys1 = length xs1
       ∧ throws (log w ++ zip_with EvCopyAssign ys1 xs1) (EvCopyAssign y x) = true
       ∧ b' = dp ++ (Some <$> (xs1 ++ y :: ys2)) ++ ds
       ∧ w' = after (zip_with EvCopyAssign ys1 xs1 ++ [EvCopyAssign y x]) w).
Proof.
  induction xs as [|x xs IH]; intros sp ss dp ds ys w r b' w' Hlen.
  - destruct ys; [|done]. csimpl. intros [= <- <- <-]. left.
    by rewrite after_nil.
  - destruct ys as [|y ys]; [done|]. csimpl.
    rewrite !middle_lookup. unfold attempt.
    destruct (throws (log w) (EvCopyAssign y x)) eqn:Hthrow; simpl.
    + intros [= <- <- <-]. right. split; [done|].
      exists [], x, xs, [], y, ys. csimpl. by rewrite app_nil_r.
    + intros Hloop. simpl in Hlen. injection Hlen as Hlen.
      rewrite middle_insert in Hloop.
      specialize (IH (sp ++ [Some x]) ss (dp ++ [Some x]) ds ys
                     (after [EvCopyAssign y x] w) r b' w' Hlen).
      rewrite !length_app, <- !app_assoc in IH. csimpl in IH.
      rewrite !Nat.add_1_r in IH.
      destruct (IH Hloop)
        as [(-> & -> & ->)
           |(-> & xs1 & x' & xs2 & ys1 & y' & ys2 & -> & -> & Hl & Hx & -> & ->)].
      * left. repeat split; solve_list.
      * right. split; [done|].
        exists (x :: xs1), x', xs2, (y :: ys1), y', ys2.
        rewrite <- app_assoc in Hx. repeat split; try (csimpl; lia); solve_list.
Qed.

Lemma move_assign_left (pre post : block) (x y : T) (w : World T) :
  move_assign (pre ++ Some y :: Some x :: post) (length pre) (S (length pre)) w
  = if throws (log w) (EvMoveAssign y x)
    then (Thrown, pre ++ Some y :: Some x :: post, after [EvMoveAssign y x] w)
    else (Returned tt, pre ++ Some x :: Some (moved_from x) :: post,
          after [EvMoveAssign y x] w).
Proof.
  unfold move_assign, attempt. rewrite middle_lookup.
  rewrite (lookup_app_r pre) by lia.
  replace (S (length pre) - length pre) with 1 by lia. simpl.
  destruct (throws (log w) (EvMoveAssign y x)); simpl; [done|].
  rewrite middle_insert, insert_app_r_alt by lia.
  replace (S (length pre) - length pre) with 1 by lia. done.
Qed.

Lemma move_assign_right (pre post : block) (x y : T) (w : World T) :
  move_assign (pre ++ Some x :: Some y :: post) (S (length pre)) (length pre) w
  = if throws (log w) (EvMoveAssign y x)
    then (Thrown, pre ++ Some x :: Some y :: post, after [EvMoveAssign y x] w)
    else (Returned tt, pre ++ Some (moved_from x) :: Some x :: post,
          after [EvMoveAssign y x] w).
Proof.
  unfold move_assign, attempt. rewrite middle_lookup.
  rewrite (lookup_app_r pre) by lia.
  replace (S (length pre) - length pre) with 1 by lia. simpl.
  destruct (throws (log w) (EvMoveAssign y x)); simpl; [done|].
  rewrite insert_app_r_alt by lia.
  replace (S (length pre) - length pre) with 1 by lia. simpl.
  by rewrite middle_insert.
Qed.

Lemma move_range_spec (xs : list T) :
  ∀ (pre post : block) (y : T) (w : World T) r b' w',
  move_range (pre ++ Some y :: (Some <$> xs) ++ post) (S (length pre))
    (length xs) (length pre) w = (r, b', w') →
  (r = Returned tt
   ∧ b' = pre ++ (Some <$> xs) ++ Some (shift_last y xs) :: post
   ∧ w' = after (shift_events y xs) w)
  ∨ (r = Thrown
     ∧ (∃ zs, length zs = S (length xs) ∧ b' = pre ++ (Some <$> zs) ++ post)
     ∧ (∃ es, w' = after es w)
     ∧ ∃ h d s, throws h (EvMoveAssign d s) = true).
Proof.
  induction xs as [|x xs IH]; intros pre post y w r b' w'.
  - csimpl. intros [= <- <- <-]. left. by rewrite after_nil.
  - csimpl. rewrite move_assign_left.
    destruct (throws (log w) (EvMoveAssign y x)) eqn:Hthrow.
    + intros [= <- <- <-]. right. split; [done|].
      split; [|split; by eauto].
      exists (y :: x :: xs). by csimpl.
    + intros Hloop.
      specialize (IH (pre ++ [Some x]) post (moved_from x)
                     (after [EvMoveAssign y x] w) r b' w').
      rewrite !length_app, <- !app_assoc in IH. csimpl in IH.
      rewrite !Nat.add_1_r in IH.
      destruct (IH Hloop)
        as [(-> & -> & ->)|(-> & (zs & Hzs & ->) & (es & ->) & Hx)].
      * left. repeat split; solve_list.
      * right. split; [done|]. split; [|split; [|done]].
        -- exists (x :: zs). csimpl. split; [lia|]. solve_list.
        -- rewrite after_after. by eauto.
Qed.

Lemma shift_right_spec (m : list T) :
  ∀ (pre post : block) (t : T) (w : World T) r b' w',
  shift_right (pre ++ (Some <$> m) ++ Some t :: post) (length pre)
    (length pre + length m) w = (r, b', w') →
  (r = Returned tt
   ∧ b' = pre ++ Some (shift_last t (rev m)) :: (Some <$> m) ++ post
   ∧ w' = after (shift_events t (rev m)) w)
  ∨ (r = Thrown
     ∧ (∃ zs, length zs = S (length m) ∧ b' = pre ++ (Some <$> zs) ++ post)
     ∧ (∃ es, w' = after es w)
     ∧ ∃ h d s, throws h (EvMoveAssign d s) = true).
Proof.
  induction m as [|u m IH] using rev_ind; intros pre post t w r b' w'.
  - csimpl. rewrite Nat.add_0_r.
    assert (shift_right (pre ++ Some t :: post) (length pre) (length pre) w
            = (Returned tt, pre ++ Some t :: post, w)) as ->.
    { destruct (length pre) eqn:E; [done|]. simpl. rewrite decide_False by lia. done. }
    intros [= <- <- <-]. left. by rewrite after_nil.
  - rewrite length_app, fmap_app, <- app_assoc. csimpl.
    rewrite Nat.add_assoc, Nat.add_1_r. simpl.
    rewrite decide_True by lia.
    rewrite (app_assoc pre).
    replace (length pre + length m) with (length (pre ++ (Some <$> m)))
      by by rewrite length_app, length_fmap.
    rewrite move_assign_right.
    destruct (throws (log w) (EvMoveAssign t u)) eqn:Hthrow.
    + intros [= <- <- <-]. right. split; [done|].
      split; [|split; by eauto].
      exists (m ++ [u; t]). rewrite !length_app. csimpl.
      split; [lia|]. solve_list.
    + intros Hloop.
      rewrite length_app, length_fmap, <- app_assoc in Hloop.
      destruct (IH pre (Some u :: post) (moved_from u)
                  (after [EvMoveAssign t u] w) r b' w' Hloop)
        as [(-> & -> & ->)|(-> & (zs & Hzs & ->) & (es & ->) & Hx)].
      * left. rewrite rev_app_distr. csimpl. repeat split; solve_list.
      * right. split; [done|]. split; [|split; [|done]].
        -- exists (zs ++ [u]). rewrite !length_app. csimpl.
           split; [lia|]. solve_list.
        -- rewrite after_after. by eauto.
Qed.

(** ** Runs in which nothing throws *)

Lemma quiet_app (h es1 es2 : list (Event T)) :
  quiet h (es1 ++ es2) = quiet h es1 && quiet (h ++ es1) es2.
Proof.
  revert h. induction es1 as [|e es1 IH]; intros h; simpl.
  - by rewrite app_nil_r.
  - rewrite IH, <- app_assoc. simpl. by rewrite andb_assoc.
Qed.

Lemma quiet_throws (h es1 : list (Event T)) (e : Event T)
    (es2 : list (Event T)) :
  throws (h ++ es1) e = true → quiet h (es1 ++ e :: es2) = false.
Proof.
  intros Ht. rewrite quiet_app. simpl. rewrite Ht. simpl.
  by destruct (quiet h es1).
Qed.

Lemma quiet_first (h : list (Event T)) (e : Event T) (es : list (Event T)) :
  throws h e = true → quiet h (e :: es) = false.
Proof. intros Ht. simpl. by rewrite Ht. Qed.

Lemma quiet_prefix (h es1 es2 : list (Event T)) :
  quiet h (es1 ++ es2) = true → quiet h es1 = true.
Proof. rewrite quiet_app. by intros [? _]%andb_true_iff. Qed.

End Algorithms.

Section Container.
Context {T : Type} `{Element T}.

Local Abbreviation block := (list (option T)).

(** ** Representation of a vector state *)

Lemma omap_fmap_Some (l : list T) : omap id (Some <$> l) = l.
Proof. induction l as [|x l IH]; csimpl; [done|]. by rewrite IH. Qed.

Lemma omap_replicate_None (n : nat) : omap id (replicate n (@None T)) = [].
Proof. induction n; csimpl; done. Qed.

Lemma live_fmap_Some (l : list T) : live (Some <$> l) = l.
Proof. apply omap_fmap_Some. Qed.

Lemma live_replicate_None (n : nat) : live (replicate n (@None T)) = [].
Proof. apply omap_replicate_None. Qed.

Lemma live_app (b1 b2 : block) : live (b1 ++ b2) = live b1 ++ live b2.
Proof. apply omap_app. Qed.

Lemma live_None (junk : block) : Forall (.= None) junk → live junk = [].
Proof. induction 1 as [|x junk' Hx _ IH]; [done|]. by subst x. Qed.

Lemma Deallocate_lose (b : block) (w : World T) :
  Deallocate b w = lose (live b) w.
Proof. done. Qed.

Lemma models_elements (v : Vector T) l junk : models v l junk → elements v = l.
Proof.
  intros (Hs & Hn & _). unfold elements. rewrite Hs, Hn.
  rewrite take_app_length' by by rewrite length_fmap.
  apply omap_fmap_Some.
Qed.

Lemma models_semi (v : Vector T) l junk :
  models v l junk → size_within_capacity v ∧ prefix_constructed v.
Proof.
  intros (Hs & Hn & Hc & Hm). split.
  - unfold size_within_capacity. lia.
  - intros i Hi. rewrite Hs, lookup_app_l by (rewrite length_fmap; lia).
    rewrite list_lookup_fmap. rewrite Hn in Hi.
    destruct (lookup_lt_is_Some_2 l i Hi) as [x ->]. by exists x.
Qed.

Lemma models_length (v : Vector T) l junk :
  models v l junk → length (slots v) = length l + length junk.
Proof. intros (Hs & _). by rewrite Hs, length_app, length_fmap. Qed.

Lemma models_intact (v : Vector T) l junk :
  models v l junk → intact v → Capacity v = length l + length junk.
Proof.
  intros Hm Hi. unfold intact in Hi. by rewrite <- Hi, (models_length _ _ _ Hm).
Qed.

Lemma models_full (v : Vector T) l junk :
  models v l junk → size_ v = Capacity v → junk = [] ∧ intact v.
Proof.
  intros Hm Hfull. pose proof (models_length _ _ _ Hm) as Hlen.
  destruct Hm as (Hs & Hn & Hc & _).
  assert (junk = []) as -> by (apply length_zero_iff_nil; lia).
  split; [done|]. unfold intact. simpl in *. lia.
Qed.

Lemma with_slots_same (v : Vector T) : with_slots v (slots v) = v.
Proof. by destruct v as [[??] ?]. Qed.

Lemma servable_eq (j k : nat) : servable k → j = k → servable j.
Proof. by intros Hk ->. Qed.

(** ** Allocation *)

Lemma RawMemory_new_any `{!Lawful T} (n : nat) (w : World T) r w1 :
  RawMemory_new n w = (r, w1) →
  (∃ m, r = Returned (mkRawMemory (replicate m None) n)
        ∧ m = alloc_bytes n / sizeof ∧ m ≤ n ∧ servable m
        ∧ (fits_size_t n → m = n)
        ∧ (n ≠ 0 → throws (log w) (EvAlloc n) = false)
        ∧ w1 = if decide (n = 0) then w else after [EvAlloc n] w)
  ∨ (r = Thrown ∧ n ≠ 0 ∧ throws (log w) (EvAlloc n) = true
     ∧ w1 = after [EvAlloc n] w).
Proof.
  unfold RawMemory_new, Allocate, attempt. case_decide as Hn.
  - intros [= <- <-]. left. subst n. exists 0.
    rewrite alloc_slots_zero. repeat split; try done; apply servable_zero.
  - destruct (throws (log w) (EvAlloc n)) eqn:Ht; simpl; intros [= <- <-].
    + right. done.
    + left. eexists. split; [done|]. split; [done|].
      split; [apply alloc_slots_le|]. split; [|split; [|done]].
      * apply alloc_slots_servable.
        destruct (decide (N.of_nat (alloc_bytes n) ≤ max_alloc)%N) as [|Hgt];
          [done|].
        rewrite alloc_limit in Ht by lia. done.
      * apply alloc_slots_fits.
Qed.

Lemma RawMemory_new_spec `{!Lawful T} (n : nat) (w : World T) r w1 :
  fits_size_t n → RawMemory_new n w = (r, w1) →
  (r = Returned (mkRawMemory (replicate n None) n)
   ∧ servable n
   ∧ w1 = if decide (n = 0) then w else after [EvAlloc n] w)
  ∨ (r = Thrown ∧ n ≠ 0 ∧ throws (log w) (EvAlloc n) = true
     ∧ w1 = after [EvAlloc n] w).
Proof.
  intros Hfit Hnew.
  apply RawMemory_new_any in Hnew
    as [(m & -> & _ & _ & Hm & Hmn & _ & ->)|?]; [|by right].
  rewrite (Hmn Hfit) in *. by left.
Qed.

(** The loop lemmas, for blocks given up to equality. *)
Lemma destroy_n_at (b pre post : block) (xs : list T) first n (w : World T) :
  b = pre ++ (Some <$> xs) ++ post → first = length pre → n = length xs →
  destroy_n b first n w
  = (Returned tt, pre ++ replicate (length xs) None ++ post,
     after (EvDtor <$> xs) w).
Proof. intros -> -> ->. apply destroy_n_spec. Qed.

Lemma uninitialized_loop_over (by_move : bool)
    (src dst sp ss dp hole ds : block)
    (xs : list T) first n result (w : World T) r src' dst' w' :
  src = sp ++ (Some <$> xs) ++ ss → first = length sp → n = length xs →
  dst = dp ++ hole ++ ds → result = length dp → length hole = length xs →
  uninitialized_loop by_move src first n dst result result w
    = (r, src', dst', w') →
  (r = Returned tt
   ∧ src' = sp ++ (Some <$> (residue by_move <$> xs)) ++ ss
   ∧ dst' = dp ++ (Some <$> xs) ++ ds
   ∧ w' = lose (live hole) (after (relocation_ctor by_move <$> xs) w))
  ∨ (r = Thrown ∧ ∃ xs1 x xs2,
       xs = xs1 ++ x :: xs2
       ∧ throws (log w ++ (relocation_ctor by_move <$> xs1))
           (relocation_ctor by_move x) = true
       ∧ src' = sp ++ (Some <$> (residue by_move <$> xs1))
                  ++ (Some <$> (x :: xs2)) ++ ss
       ∧ dst' = dp ++ replicate (length xs1) None
                  ++ drop (length xs1) hole ++ ds
       ∧ w' = lose (live (take (length xs1) hole))
                (after ((relocation_ctor by_move <$> xs1)
                        ++ [relocation_ctor by_move x]
                        ++ (EvDtor <$> xs1)) w)).
Proof.
  intros -> -> -> -> -> Hlen Hloop.
  pose proof (uninitialized_loop_spec by_move xs sp ss dp ds hole [] w
                r src' dst' w' Hlen) as Hspec.
  csimpl in Hspec. rewrite Nat.add_0_r in Hspec. by apply Hspec.
Qed.

(** Into slots that hold no object, nothing is lost. *)
Lemma uninitialized_loop_at (by_move : bool) (src dst sp ss dp hole ds : block)
    (xs : list T) first n result (w : World T) r src' dst' w' :
  src = sp ++ (Some <$> xs) ++ ss → first = length sp → n = length xs →
  dst = dp ++ hole ++ ds → result = length dp → length hole = length xs →
  Forall (.= None) hole →
  uninitialized_loop by_move src first n dst result result w
    = (r, src', dst', w') →
  (r = Returned tt
   ∧ src' = sp ++ (Some <$> (residue by_move <$> xs)) ++ ss
   ∧ dst' = dp ++ (Some <$> xs) ++ ds
   ∧ w' = after (relocation_ctor by_move <$> xs) w)
  ∨ (r = Thrown ∧ ∃ xs1 x xs2,
       xs = xs1 ++ x :: xs2
       ∧ throws (log w ++ (relocation_ctor by_move <$> xs1))
           (relocation_ctor by_move x) = true
       ∧ src' = sp ++ (Some <$> (residue by_move <$> xs1))
                  ++ (Some <$> (x :: xs2)) ++ ss
       ∧ dst' = dp ++ replicate (length xs1) None
                  ++ drop (length xs1) hole ++ ds
       ∧ w' = after ((relocation_ctor by_move <$> xs1)
                     ++ [relocation_ctor by_move x]
                     ++ (EvDtor <$> xs1)) w).
Proof.
  intros Hsrc Hfirst Hn Hdst Hres Hlen Hclean Hloop.
  eapply uninitialized_loop_over in Hloop; [|done..].
  rewrite (live_None hole Hclean), lose_nil in Hloop.
  destruct Hloop as [?|(-> & xs1 & x & xs2 & -> & Hx & -> & -> & ->)];
    [by left|].
  right. split; [done|]. exists xs1, x, xs2.
  rewrite (live_None (take _ hole)), lose_nil by by apply Forall_take.
  done.
Qed.

(** The destination block ends after [length xs1] more slots. *)
Lemma uninitialized_loop_short_at (by_move : bool)
    (src dst sp ss dp hole : block) (xs1 : list T) (x : T) (xs2 : list T)
    first n result (w : World T) r src' dst' w' :
  src = sp ++ (Some <$> (xs1 ++ x :: xs2)) ++ ss → first = length sp →
  n = length (xs1 ++ x :: xs2) →
  dst = dp ++ hole → result = length dp → length hole = length xs1 →
  uninitialized_loop by_move src first n dst result result w
    = (r, src', dst', w') →
  (r = Undefined
   ∧ src' = sp ++ (Some <$> (residue by_move <$> xs1))
              ++ (Some <$> (x :: xs2)) ++ ss
   ∧ dst' = dp ++ replicate (length xs1) None
   ∧ w' = lose (live hole)
            (after ((relocation_ctor by_move <$> xs1) ++ (EvDtor <$> xs1)) w))
  ∨ (r = Thrown ∧ ∃ l1 y l2,
       xs1 = l1 ++ y :: l2
       ∧ throws (log w ++ (relocation_ctor by_move <$> l1))
           (relocation_ctor by_move y) = true
       ∧ src' = sp ++ (Some <$> (residue by_move <$> l1))
                  ++ (Some <$> (y :: l2 ++ x :: xs2)) ++ ss
       ∧ dst' = dp ++ replicate (length l1) None ++ drop (length l1) hole
       ∧ w' = lose (live (take (length l1) hole))
                (after ((relocation_ctor by_move <$> l1)
                        ++ [relocation_ctor by_move y]
                        ++ (EvDtor <$> l1)) w)).
Proof.
  intros -> -> -> -> -> Hlen Hloop.
  pose proof (uninitialized_loop_short by_move xs1 sp ss dp hole [] x xs2 w
                r src' dst' w' Hlen) as Hspec.
  csimpl in Hspec. rewrite Nat.add_0_r in Hspec. by apply Hspec.
Qed.

Lemma Deallocate_none (b : block) (w : World T) :
  omap id b = [] → Deallocate b w = w.
Proof. intros Hb. unfold Deallocate. rewrite Hb, app_nil_r. by destruct w. Qed.

Lemma omap_cleaned (k n m : nat) :
  omap id (replicate k (@None T) ++ drop k (replicate n None) ++ replicate m None)
  = [].
Proof.
  rewrite !omap_app, drop_replicate, !omap_replicate_None. done.
Qed.

Lemma relocate_if (src dst : block) first n result (w : World T) :
  (if relocate_by_move
   then uninitialized_move_n src first n dst result w
   else uninitialized_copy_n src first n dst result w)
  = uninitialized_loop relocate_by_move src first n dst result result w.
Proof. by destruct relocate_by_move. Qed.

Lemma uninitialized_relocate_n_eq (src dst : block) first n result (w : World T) :
  uninitialized_relocate_n src first n dst result w
  = uninitialized_loop relocate_by_move src first n dst result result w.
Proof. unfold uninitialized_relocate_n. by destruct relocate_by_move. Qed.

Lemma Forall_None_replicate (n : nat) : Forall (.= None) (replicate n (@None T)).
Proof. by apply Forall_replicate. Qed.

Lemma Reserve_spec `{!Lawful T} (n : nat) (v : Vector T) l junk w r v' w' :
  models v l junk → Reserve n v w = (r, v', w') →
  (n ≤ Capacity v ∧ r = Returned tt ∧ v' = v ∧ w' = w)
  ∨ (Capacity v < n ∧ r = Returned tt
     ∧ ∃ m, m = alloc_bytes n / sizeof ∧ length l ≤ m ∧ m ≤ n ∧ servable m
       ∧ (fits_size_t n → m = n)
       ∧ v' = mkVector
                (mkRawMemory ((Some <$> l) ++ replicate (m - length l) None) n)
                (length l)
       ∧ w' = Deallocate (replicate (length l) None ++ junk)
                (after (EvAlloc n :: (relocation_ctor relocate_by_move <$> l)
                        ++ (EvDtor <$> (residue relocate_by_move <$> l))) w))
  ∨ (Capacity v < n ∧ r = Thrown ∧ v' = v ∧ w' = after [EvAlloc n] w
     ∧ throws (log w) (EvAlloc n) = true)
  ∨ (Capacity v < n ∧ r = Thrown ∧ ∃ l1 x l2,
       l = l1 ++ x :: l2
       ∧ throws (log w ++ EvAlloc n :: (relocation_ctor relocate_by_move <$> l1))
           (relocation_ctor relocate_by_move x) = true
       ∧ v' = with_slots v
                ((Some <$> (residue relocate_by_move <$> l1) ++ x :: l2) ++ junk)
       ∧ w' = after (EvAlloc n :: (relocation_ctor relocate_by_move <$> l1)
                     ++ [relocation_ctor relocate_by_move x]
                     ++ (EvDtor <$> l1)) w)
  ∨ (Capacity v < n ∧ r = Undefined ∧ ¬ fits_size_t n
     ∧ alloc_bytes n / sizeof < length l
     ∧ (∃ l', length l' = length l ∧ v' = with_slots v ((Some <$> l') ++ junk))
     ∧ ∃ es, w' = after (EvAlloc n :: es) w).
Proof.
  intros (Hs & Hn & Hc & Hm). unfold Reserve. case_decide as Hle.
  { intros [= <- <- <-]. by left. }
  apply Nat.nle_gt in Hle.
  destruct (RawMemory_new n w) as [r0 w1] eqn:Enew.
  apply RawMemory_new_any in Enew
    as [(m & -> & Hm1 & Hm2 & Hm3 & Hm4 & _ & ->)|(-> & Hn0 & Hthrow & ->)];
    cycle 1.
  { simpl. intros [= <- <- <-]. right. right. by left. }
  rewrite decide_False by lia. simpl.
  rewrite relocate_if, Hs, Hn.
  destruct (uninitialized_loop _ _ _ _ _ _ _ _) as [[[r1 old1] new1] w2] eqn:Eloop.
  destruct (decide (length l ≤ m)) as [Hfit|Hshort].
  - eapply (uninitialized_loop_at _ _ _ [] junk [] (replicate (length l) None)
              (replicate (m - length l) None) l) in Eloop;
      [|done|done|done| |done|by rewrite length_replicate
       |apply Forall_None_replicate]; cycle 1.
    { simpl; rewrite <- replicate_add; f_equal; lia. }
    destruct Eloop as [(-> & -> & -> & ->)
                      |(-> & l1 & x & l2 & -> & Hx & -> & -> & ->)].
    + erewrite destroy_n_at; cycle 1.
      { by rewrite <- (app_nil_l (Some <$> _)) at 1. }
      { done. } { by rewrite length_fmap. }
      intros [= <- <- <-]. right. left.
      rewrite length_fmap, after_after, after_after.
      split; [done|]. split; [done|]. exists m. by rewrite <- Hm1.
    + simpl. intros [= <- <- <-]. right. right. right. left.
      split; [done|]. split; [done|].
      exists l1, x, l2. rewrite Deallocate_none by (simpl; apply omap_cleaned).
      rewrite after_after. repeat split; try done.
      * simpl in Hx. by rewrite <- app_assoc in Hx.
      * f_equal. rewrite !fmap_app, <- !app_assoc. done.
  - apply Nat.nle_gt in Hshort.
    assert (Hl : l = take m l ++ drop m l) by by rewrite take_drop.
    destruct (drop m l) as [|x xs2] eqn:Hdrop.
    { apply (f_equal length) in Hdrop. rewrite length_drop in Hdrop.
      simpl in Hdrop. lia. }
    assert (Hlt : length (take m l) = m) by (rewrite length_take; lia).
    eapply (uninitialized_loop_short_at _ _ _ [] junk [] (replicate m None)
              (take m l) x xs2) in Eloop;
      [|by rewrite <- Hl|done|by rewrite <- Hl|done|done
       |by rewrite length_replicate].
    destruct Eloop as [(-> & -> & -> & ->)
                      |(-> & l1 & y & l2 & Hl1 & Hy & -> & -> & ->)].
    + simpl. intros [= <- <- <-]. right. right. right. right.
      split; [done|]. split; [done|].
      split; [intros Hf; specialize (Hm4 Hf); lia|].
      split; [by rewrite <- Hm1|]. split.
      * exists ((residue relocate_by_move <$> take m l) ++ x :: xs2).
        split; [|f_equal; solve_list].
        rewrite Hl at 2. rewrite !length_app, length_fmap. done.
      * rewrite live_replicate_None, lose_nil, Deallocate_none, after_after
          by (simpl; apply omap_replicate_None).
        by eexists.
    + simpl. intros [= <- <- <-]. right. right. right. left.
      split; [done|]. split; [done|].
      exists l1, y, (l2 ++ x :: xs2).
      rewrite (live_None (take _ _)), lose_nil
        by apply Forall_take, Forall_None_replicate.
      rewrite Deallocate_none; cycle 1.
      { simpl. rewrite omap_app, drop_replicate, !omap_replicate_None. done. }
      rewrite after_after. split; [|split; [|split]].
      * rewrite Hl, Hl1, <- app_assoc. done.
      * simpl in Hy. by rewrite <- app_assoc in Hy.
      * f_equal. solve_list.
      * done.
Qed.
Lemma construct_at_at (b pre post : block) (h : option T) p (e : Event T)
    (x : T) (w : World T) :
  b = pre ++ h :: post → p = length pre →
  construct_at b p e x w
  = if throws (log w) e
    then (Thrown, b, after [e] w)
    else (Returned tt, pre ++ Some x :: post, lose (live [h]) (after [e] w)).
Proof. intros -> ->. apply construct_at_middle. Qed.

Lemma construct_at_fresh (b pre post : block) p (e : Event T) (x : T)
    (w : World T) :
  b = pre ++ None :: post → p = length pre →
  construct_at b p e x w
  = if throws (log w) e
    then (Thrown, b, after [e] w)
    else (Returned tt, pre ++ Some x :: post, after [e] w).
Proof.
  intros -> ->. rewrite construct_at_middle.
  destruct (throws (log w) e); [done|]. f_equal. apply lose_nil.
Qed.

Lemma grown_capacity_models `{!Lawful T} (v : Vector T) l junk :
  models v l junk → size_ v = Capacity v →
  junk = [] ∧
  grown_capacity (size_ v) = S (length l) + (grown_capacity (size_ v) - S (length l))
  ∧ grown_capacity (size_ v) = (if decide (length l = 0) then 1 else length l * 2)
  ∧ fits_size_t (grown_capacity (size_ v)).
Proof.
  intros (Hs & Hn & Hc & Hm) Hfull.
  assert (junk = []) as -> by (apply length_zero_iff_nil; lia).
  simpl in Hm. rewrite Nat.add_0_r in Hm.
  rewrite grown_capacity_small by (rewrite Hn; by apply servable_bound).
  rewrite Hn. split; [done|]. split; [case_decide; lia|]. split; [done|].
  case_decide; [apply fits_size_t_one|by apply servable_double].
Qed.

Lemma EmplaceBack_growth_spec `{!Lawful T} (args : Args T) (v : Vector T)
    l junk w r v' w' :
  models v l junk → size_ v = Capacity v →
  EmplaceBack args v w = (r, v', w') → r ≠ Undefined →
  let c := grown_capacity (size_ v) in
  let bm := relocate_by_move in
  (r = Thrown ∧ v' = v ∧ w' = after [EvAlloc c] w
   ∧ throws (log w) (EvAlloc c) = true)
  ∨ (r = Thrown ∧ ∃ l1 y l2,
       l = l1 ++ y :: l2
       ∧ throws (log w ++ EvAlloc c :: (relocation_ctor bm <$> l1))
           (relocation_ctor bm y) = true
       ∧ v' = with_slots v (Some <$> (residue bm <$> l1) ++ y :: l2)
       ∧ w' = after (EvAlloc c :: (relocation_ctor bm <$> l1)
                     ++ [relocation_ctor bm y] ++ (EvDtor <$> l1)) w)
  ∨ (∃ e x,
       resolve args (Some <$> (residue bm <$> l)) = Some (e, x)
       ∧ ((r = Thrown
           ∧ throws (log w ++ EvAlloc c :: (relocation_ctor bm <$> l)) e = true
           ∧ v' = with_slots v (Some <$> (residue bm <$> l))
           ∧ w' = after (EvAlloc c :: (relocation_ctor bm <$> l)
                         ++ [e] ++ (EvDtor <$> l)) w)
          ∨ (r = Returned (length l)
             ∧ throws (log w ++ EvAlloc c :: (relocation_ctor bm <$> l)) e = false
             ∧ v' = mkVector
                      (mkRawMemory ((Some <$> (l ++ [x]))
                                    ++ replicate (c - S (length l)) None) c)
                      (S (length l))
             ∧ servable c
             ∧ w' = after (EvAlloc c :: (relocation_ctor bm <$> l)
                           ++ [e] ++ (EvDtor <$> (residue bm <$> l))) w))).
Proof.
  intros Hv Hfull. destruct (grown_capacity_models v l junk Hv Hfull)
    as (-> & Hc1 & Hc2 & Hfit).
  destruct Hv as (Hs & Hn & Hc & Hm). rewrite app_nil_r in Hs.
  unfold EmplaceBack. rewrite decide_True by done.
  set (c := grown_capacity (size_ v)) in *. simpl.
  destruct (RawMemory_new c w) as [r0 w1] eqn:Enew.
  apply (RawMemory_new_spec _ _ _ _ Hfit) in Enew
    as [(-> & Hmax & ->)|(-> & Hn0 & Hthrow & ->)]; cycle 1.
  { simpl. intros [= <- <- <-] _. by left. }
  rewrite decide_False by lia. simpl.
  rewrite relocate_if, Hs, Hn.
  destruct (uninitialized_loop _ _ _ _ _ _ _ _) as [[[r1 old1] new1] w2] eqn:Eloop.
  eapply (uninitialized_loop_at _ _ _ [] [] [] (replicate (length l) None)
            (replicate (c - length l) None) l) in Eloop;
    [|by rewrite app_nil_r|done|done| |done|by rewrite length_replicate
     |apply Forall_None_replicate]; cycle 1.
  { simpl; rewrite <- replicate_add; f_equal; lia. }
  destruct Eloop as [(-> & -> & -> & ->)
                    |(-> & l1 & y & l2 & -> & Hy & -> & -> & ->)]; cycle 1.
  { simpl. intros [= <- <- <-] _. right. left. split; [done|].
    exists l1, y, l2. rewrite Deallocate_none by (simpl; apply omap_cleaned).
    rewrite after_after, !app_nil_r. repeat split; try done.
    - simpl in Hy. by rewrite <- app_assoc in Hy.
    - f_equal. by rewrite !fmap_app. }
  simpl. rewrite app_nil_r.
  destruct (resolve args _) as [[e x]|] eqn:Eres; cycle 1.
  { intros [= <- <- <-] Hr. done. }
  replace (c - length l) with (S (c - S (length l))) by lia. simpl.
  erewrite construct_at_fresh; [|done|by rewrite length_fmap].
  rewrite after_after. simpl.
  destruct (throws (log w ++ EvAlloc c :: _) e) eqn:He.
  - erewrite (destroy_n_at _ [] _ l); [|reflexivity|done|done].
    rewrite after_after.
    rewrite Deallocate_none; cycle 1.
    { simpl. rewrite omap_app. change (None :: ?b) with (replicate 1 (@None T) ++ b).
      rewrite !omap_app, !omap_replicate_None. done. }
    intros [= <- <- <-] _. right. right. exists e, x. split; [done|]. left.
    repeat split; try done. solve_list.
  - erewrite (destroy_n_at _ [] [] (residue relocate_by_move <$> l));
      [|by rewrite app_nil_r|done|by rewrite length_fmap].
    rewrite after_after, Deallocate_none; cycle 1.
    { simpl. by rewrite app_nil_r, omap_replicate_None. }
    intros [= <- <- <-] _. right. right. exists e, x. split; [done|]. right.
    repeat split; try done; solve_list.
Qed.

Lemma EmplaceBack_inplace_spec (args : Args T) (v : Vector T) l junk w r v' w' :
  models v l junk → size_ v ≠ Capacity v →
  EmplaceBack args v w = (r, v', w') → r ≠ Undefined →
  ∃ e x h junk',
    resolve args (slots v) = Some (e, x) ∧ junk = h :: junk'
    ∧ log w' = log w ++ [e]
    ∧ ((r = Thrown ∧ throws (log w) e = true ∧ v' = v ∧ w' = after [e] w)
       ∨ (r = Returned (length l) ∧ throws (log w) e = false
          ∧ v' = mkVector (with_block (data_ v) ((Some <$> (l ++ [x])) ++ junk'))
                   (S (length l))
          ∧ w' = lose (live [h]) (after [e] w))).
Proof.
  intros (Hs & Hn & Hc & Hm) Hfull.
  unfold EmplaceBack. rewrite decide_False by done.
  destruct (resolve args _) as [[e x]|] eqn:Eres; cycle 1.
  { intros [= <- <- <-] Hr. done. }
  destruct junk as [|h junk'].
  { rewrite construct_at_end
      by (rewrite Hs, length_app, length_fmap; simpl; lia).
    intros [= <- <- <-] Hr. done. }
  erewrite construct_at_at; [|exact Hs|by rewrite length_fmap].
  destruct (throws (log w) e) eqn:He; intros [= <- <- <-] _;
    exists e, x, h, junk'; (split; [done|]); (split; [done|]); (split; [done|]).
  - left. by rewrite with_slots_same.
  - right. rewrite Hn. repeat split; try done.
    do 2 f_equal. solve_list.
Qed.

Lemma EmplaceWithRealloc_spec `{!Lawful T} (index : nat) (args : Args T)
    (v : Vector T) la lb w r v' w' :
  models v (la ++ lb) [] → index = length la → size_ v = Capacity v →
  EmplaceWithRealloc index args v w = (r, v', w') → r ≠ Undefined →
  let c := grown_capacity (size_ v) in
  let bm := relocate_by_move in
  (r = Thrown ∧ v' = v ∧ w' = after [EvAlloc c] w
   ∧ throws (log w) (EvAlloc c) = true)
  ∨ (r = Thrown ∧ ∃ l1 y l2,
       la = l1 ++ y :: l2
       ∧ throws (log w ++ EvAlloc c :: (relocation_ctor bm <$> l1))
           (relocation_ctor bm y) = true
       ∧ v' = with_slots v (Some <$> (residue bm <$> l1) ++ y :: l2 ++ lb)
       ∧ w' = after (EvAlloc c :: (relocation_ctor bm <$> l1)
                     ++ [relocation_ctor bm y] ++ (EvDtor <$> l1)) w)
  ∨ (∃ e x,
       resolve args (Some <$> (residue bm <$> la) ++ lb) = Some (e, x)
       ∧ ((r = Thrown
           ∧ throws (log w ++ EvAlloc c :: (relocation_ctor bm <$> la)) e = true
           ∧ v' = with_slots v (Some <$> (residue bm <$> la) ++ lb)
           ∧ w' = mkWorld
                    (log w ++ EvAlloc c :: (relocation_ctor bm <$> la) ++ [e])
                    (leaked w ++ la))
          ∨ (r = Thrown ∧ ∃ l1 y l2,
               lb = l1 ++ y :: l2
               ∧ throws (log w ++ EvAlloc c :: (relocation_ctor bm <$> la)
                           ++ [e] ++ (relocation_ctor bm <$> l1))
                   (relocation_ctor bm y) = true
               ∧ v' = with_slots v
                        (Some <$> (residue bm <$> la)
                                  ++ (residue bm <$> l1) ++ y :: l2)
               ∧ w' = mkWorld
                        (log w ++ EvAlloc c :: (relocation_ctor bm <$> la)
                           ++ [e] ++ (relocation_ctor bm <$> l1)
                           ++ [relocation_ctor bm y] ++ (EvDtor <$> l1))
                        (leaked w ++ la ++ [x]))
          ∨ (r = Returned index
             ∧ v' = mkVector
                      (mkRawMemory ((Some <$> (la ++ x :: lb))
                                    ++ replicate (c - S (length (la ++ lb))) None) c)
                      (S (length (la ++ lb)))
             ∧ servable c
             ∧ w' = after (EvAlloc c :: (relocation_ctor bm <$> la)
                           ++ [e] ++ (relocation_ctor bm <$> lb)
                           ++ (EvDtor <$> (residue bm <$> la ++ lb))) w))).
Proof.
  intros Hv -> Hfull.
  destruct (grown_capacity_models v _ _ Hv Hfull) as (_ & Hc1 & Hc2 & Hfit).
  destruct Hv as (Hs & Hn & Hc & Hm). rewrite app_nil_r in Hs.
  unfold EmplaceWithRealloc.
  set (c := grown_capacity (size_ v)) in *. simpl.
  destruct (RawMemory_new c w) as [r0 w1] eqn:Enew.
  apply (RawMemory_new_spec _ _ _ _ Hfit) in Enew
    as [(-> & Hmax & ->)|(-> & Hn0 & Hthrow & ->)]; cycle 1.
  { simpl. intros [= <- <- <-] _. by left. }
  rewrite decide_False by lia. simpl.
  rewrite !uninitialized_relocate_n_eq, Hs, Hn.
  rewrite length_app in *.
  destruct (uninitialized_loop _ _ _ _ _ _ _ _) as [[[r1 old1] new1] w2] eqn:Eloop.
  eapply (uninitialized_loop_at _ _ _ [] (Some <$> lb) []
            (replicate (length la) None)
            (replicate (c - length la) None) la) in Eloop;
    [|by rewrite fmap_app|done|done| |done|by rewrite length_replicate
     |apply Forall_None_replicate]; cycle 1.
  { simpl; rewrite <- replicate_add; f_equal; lia. }
  destruct Eloop as [(-> & -> & -> & ->)
                    |(-> & l1 & y & l2 & -> & Hy & -> & -> & ->)]; cycle 1.
  { simpl. intros [= <- <- <-] _. right. left. split; [done|].
    exists l1, y, l2. rewrite Deallocate_none by (simpl; apply omap_cleaned).
    rewrite after_after. repeat split; try done.
    - simpl in Hy. by rewrite <- app_assoc in Hy.
    - f_equal. solve_list. }
  simpl. rewrite <- fmap_app.
  destruct (resolve args _) as [[e x]|] eqn:Eres; cycle 1.
  { intros [= <- <- <-] Hr. done. }
  replace (c - length la) with (S (length lb + (c - S (length la + length lb))))
    by lia.
  simpl.
  erewrite construct_at_fresh; [|done|by rewrite length_fmap].
  rewrite after_after. simpl.
  destruct (throws (log w ++ EvAlloc c :: _) e) eqn:He.
  { intros [= <- <- <-] _. right. right. exists e, x. split; [done|]. left.
    repeat split; try done. unfold Deallocate, after. simpl.
    f_equal; [solve_list|]. f_equal.
    rewrite omap_app, omap_fmap_Some. csimpl.
    by rewrite omap_replicate_None, app_nil_r. }
  rewrite uninitialized_relocate_n_eq, Nat.add_sub'.
  destruct (uninitialized_loop _ _ _ _ _ _ _ _) as [[[r2 old2] new3] w4] eqn:Eloop.
  eapply (uninitialized_loop_at _ _ _ (Some <$> (residue relocate_by_move <$> la))
            [] ((Some <$> la) ++ [Some x])
            (replicate (length lb) None)
            (replicate (c - S (length la + length lb)) None) lb) in Eloop;
    [|by rewrite fmap_app, app_nil_r|by rewrite !length_fmap|done|
     |by rewrite length_app, length_fmap, Nat.add_1_r
     |by rewrite length_replicate
     |apply Forall_None_replicate]; cycle 1.
  { by rewrite <- app_assoc, replicate_add. }
  destruct Eloop as [(-> & -> & -> & ->)
                    |(-> & l1 & y & l2 & -> & Hy & -> & -> & ->)]; cycle 1.
  { simpl. intros [= <- <- <-] _. right. right. exists e, x. split; [done|].
    right. left. split; [done|]. exists l1, y, l2.
    rewrite after_after. repeat split; try done.
    - simpl in Hy. rewrite <- !app_assoc in Hy. simpl in Hy.
      by rewrite <- ?app_assoc in Hy.
    - f_equal. solve_list.
    - unfold Deallocate, after. simpl. f_equal; [solve_list|]. f_equal.
      rewrite drop_replicate, <- !app_assoc, !omap_app. csimpl.
      by rewrite omap_fmap_Some, !omap_replicate_None. }
  erewrite (destroy_n_at _ [] [] (residue relocate_by_move <$> la ++ lb));
    [|by rewrite !fmap_app, !app_nil_r|done|by rewrite length_fmap, length_app].
  rewrite after_after, Deallocate_none; cycle 1.
  { simpl. by rewrite app_nil_r, omap_replicate_None. }
  intros [= <- <- <-] _. right. right. exists e, x. split; [done|].
  right. right. rewrite after_after. repeat split; try done; solve_list.
Qed.

Lemma move_construct_at_spec (b pre post : block) (y : T) (h : option T)
    p s (w : World T) :
  b = pre ++ Some y :: h :: post → s = length pre → p = S (length pre) →
  move_construct_at b p s w
  = if throws (log w) (EvMoveCtor y)
    then (Thrown, b, after [EvMoveCtor y] w)
    else (Returned tt, pre ++ Some (moved_from y) :: Some y :: post,
          lose (live [h]) (after [EvMoveCtor y] w)).
Proof.
  intros -> -> ->. unfold move_construct_at. rewrite middle_lookup.
  erewrite (construct_at_at _ (pre ++ [Some y]) post h);
    [|by rewrite <- app_assoc|by rewrite length_app, Nat.add_1_r].
  destruct (throws (log w) (EvMoveCtor y)); [done|].
  rewrite <- app_assoc. simpl. by rewrite middle_insert.
Qed.

Lemma move_assign_from_spec (b pre post : block) (x y : T) p (w : World T) :
  b = pre ++ Some y :: post → p = length pre →
  move_assign_from b p x w
  = if throws (log w) (EvMoveAssign y x)
    then (Thrown, b, after [EvMoveAssign y x] w)
    else (Returned tt, pre ++ Some x :: post, after [EvMoveAssign y x] w).
Proof.
  intros -> ->. unfold move_assign_from, attempt. rewrite middle_lookup.
  destruct (throws (log w) (EvMoveAssign y x)); simpl; [done|].
  by rewrite middle_insert.
Qed.

Lemma shift_right_at (b pre post : block) (m : list T) (t : T) index i
    (w : World T) r b' w' :
  b = pre ++ (Some <$> m) ++ Some t :: post → index = length pre →
  i = length pre + length m →
  shift_right b index i w = (r, b', w') →
  (r = Returned tt
   ∧ b' = pre ++ Some (shift_last t (rev m)) :: (Some <$> m) ++ post
   ∧ w' = after (shift_events t (rev m)) w)
  ∨ (r = Thrown
     ∧ (∃ zs, length zs = S (length m) ∧ b' = pre ++ (Some <$> zs) ++ post)
     ∧ (∃ es, w' = after es w)
     ∧ ∃ h d s, throws h (EvMoveAssign d s) = true).
Proof. intros -> -> ->. apply shift_right_spec. Qed.

Lemma move_construct_at_end (b : block) (p s : nat) (w : World T) :
  length b ≤ p → move_construct_at b p s w = (Undefined, b, w).
Proof.
  intros Hp. unfold move_construct_at.
  destruct (b !! s) as [[y|]|]; [|done..].
  by rewrite construct_at_end.
Qed.

Lemma EmplaceWithoutRealloc_spec (index : nat) (args : Args T) (v : Vector T)
    la lb junk w r v' w' :
  models v (la ++ lb) junk → index = length la → size_ v ≠ Capacity v →
  EmplaceWithoutRealloc index args v w = (r, v', w') → r ≠ Undefined →
  ∃ e x,
    resolve args (slots v) = Some (e, x)
    ∧ ((r = Thrown ∧ throws (log w) e = true ∧ v' = v ∧ w' = after [e] w)
       ∨ ∃ h junk',
           junk = h :: junk' ∧ throws (log w) e = false
           ∧ ((r = Returned index
               ∧ v' = mkVector
                        (with_block (data_ v)
                           ((Some <$> (la ++ x :: lb)) ++ junk'))
                        (S (length (la ++ lb)))
               ∧ leaked w' = leaked w ++ live [h])
              ∨ (r = Thrown ∧ v' = v ∧ leaked w' = leaked w)
              ∨ (r = Thrown ∧ ∃ zs z,
                   length zs = length lb
                   ∧ v' = with_slots v
                            ((Some <$> (la ++ zs)) ++ Some z :: junk')
                   ∧ leaked w' = leaked w ++ live [h]
                   ∧ ∃ h d s, throws h (EvMoveAssign d s) = true))).
Proof.
  intros (Hs & Hn & Hc & Hm) -> Hfull. rewrite length_app in *.
  unfold EmplaceWithoutRealloc.
  destruct (resolve args _) as [[e x]|] eqn:Eres; cycle 1.
  { intros [= <- <- <-] Hr. done. }
  unfold attempt. simpl.
  destruct (throws (log w) e) eqn:He; simpl.
  { intros [= <- <- <-] _. exists e, x. split; [done|]. by left. }
  destruct junk as [|h junk'].
  { rewrite app_nil_r in Hs. case_decide.
    - rewrite move_construct_at_end
        by (rewrite Hs, length_fmap, length_app; lia).
      intros [= <- <- <-] Hr. done.
    - rewrite construct_at_end
        by (rewrite Hs, length_fmap, length_app; lia).
      intros [= <- <- <-] Hr. done. }
  destruct lb as [|z m _] using rev_ind.
  - rewrite decide_False by (rewrite Hn; simpl; lia).
    rewrite app_nil_r in *.
    erewrite construct_at_at; [|exact Hs|by rewrite length_fmap].
    simpl. destruct (throws _ (EvMoveCtor x)) eqn:Hx;
      intros [= <- <- <-] _; exists e, x; (split; [done|]); right;
      exists h, junk'; do 2 (split; [done|]).
    + right. left. by rewrite with_slots_same.
    + left. split; [done|]. rewrite Hn. split; [|done].
      f_equal; try (simpl; lia). f_equal. solve_list.
  - rewrite length_app in *. simpl in *.
    rewrite decide_True by lia.
    erewrite (move_construct_at_spec _ ((Some <$> la) ++ (Some <$> m)) junk' z h);
      [|rewrite Hs; solve_list|rewrite Hn, length_app, !length_fmap; lia
       |rewrite Hn, length_app, !length_fmap; lia].
    simpl. destruct (throws _ (EvMoveCtor z)) eqn:Hz.
    { intros [= <- <- <-] _. exists e, x. split; [done|]. right.
      exists h, junk'. do 2 (split; [done|]).
      right. left. by rewrite with_slots_same. }
    destruct (shift_right _ _ _ _) as [[r1 b2] w3] eqn:Eshift.
    eapply (shift_right_at _ (Some <$> la) (Some z :: junk') m (moved_from z))
      in Eshift;
      [|solve_list|by rewrite length_fmap|rewrite Hn, length_fmap; lia].
    destruct Eshift
      as [(-> & -> & ->)|(-> & (zs & Hzs & ->) & (es & ->) & Hthrow)]; cycle 1.
    { intros [= <- <- <-] _. exists e, x. split; [done|]. right.
      exists h, junk'. do 2 (split; [done|]).
      right. right. split; [done|]. exists zs, z.
      split; [lia|]. split; [|done]. f_equal. solve_list. }
    erewrite move_assign_from_spec; [|done|by rewrite length_fmap].
    destruct (throws _ (EvMoveAssign _ x)) eqn:Hx;
      intros [= <- <- <-] _; exists e, x; (split; [done|]); right;
      exists h, junk'; do 2 (split; [done|]).
    + right. right. split; [done|].
      exists (shift_last (moved_from z) (rev m) :: m), z.
      simpl. split; [lia|]. split; [|split; [done|by eauto]].
      f_equal. solve_list.
    + left. split; [done|]. rewrite Hn. split; [|done].
      f_equal; try (simpl; lia). f_equal. solve_list.
Qed.

Lemma move_range_at (b pre post : block) (xs : list T) (y : T) first n d
    (w : World T) r b' w' :
  b = pre ++ Some y :: (Some <$> xs) ++ post → first = S (length pre) →
  n = length xs → d = length pre →
  move_range b first n d w = (r, b', w') →
  (r = Returned tt
   ∧ b' = pre ++ (Some <$> xs) ++ Some (shift_last y xs) :: post
   ∧ w' = after (shift_events y xs) w)
  ∨ (r = Thrown
     ∧ (∃ zs, length zs = S (length xs) ∧ b' = pre ++ (Some <$> zs) ++ post)
     ∧ (∃ es, w' = after es w)
     ∧ ∃ h d s, throws h (EvMoveAssign d s) = true).
Proof. intros -> -> -> ->. apply move_range_spec. Qed.

Lemma destroy_at_at (b pre post : block) (x : T) p (w : World T) :
  b = pre ++ Some x :: post → p = length pre →
  destroy_at b p w = (Returned tt, pre ++ None :: post, after [EvDtor x] w).
Proof.
  intros -> ->. unfold destroy_at. by rewrite middle_lookup, middle_insert.
Qed.

Lemma Erase_spec (pos : nat) (v : Vector T) la y lb junk w r v' w' :
  models v (la ++ y :: lb) junk → pos = length la →
  Erase pos v w = (r, v', w') →
  (r = Returned pos
   ∧ v' = mkVector (with_block (data_ v) ((Some <$> (la ++ lb)) ++ None :: junk))
            (length (la ++ lb))
   ∧ w' = after (shift_events y lb ++ [EvDtor (shift_last y lb)]) w)
  ∨ (r = Thrown
     ∧ (∃ zs, length zs = S (length lb)
              ∧ v' = with_slots v ((Some <$> (la ++ zs)) ++ junk))
     ∧ leaked w' = leaked w
     ∧ ∃ h d s, throws h (EvMoveAssign d s) = true).
Proof.
  intros (Hs & Hn & Hc & Hm) ->. rewrite length_app in Hn. simpl in Hn.
  unfold Erase. rewrite decide_True by lia.
  destruct (move_range _ _ _ _ _) as [[r1 b1] w1] eqn:Emove.
  eapply (move_range_at _ (Some <$> la) junk lb y) in Emove;
    [|rewrite Hs; solve_list|by rewrite length_fmap|lia|by rewrite length_fmap].
  destruct Emove as [(-> & -> & ->)|(-> & (zs & Hzs & ->) & (es & ->) & Hthrow)].
  - erewrite (destroy_at_at _ ((Some <$> la) ++ (Some <$> lb)) junk);
      [|solve_list|rewrite Hn, length_app, !length_fmap; lia].
    intros [= <- <- <-]. left. rewrite after_after. split; [done|].
    split; [|done]. f_equal; [|rewrite Hn, length_app; lia].
    f_equal. solve_list.
  - intros [= <- <- <-]. right. split; [done|]. split; [|done].
    exists zs. split; [done|]. f_equal. solve_list.
Qed.

Lemma PopBack_spec (v : Vector T) l x junk w :
  models v (l ++ [x]) junk →
  PopBack v w
  = (Returned tt,
     mkVector (with_block (data_ v) ((Some <$> l) ++ None :: junk)) (length l),
     after [EvDtor x] w).
Proof.
  intros (Hs & Hn & Hc & Hm). rewrite length_app, Nat.add_1_r in Hn.
  unfold PopBack. rewrite Hn.
  erewrite (destroy_at_at _ (Some <$> l) junk x);
    [done|rewrite Hs; solve_list|by rewrite length_fmap].
Qed.

Lemma Vector_destroy_spec (v : Vector T) l junk w :
  models v l junk →
  Vector_destroy v w
  = (Returned tt,
     Deallocate (replicate (length l) None ++ junk) (after (EvDtor <$> l) w)).
Proof.
  intros (Hs & Hn & Hc & Hm). unfold Vector_destroy.
  erewrite (destroy_n_at _ [] junk l); [done|by rewrite Hs|done|done].
Qed.

Lemma RawMemory_new_events `{!Lawful T} (n : nat) (w : World T) r w1 :
  fits_size_t n → RawMemory_new n w = (r, w1) →
  w1 = after (alloc_events n) w
  ∧ ((r = Returned (mkRawMemory (replicate n None) n) ∧ servable n)
     ∨ (r = Thrown ∧ n ≠ 0 ∧ throws (log w) (EvAlloc n) = true)).
Proof.
  intros Hfit Hnew. unfold alloc_events.
  apply (RawMemory_new_spec _ _ _ _ Hfit) in Hnew
    as [(-> & Hmax & ->)|(-> & Hn0 & Ht & ->)].
  - split; [|by left]. case_decide; [by rewrite after_nil|done].
  - rewrite decide_False by done. split; [done|by right].
Qed.

Lemma Vector_copy_spec `{!Lawful T} (other : Vector T) l junk w r w' :
  models other l junk → Vector_copy other w = (r, w') →
  (r = Returned (mkVector (mkRawMemory (Some <$> l) (length l)) (length l))
   ∧ w' = after (alloc_events (length l) ++ (EvCopyCtor <$> l)) w)
  ∨ (r = Thrown ∧ leaked w' = leaked w
     ∧ (∃ h e, throws h e = true
               ∧ (e = EvAlloc (length l) ∨ ∃ x, e = EvCopyCtor x))
     ∧ quiet (log w) (alloc_events (length l) ++ (EvCopyCtor <$> l)) = false).
Proof.
  intros (Hs & Hn & Hc & Hm). unfold Vector_copy. rewrite Hn, Hs.
  assert (Hfit : fits_size_t (length l)).
  { apply servable_fits. eapply servable_le; [|exact Hm]. lia. }
  destruct (RawMemory_new _ w) as [r0 w1] eqn:Enew.
  apply (RawMemory_new_events _ _ _ _ Hfit) in Enew
    as [-> [(-> & Hmax)|(-> & Hn0 & Ht)]]; cycle 1.
  { simpl. intros [= <- <-]. right. split; [done|]. split; [done|]. split.
    - exists (log w), (EvAlloc (length l)). by eauto.
    - unfold alloc_events. rewrite decide_False by done.
      by apply quiet_first. }
  simpl. unfold uninitialized_copy_n.
  destruct (uninitialized_loop _ _ _ _ _ _ _ _) as [[[r1 old1] new1] w2] eqn:Eloop.
  eapply (uninitialized_loop_at _ _ _ [] junk [] (replicate (length l) None)
            [] l) in Eloop;
    [|done|done|done|by rewrite app_nil_r|done|by rewrite length_replicate
     |apply Forall_None_replicate].
  destruct Eloop as [(-> & -> & -> & ->)
                    |(-> & l1 & x & l2 & -> & Hx & -> & -> & ->)].
  - intros [= <- <-]. left. rewrite after_after. split; [|done].
    do 2 f_equal. unfold with_block. simpl. f_equal. solve_list.
  - intros [= <- <-]. right. split; [done|].
    rewrite Deallocate_none; cycle 1.
    { simpl. rewrite <- (app_nil_r (drop _ _)) at 1.
      change (@nil (option T)) with (replicate 0 (@None T)).
      rewrite <- app_assoc. apply omap_cleaned. }
    split; [done|]. split.
    + eexists _, _. split; [exact Hx|]. right. by eauto.
    + simpl in Hx. rewrite <- app_assoc in Hx.
      rewrite fmap_app, app_assoc. csimpl. by apply quiet_throws.
Qed.

Lemma copy_n_at (src dst sp ss dp ds : block) (xs ys : list T) first n result
    (w : World T) r b' w' :
  src = sp ++ (Some <$> xs) ++ ss → first = length sp → n = length xs →
  dst = dp ++ (Some <$> ys) ++ ds → result = length dp →
  length ys = length xs →
  copy_n src first n dst result w = (r, b', w') →
  (r = Returned tt
   ∧ b' = dp ++ (Some <$> xs) ++ ds
   ∧ w' = after (zip_with EvCopyAssign ys xs) w)
  ∨ (r = Thrown ∧ ∃ xs1 x xs2 ys1 y ys2,
       xs = xs1 ++ x :: xs2 ∧ ys = ys1 ++ y :: ys2
       ∧ length ys1 = length xs1
       ∧ throws (log w ++ zip_with EvCopyAssign ys1 xs1) (EvCopyAssign y x) = true
       ∧ b' = dp ++ (Some <$> (xs1 ++ y :: ys2)) ++ ds
       ∧ w' = after (zip_with EvCopyAssign ys1 xs1 ++ [EvCopyAssign y x]) w).
Proof. intros -> -> -> -> -> Hlen. by apply copy_n_spec. Qed.

Lemma split_at (k : nat) (l : list T) (junk : block) :
  (Some <$> l) ++ junk = (Some <$> take k l) ++ (Some <$> drop k l) ++ junk.
Proof. by rewrite app_assoc, <- fmap_app, take_drop. Qed.

Lemma Forall_None_cleaned (junk : block) (j k : nat) :
  Forall (.= None) junk →
  Forall (.= None) (replicate j None ++ drop j (take k junk) ++ drop k junk).
Proof.
  intros Hj. rewrite !Forall_app. split; [|split].
  - by apply Forall_replicate.
  - by apply Forall_drop, Forall_take.
  - by apply Forall_drop.
Qed.

Lemma Vector_copy_assign_spec `{!Lawful T} (rhs v : Vector T) l junk lr junkr
    w r v' w' :
  models v l junk → models rhs lr junkr →
  Vector_copy_assign (Other rhs) v w = (r, v', w') →
  (Capacity v < length lr
   ∧ ((r = Returned tt
       ∧ v' = mkVector (mkRawMemory (Some <$> lr) (length lr)) (length lr)
       ∧ w' = Deallocate (replicate (length l) None ++ junk)
                (after (alloc_events (length lr) ++ (EvCopyCtor <$> lr)
                        ++ (EvDtor <$> l)) w))
      ∨ (r = Thrown ∧ v' = v ∧ leaked w' = leaked w
         ∧ quiet (log w) (alloc_events (length lr) ++ (EvCopyCtor <$> lr))
           = false)))
  ∨ (length lr ≤ Capacity v
     ∧ ((r = Returned tt ∧ length lr ≤ length l + length junk
         ∧ v' = mkVector
                  (with_block (data_ v)
                     ((Some <$> lr) ++ replicate (length l - length lr) None
                      ++ drop (length lr - length l) junk))
                  (length lr)
         ∧ w' = lose (live (take (length lr - length l) junk))
                  (after (zip_with EvCopyAssign l lr
                          ++ (EvCopyCtor <$> drop (length l) lr)
                          ++ (EvDtor <$> drop (length lr) l)) w))
        ∨ (r = Thrown
           ∧ (∃ l' junk', v' = with_slots v ((Some <$> l') ++ junk')
                ∧ length l' = length l ∧ length junk' = length junk
                ∧ (Forall (.= None) junk → Forall (.= None) junk')
                ∧ ∃ j, j ≤ length l `min` length lr
                       ∧ l' = take j lr ++ drop j l)
           ∧ (∃ j, leaked w' = leaked w ++ live (take j junk))
           ∧ quiet (log w) (zip_with EvCopyAssign l lr
                            ++ (EvCopyCtor <$> drop (length l) lr)) = false)
        ∨ (r = Undefined ∧ length l + length junk < length lr))).
Proof.
  intros Hv Hrhs. pose proof Hv as (Hs & Hn & Hc & Hm).
  pose proof Hrhs as (Hsr & Hnr & Hcr & Hmr).
  unfold Vector_copy_assign. rewrite Hnr. case_decide as Hcap.
  - destruct (Vector_copy rhs w) as [r0 w1] eqn:Ecopy.
    eapply Vector_copy_spec in Ecopy
      as [(-> & ->)|(-> & Hleak & _ & Hq)]; [| |done].
    + unfold Swap, RawMemory_Swap. simpl.
      erewrite (Vector_destroy_spec _ l junk); cycle 1.
      { destruct v as [[b c] s]. exact Hv. }
      intros [= <- <- <-]. left. split; [done|]. left.
      rewrite after_after, <- app_assoc. done.
    + simpl. intros [= <- <- <-]. left. split; [done|]. right. done.
  - assert (Hin : ∀ P Q : Prop, Q → P ∨ (length lr ≤ Capacity v ∧ Q)).
    { intros P Q HQ. right. split; [lia|done]. }
    assert (Hnil : ∀ w0 : World T, leaked w0 = leaked w0 ++ live (take 0 junk)).
    { intros w0. by rewrite take_0, app_nil_r. }
    rewrite Hn.
    set (k := length l `min` length lr).
    assert (Hzip : zip_with EvCopyAssign (take k l) (take k lr)
                   = zip_with EvCopyAssign l lr).
    { rewrite <- (take_drop k l) at 2. rewrite <- (take_drop k lr) at 2.
      rewrite zip_with_app by (rewrite !length_take; lia).
      destruct (decide (length l ≤ length lr)).
      - rewrite (drop_ge l) by lia. simpl. by rewrite app_nil_r.
      - rewrite (drop_ge lr) by lia.
        rewrite zip_with_nil_r, app_nil_r. done. }
    destruct (copy_n _ _ _ _ _ _) as [[r1 b1] w1] eqn:Ecopy.
    eapply (copy_n_at _ _ [] ((Some <$> drop k lr) ++ junkr) []
              ((Some <$> drop k l) ++ junk) (take k lr) (take k l)) in Ecopy;
      [|rewrite Hsr; exact (split_at k lr junkr)|done
       |rewrite length_take; lia
       |rewrite Hs; exact (split_at k l junk)|done
       |rewrite !length_take; lia].
    destruct Ecopy
      as [(-> & -> & ->)
         |(-> & xs1 & x & xs2 & ys1 & y & ys2 & Hxs & Hys & Hl & Hx & -> & ->)];
      cycle 1.
    { intros [= <- <- <-]. apply Hin. right. left. split; [done|].
      split; [|split; [exists 0; apply (Hnil (after _ w))|]].
      - exists ((xs1 ++ y :: ys2) ++ drop k l), junk.
        split; [f_equal; solve_list|]. split.
        { rewrite <- (take_drop k l) at 2. rewrite Hys, !length_app. simpl. lia. }
        split; [done|]. split; [done|].
        assert (Hj : length xs1 < k).
        { apply (f_equal length) in Hxs.
          rewrite length_take, length_app in Hxs. simpl in Hxs. lia. }
        exists (length xs1). split; [lia|].
        assert (Hxs1 : take (length xs1) lr = xs1).
        { replace (take (length xs1) lr) with (take (length xs1) (take k lr))
            by (rewrite take_take; f_equal; lia).
          rewrite Hxs. by rewrite take_app_length. }
        assert (Hys2 : drop (length xs1) l = (y :: ys2) ++ drop k l).
        { rewrite <- (take_drop k l) at 1.
          rewrite drop_app_le by (rewrite length_take; lia).
          rewrite Hys, <- Hl. by rewrite drop_app_length. }
        rewrite Hxs1, Hys2. by rewrite <- app_assoc.
      - rewrite <- Hzip, Hxs, Hys, zip_with_app by done. simpl.
        rewrite <- app_assoc. simpl. by apply quiet_throws. }
    rewrite Hzip. simpl. case_decide as Hlt; [|case_decide as Hgt].
    + assert (k = length l) as Hk by lia.
      destruct (uninitialized_copy_n _ _ _ _ _ _)
        as [[[r2 old2] b2] w2] eqn:Eloop.
      unfold uninitialized_copy_n in Eloop.
      destruct (decide (length lr - length l ≤ length junk)) as [Hroom|Hshort].
      * eapply (uninitialized_loop_over _ _ _ (Some <$> take k lr) junkr
                  (Some <$> take k lr) (take (length lr - length l) junk)
                  (drop (length lr - length l) junk) (drop k lr)) in Eloop;
          [|rewrite Hsr; exact (split_at k lr junkr)
           |rewrite length_fmap, length_take; lia
           |rewrite length_drop; lia
           |rewrite (drop_ge l) by lia; simpl; by rewrite take_drop
           |rewrite length_fmap, length_take; lia
           |rewrite length_take, length_drop; lia].
        destruct Eloop as [(-> & -> & -> & ->)
                          |(-> & l1 & z & l2 & Hlr & Hz & -> & -> & ->)].
        -- intros [= <- <- <-]. apply Hin. left. split; [done|].
           split; [lia|].
           rewrite after_after, Hk, (drop_ge l (length lr)) by lia.
           replace (length l - length lr) with 0 by lia. simpl.
           rewrite app_nil_r. split; [|done].
           by rewrite <- (split_at (length l) lr).
        -- intros [= <- <- <-]. apply Hin. right. left. split; [done|].
           split; [|split].
           ++ exists (take k lr), (replicate (length l1) None
                   ++ drop (length l1) (take (length lr - length l) junk)
                   ++ drop (length lr - length l) junk).
              split; [done|]. split; [rewrite length_take; lia|].
              split; [|split; [apply Forall_None_cleaned|]].
              { assert (length l1 < length lr - length l).
                { apply (f_equal length) in Hlr.
                  rewrite length_drop, length_app in Hlr. simpl in Hlr. lia. }
                rewrite !length_app, length_replicate, !length_drop, length_take.
                lia. }
              exists k. split; [done|].
              by rewrite (drop_ge l k), app_nil_r by lia.
           ++ exists (length l1 `min` (length lr - length l)).
              by rewrite take_take.
           ++ rewrite <- Hk, Hlr, fmap_app, app_assoc. simpl in Hz.
              rewrite <- app_assoc in Hz. csimpl. by apply quiet_throws.
      * apply Nat.nle_gt in Hshort.
        set (d := length junk) in *.
        assert (Hd : drop k lr = take d (drop k lr) ++ drop d (drop k lr))
          by by rewrite take_drop.
        destruct (drop d (drop k lr)) as [|x xs2] eqn:Hdrop.
        { apply (f_equal length) in Hdrop. rewrite !length_drop in Hdrop.
          simpl in Hdrop. lia. }
        assert (Hlt' : length (take d (drop k lr)) = d)
          by (rewrite length_take, length_drop; lia).
        eapply (uninitialized_loop_short_at _ _ _ (Some <$> take k lr) junkr
                  (Some <$> take k lr) junk (take d (drop k lr)) x xs2)
          in Eloop;
          [|rewrite <- Hd, Hsr; exact (split_at k lr junkr)
           |rewrite length_fmap, length_take; lia
           |rewrite <- Hd, length_drop; lia
           |rewrite (drop_ge l) by lia; done
           |rewrite length_fmap, length_take; lia
           |done].
        destruct Eloop as [(-> & -> & -> & ->)
                          |(-> & l1 & z & l2 & Hl1 & Hz & -> & -> & ->)].
        -- intros [= <- <- <-]. apply Hin. right. right. split; [done|lia].
        -- intros [= <- <- <-]. apply Hin. right. left. split; [done|].
           split; [|split].
           ++ exists (take k lr),
                (replicate (length l1) None ++ drop (length l1) junk).
              split; [done|]. split; [rewrite length_take; lia|].
              assert (length l1 < d).
              { apply (f_equal length) in Hl1.
                rewrite Hlt', length_app in Hl1. simpl in Hl1. lia. }
              split; [|split].
              ** rewrite length_app, length_replicate, length_drop. lia.
              ** intros Hj. apply Forall_app.
                 split; [apply Forall_None_replicate|by apply Forall_drop].
              ** exists k. split; [done|].
                 by rewrite (drop_ge l k), app_nil_r by lia.
           ++ by exists (length l1).
           ++ rewrite <- Hk, Hd, Hl1, <- app_assoc, fmap_app, app_assoc.
              simpl in Hz. rewrite <- app_assoc in Hz. csimpl.
              by apply quiet_throws.
    + assert (k = length lr) as Hk by lia.
      erewrite (destroy_n_at _ (Some <$> take k lr) junk (drop k l));
        [|done|rewrite length_fmap, length_take; lia|rewrite length_drop; lia].
      intros [= <- <- <-]. apply Hin. left. split; [done|]. split; [lia|].
      rewrite after_after, Hk, (drop_ge lr (length l)) by lia.
      replace (length lr - length l) with 0 by lia. simpl.
      rewrite (take_ge lr) by lia. rewrite length_drop.
      rewrite take_0, live_nil, lose_nil. done.
    + assert (length l = length lr) as Heq by lia.
      intros [= <- <- <-]. apply Hin. left. split; [done|]. split; [lia|].
      rewrite (drop_ge lr (length l)), (drop_ge l (length lr)) by lia.
      rewrite Heq, Nat.sub_diag. simpl.
      rewrite app_nil_r, take_0, live_nil, lose_nil. split; [|done].
      do 3 f_equal.
      * unfold k. rewrite Heq, Nat.min_id, take_ge by lia. done.
      * unfold k. rewrite Heq, Nat.min_id, drop_ge by lia. done.
Qed.

(** ** Preservation of the invariant *)

Lemma models_intro (b : block) (c n : nat) (l : list T) (junk : block) :
  b = (Some <$> l) ++ junk → n = length l → length l + length junk ≤ c →
  servable (length l + length junk) →
  models (mkVector (mkRawMemory b c) n) l junk.
Proof. intros -> -> Hc Hm. done. Qed.

Lemma models_with_slots (v : Vector T) l junk l' junk' :
  models v l junk → length l' = length l → length junk' = length junk →
  models (with_slots v ((Some <$> l') ++ junk')) l' junk'.
Proof.
  intros (Hs & Hn & Hc & Hm) Hl Hj. unfold Capacity in *.
  apply models_intro; try done; try lia. by rewrite Hl, Hj.
Qed.

(** The same block and capacity, with the boundary between elements and
    spare slots moved. *)
Lemma models_reshape (v : Vector T) l junk l' junk' :
  models v l junk → length l' + length junk' = length l + length junk →
  models (mkVector (with_block (data_ v) ((Some <$> l') ++ junk')) (length l'))
    l' junk'.
Proof.
  intros (Hs & Hn & Hc & Hm) Hl. unfold Capacity in *.
  apply models_intro; try done; try (simpl; lia). by rewrite Hl.
Qed.

(** A block fresh from the allocator. *)
Lemma models_fresh (c : nat) (l : list T) (k : nat) :
  length l + k = c → servable c →
  models (mkVector (mkRawMemory ((Some <$> l) ++ replicate k None) c) (length l))
    l (replicate k None).
Proof.
  intros Hc Hm. apply models_intro; try done; rewrite length_replicate;
    [lia|by rewrite Hc].
Qed.

Lemma inv_intro (strict : bool) (v : Vector T) l junk :
  models v l junk → (strict = true → Forall (.= None) junk) → inv strict v.
Proof. intros. by exists l, junk. Qed.

Lemma inv_default strict : inv strict (@Vector_default T).
Proof.
  apply (inv_intro _ _ [] []); [|by constructor].
  apply models_intro; try done; apply servable_zero.
Qed.

Lemma inv_eta strict (v : Vector T) :
  inv strict v → inv strict (mkVector (data_ v) (size_ v)).
Proof. by destruct v. Qed.

Lemma value_construct_over (b dp hole ds : block) first n (w : World T) r b' w' :
  b = dp ++ hole ++ ds → first = length dp → length hole = n →
  uninitialized_value_construct_n b first n w = (r, b', w') →
  (r = Returned tt
   ∧ b' = dp ++ (Some <$> replicate n default_value) ++ ds
   ∧ w' = lose (live hole) (after (replicate n EvDefaultCtor) w))
  ∨ (r = Thrown ∧ ∃ k,
       k < n
       ∧ throws (log w ++ replicate k EvDefaultCtor) EvDefaultCtor = true
       ∧ b' = dp ++ replicate k None ++ drop k hole ++ ds
       ∧ w' = lose (live (take k hole))
                (after (replicate k EvDefaultCtor ++ [EvDefaultCtor]
                        ++ (EvDtor <$> replicate k default_value)) w)).
Proof.
  intros -> -> Hlen Hloop. unfold uninitialized_value_construct_n in Hloop.
  pose proof (value_construct_loop_spec n dp ds hole [] w r b' w' Hlen) as Hspec.
  csimpl in Hspec. rewrite Nat.add_0_r in Hspec. by apply Hspec.
Qed.

Lemma value_construct_at (b dp hole ds : block) first n (w : World T) r b' w' :
  b = dp ++ hole ++ ds → first = length dp → length hole = n →
  Forall (.= None) hole →
  uninitialized_value_construct_n b first n w = (r, b', w') →
  (r = Returned tt
   ∧ b' = dp ++ (Some <$> replicate n default_value) ++ ds
   ∧ w' = after (replicate n EvDefaultCtor) w)
  ∨ (r = Thrown ∧ ∃ k,
       k < n
       ∧ throws (log w ++ replicate k EvDefaultCtor) EvDefaultCtor = true
       ∧ b' = dp ++ replicate k None ++ drop k hole ++ ds
       ∧ w' = after (replicate k EvDefaultCtor ++ [EvDefaultCtor]
                     ++ (EvDtor <$> replicate k default_value)) w).
Proof.
  intros Hb Hfirst Hlen Hclean Hloop.
  eapply value_construct_over in Hloop; [|done..].
  rewrite (live_None hole Hclean), lose_nil in Hloop.
  destruct Hloop as [?|(-> & k & Hk & Hx & -> & ->)]; [by left|].
  right. split; [done|]. exists k.
  rewrite (live_None (take _ hole)), lose_nil by by apply Forall_take.
  done.
Qed.

Lemma value_construct_short_at (b dp hole : block) first n k (w : World T)
    r b' w' :
  b = dp ++ hole → first = length dp → length hole = k → k < n →
  uninitialized_value_construct_n b first n w = (r, b', w') →
  (r = Undefined
   ∧ b' = dp ++ replicate k None
   ∧ w' = lose (live hole)
            (after (replicate k EvDefaultCtor
                    ++ (EvDtor <$> replicate k default_value)) w))
  ∨ (r = Thrown ∧ ∃ j,
       j < k
       ∧ throws (log w ++ replicate j EvDefaultCtor) EvDefaultCtor = true
       ∧ b' = dp ++ replicate j None ++ drop j hole
       ∧ w' = lose (live (take j hole))
                (after (replicate j EvDefaultCtor ++ [EvDefaultCtor]
                        ++ (EvDtor <$> replicate j default_value)) w)).
Proof.
  intros -> -> Hlen Hk Hloop. unfold uninitialized_value_construct_n in Hloop.
  replace n with (k + S (n - k - 1)) in Hloop by lia.
  pose proof (value_construct_loop_short k dp hole [] (n - k - 1) w r b' w'
                Hlen) as Hspec.
  csimpl in Hspec. rewrite Nat.add_0_r in Hspec. by apply Hspec.
Qed.

Lemma Vector_sized_spec `{!Lawful T} (n : nat) (w : World T) r w' :
  Vector_sized n w = (r, w') →
  (r = Returned (mkVector (mkRawMemory (Some <$> replicate n default_value) n) n)
   ∧ servable n ∧ alloc_bytes n / sizeof = n
   ∧ w' = after (alloc_events n ++ replicate n EvDefaultCtor) w)
  ∨ (r = Thrown ∧ n ≠ 0 ∧ throws (log w) (EvAlloc n) = true
     ∧ w' = after [EvAlloc n] w)
  ∨ (r = Thrown ∧ ∃ k,
       k < n ∧ k < alloc_bytes n / sizeof
       ∧ throws (log w ++ EvAlloc n :: replicate k EvDefaultCtor) EvDefaultCtor
         = true
       ∧ w' = after (EvAlloc n :: replicate k EvDefaultCtor ++ [EvDefaultCtor]
                     ++ (EvDtor <$> replicate k default_value)) w)
  ∨ (r = Undefined ∧ alloc_bytes n / sizeof < n
     ∧ throws (log w) (EvAlloc n) = false
     ∧ w' = after (EvAlloc n :: replicate (alloc_bytes n / sizeof) EvDefaultCtor
                   ++ (EvDtor <$> replicate (alloc_bytes n / sizeof)
                                    default_value)) w).
Proof.
  unfold Vector_sized.
  destruct (RawMemory_new n w) as [r0 w1] eqn:Enew.
  apply RawMemory_new_any in Enew
    as [(m & -> & Hm1 & Hm2 & Hm3 & Hm4 & Hm5 & ->)|(-> & Hn0 & Hthrow & ->)];
    cycle 1.
  { simpl. intros [= <- <-]. right. by left. }
  simpl. rewrite <- Hm1.
  destruct (uninitialized_value_construct_n _ _ _ _) as [[r1 b] w2] eqn:EV.
  destruct (decide (m = n)) as [->|Hne].
  - eapply (value_construct_at _ [] (replicate n None) []) in EV;
      [|by rewrite app_nil_r|done|by rewrite length_replicate
       |apply Forall_None_replicate].
    destruct EV as [(-> & -> & ->)|(-> & k & Hk & Hx & -> & ->)].
    + intros [= <- <-]. left. unfold with_block. simpl. rewrite app_nil_r.
      split; [done|]. split; [done|]. split; [done|].
      unfold alloc_events. case_decide; [done|by rewrite after_after].
    + intros [= <- <-]. right. right. left. split; [done|]. exists k.
      rewrite decide_False by lia. rewrite decide_False in Hx by lia.
      split; [done|]. split; [done|]. simpl in Hx.
      rewrite <- app_assoc in Hx. split; [done|].
      rewrite Deallocate_none; cycle 1.
      { simpl. rewrite (app_nil_r (drop _ _)), omap_app, drop_replicate.
        by rewrite !omap_replicate_None. }
      by rewrite after_after.
  - eapply (value_construct_short_at _ [] (replicate m None)) in EV;
      [|done|done|by rewrite length_replicate|lia].
    assert (Hn0 : n ≠ 0) by lia.
    rewrite decide_False in EV by done.
    destruct EV as [(-> & -> & ->)|(-> & k & Hk & Hx & -> & ->)].
    + intros [= <- <-]. right. right. right. split; [done|].
      split; [lia|]. split; [by apply Hm5|].
      rewrite live_replicate_None, lose_nil, Deallocate_none, after_after
        by (simpl; apply omap_replicate_None).
      by subst m.
    + intros [= <- <-]. right. right. left. split; [done|]. exists k.
      split; [lia|]. split; [by subst m|]. simpl in Hx.
      rewrite <- app_assoc in Hx. split; [done|].
      rewrite (live_None (take _ _)), lose_nil
        by apply Forall_take, Forall_None_replicate.
      rewrite Deallocate_none; cycle 1.
      { simpl. rewrite omap_app, drop_replicate.
        by rewrite !omap_replicate_None. }
      by rewrite after_after.
Qed.

Lemma inv_Vector_sized `{!Lawful T} strict (n : nat) (w : World T) v w' :
  Vector_sized n w = (Returned v, w') → inv strict v.
Proof.
  intros Hop.
  apply Vector_sized_spec in Hop
    as [(Hv & Hm & _)|[(? & _)|[(? & _)|(? & _)]]]; try done.
  injection Hv as ->.
  apply (inv_intro _ _ (replicate n default_value) []); [|by constructor].
  apply models_intro;
    [by rewrite app_nil_r|by rewrite length_replicate
    |rewrite length_replicate; simpl; lia
    |rewrite length_replicate; simpl; by rewrite Nat.add_0_r].
Qed.

Lemma models_bound (v : Vector T) l junk :
  models v l junk → servable (length l).
Proof. intros (_ & _ & Hc & Hm). eapply servable_le; [|exact Hm]. lia. Qed.

Lemma inv_Vector_copy `{!Lawful T} strict (other : Vector T) w v w' :
  inv false other → Vector_copy other w = (Returned v, w') → inv strict v.
Proof.
  intros (l & junk & Hm & _) Hcopy.
  eapply Vector_copy_spec in Hcopy as [(Hv & _)|(? & _)]; [| |done]; [|done].
  simplify_eq. apply (inv_intro _ _ l []); [|by constructor].
  apply models_intro; try done; try (by rewrite app_nil_r); try (simpl; lia).
  simpl. rewrite Nat.add_0_r. by eapply models_bound.
Qed.

Lemma inv_weaken strict (v : Vector T) : inv strict v → inv false v.
Proof. intros (l & junk & Hm & _). by exists l, junk. Qed.

Lemma inv_Vector_copy_assign `{!Lawful T} strict (rhs : VectorRef T)
    (v : Vector T) w r v' w' :
  inv strict v → (∀ o, rhs = Other o → inv false o) →
  Vector_copy_assign rhs v w = (r, v', w') → r ≠ Undefined → inv strict v'.
Proof.
  intros Hv Hrhs. destruct rhs as [|o].
  { by intros [= <- <- <-]. }
  destruct Hv as (l & junk & Hm & Hj).
  destruct (Hrhs o eq_refl) as (lr & junkr & Hmr & _).
  intros Hassign Hr.
  eapply Vector_copy_assign_spec in Hassign; [|done|done].
  destruct Hassign as [(Hcap & [(-> & -> & ->)|(-> & -> & _)])
                      |(Hcap & [(-> & Hroom & -> & ->)
                               |[(-> & (l' & junk' & -> & Hl & Hj' & HF & _) & _)
                                |(-> & _)]])]; [| | | |done].
  - apply (inv_intro _ _ lr []); [|by constructor].
    apply models_intro; try done; try (by rewrite app_nil_r); try (simpl; lia).
    simpl. rewrite Nat.add_0_r. by eapply models_bound.
  - by exists l, junk.
  - apply (inv_intro _ _ lr (replicate (length l - length lr) None
                             ++ drop (length lr - length l) junk)).
    + apply (models_reshape v l junk); [done|].
      rewrite length_app, length_replicate, length_drop. lia.
    + intros Hs'. apply Forall_app. split; [apply Forall_None_replicate|].
      by apply Forall_drop, Hj.
  - apply (inv_intro _ _ l' junk'); [by eapply models_with_slots|].
    intros Hs'. by apply HF, Hj.
Qed.

Lemma inv_Reserve `{!Lawful T} strict (n : nat) (v : Vector T) w r v' w' :
  inv strict v → Reserve n v w = (r, v', w') → r ≠ Undefined →
  inv strict v' ∧ size_ v' = size_ v.
Proof.
  intros (l & junk & Hm & Hj) Hres Hr.
  eapply Reserve_spec in Hres; [|done].
  destruct Hres as [(Hle & -> & -> & ->)
                   |[(Hlt & -> & m & _ & Hm1 & Hm2 & Hm3 & _ & -> & ->)
                    |[(Hlt & -> & -> & -> & Ht)
                     |[(Hlt & -> & l1 & x & l2 & -> & Hx & -> & ->)
                      |(_ & -> & _)]]]]; [| | | |done].
  - split; [by exists l, junk|]. done.
  - pose proof Hm as (Hs & Hn & Hc & _).
    split; [|done].
    apply (inv_intro _ _ l (replicate (m - length l) None));
      [|intros; apply Forall_None_replicate].
    apply models_intro; try done; rewrite length_replicate;
      [lia|eapply servable_eq; [exact Hm3|lia]].
  - split; [by exists l, junk|]. done.
  - split; [|done].
    apply (inv_intro _ _ ((residue relocate_by_move <$> l1) ++ x :: l2) junk);
      [|done].
    eapply models_with_slots; [done| |done].
    rewrite !length_app, length_fmap. done.
Qed.

Lemma inv_Resize `{!Lawful T} strict (n : nat) (v : Vector T) w r v' w' :
  inv strict v → Resize n v w = (r, v', w') → r ≠ Undefined → inv strict v'.
Proof.
  intros Hv. unfold Resize. case_decide as Hlt.
  - destruct Hv as (l & junk & Hm & Hj). pose proof Hm as (Hs & Hn & Hc & Hmax).
    erewrite (destroy_n_at _ (Some <$> take n l) junk (drop n l));
      [|rewrite Hs; apply split_at|rewrite length_fmap, length_take; lia
       |rewrite length_drop; lia].
    intros [= <- <- <-] _.
    apply (inv_intro _ _ (take n l)
             (replicate (length (drop n l)) None ++ junk)).
    + replace n with (length (take n l)) at 3 by (rewrite length_take; lia).
      apply (models_reshape v l junk); [done|].
      rewrite length_app, length_replicate, length_drop, length_take. lia.
    + intros Hs'. apply Forall_app. split; [apply Forall_None_replicate|auto].
  - assert (∃ r1 v1 w1,
              (if decide (Capacity v < n) then Reserve n v w
               else (Returned tt, v, w)) = (r1, v1, w1)
              ∧ (r1 ≠ Undefined → inv strict v1 ∧ size_ v1 = size_ v))
      as (r1 & v1 & w1 & -> & Hv1).
    { case_decide as Hc.
      - destruct (Reserve n v w) as [[r1 v1] w1] eqn:Eres.
        exists r1, v1, w1. split; [done|]. by eapply inv_Reserve.
      - exists (Returned tt), v, w. done. }
    destruct r1 as [[]| |]; [|by intros [= <- <- <-] Hr; apply Hv1..].
    destruct (Hv1 ltac:(done)) as [(l & junk & Hm & Hj) Hsz].
    pose proof Hm as (Hs & Hn & Hc & Hmax).
    destruct (uninitialized_value_construct_n _ _ _ _) as [[r2 b2] w2] eqn:Eloop.
    destruct (decide (n - length l ≤ length junk)) as [Hroom|Hshort].
    + eapply (value_construct_over _ (Some <$> l) (take (n - length l) junk)
                (drop (n - length l) junk)) in Eloop;
        [|by rewrite Hs, take_drop|by rewrite length_fmap
         |rewrite length_take; lia].
      destruct Eloop as [(-> & -> & ->)|(-> & k & Hk & _ & -> & ->)];
        intros [= <- <- <-] _.
      * apply (inv_intro _ _ (l ++ replicate (n - size_ v1) default_value)
                 (drop (n - length l) junk)).
        -- replace n with (length (l ++ replicate (n - size_ v1) default_value))
             at 3 by (rewrite length_app, length_replicate; lia).
           rewrite app_assoc, <- fmap_app.
           apply (models_reshape v1 l junk); [done|].
           rewrite !length_app, length_replicate, length_drop. lia.
        -- intros Hs'. by apply Forall_drop, Hj.
      * apply (inv_intro _ _ l
                 (replicate k None ++ drop k (take (n - length l) junk)
                  ++ drop (n - length l) junk)).
        -- eapply models_with_slots; [done|done|].
           rewrite !length_app, length_replicate, !length_drop, length_take. lia.
        -- intros Hs'. by apply Forall_None_cleaned, Hj.
    + eapply (value_construct_short_at _ (Some <$> l) junk) in Eloop;
        [|done|by rewrite length_fmap|done|lia].
      destruct Eloop as [(-> & -> & ->)|(-> & k & Hk & _ & -> & ->)];
        intros [= <- <- <-] Hr; [done|].
      apply (inv_intro _ _ l (replicate k None ++ drop k junk)).
      * eapply models_with_slots; [done|done|].
        rewrite !length_app, length_replicate, !length_drop. lia.
      * intros Hs'. apply Forall_app.
        split; [apply Forall_None_replicate|by apply Forall_drop, Hj].
Qed.

Lemma models_snoc (v : Vector T) l junk :
  models v l junk → size_ v ≠ 0 → ∃ l' x, l = l' ++ [x].
Proof.
  intros (_ & Hn & _) Hnz. destruct l as [|y l _] using rev_ind; [done|].
  by eauto.
Qed.

Lemma models_pop (v : Vector T) l x junk :
  models v (l ++ [x]) junk →
  models (mkVector (with_block (data_ v) ((Some <$> l) ++ None :: junk))
            (length l)) l (None :: junk).
Proof.
  intros Hm. apply (models_reshape v (l ++ [x]) junk); [done|].
  rewrite length_app. simpl. lia.
Qed.

Lemma inv_PopBack strict (v : Vector T) w r v' w' :
  inv strict v → PopBack v w = (r, v', w') → r ≠ Undefined → inv strict v'.
Proof.
  intros (l & junk & Hm & Hj) Hpop Hr.
  destruct (decide (size_ v = 0)) as [Hz|Hnz].
  { unfold PopBack in Hpop. rewrite Hz in Hpop. by injection Hpop as <- _ _. }
  destruct (models_snoc _ _ _ Hm Hnz) as (l' & x & ->).
  rewrite (PopBack_spec _ l' x junk) in Hpop by done.
  injection Hpop as _ <- _.
  apply (inv_intro _ _ l' (None :: junk)); [by apply (models_pop _ _ x)|].
  intros Hs'. constructor; auto.
Qed.

Lemma inv_EmplaceBack `{!Lawful T} strict (args : Args T) (v : Vector T)
    w r v' w' :
  inv strict v → EmplaceBack args v w = (r, v', w') → r ≠ Undefined →
  inv strict v'.
Proof.
  intros (l & junk & Hm & Hj) Hop Hr.
  destruct (decide (size_ v = Capacity v)) as [Hfull|Hroom].
  - destruct (grown_capacity_models _ _ _ Hm Hfull) as (-> & Hc1 & _).
    eapply EmplaceBack_growth_spec in Hop; [|done..].
    destruct Hop
      as [(-> & -> & _)
         |[(-> & l1 & y & l2 & -> & _ & -> & _)
          |(e & x & _ & [(-> & _ & -> & _)|(-> & _ & -> & Hmax & _)])]].
    + by exists l, [].
    + apply (inv_intro _ _ ((residue relocate_by_move <$> l1) ++ y :: l2) []);
        [|done].
      rewrite <- (app_nil_r (Some <$> _)).
      eapply models_with_slots; [done| |done].
      by rewrite !length_app, length_fmap.
    + apply (inv_intro _ _ (residue relocate_by_move <$> l) []); [|done].
      rewrite <- (app_nil_r (Some <$> _)).
      eapply models_with_slots; [done| |done]. by rewrite length_fmap.
    + apply (inv_intro _ _ (l ++ [x])
               (replicate (grown_capacity (size_ v) - S (length l)) None));
        [|intros; apply Forall_None_replicate].
      replace (S (length l)) with (length (l ++ [x])) at 2
        by (rewrite length_app; simpl; lia).
      apply models_fresh; [|done]. rewrite length_app. simpl. lia.
  - eapply EmplaceBack_inplace_spec in Hop; [|done..].
    destruct Hop as (e & x & h & junk' & _ & -> & _
                     & [(-> & _ & -> & _)|(-> & _ & -> & _)]).
    + by exists l, (h :: junk').
    + apply (inv_intro _ _ (l ++ [x]) junk').
      * replace (S (length l)) with (length (l ++ [x]))
          by (rewrite length_app; simpl; lia).
        apply (models_reshape v l (h :: junk')); [done|].
        rewrite length_app. simpl. lia.
      * intros Hs'. specialize (Hj Hs'). by inversion Hj.
Qed.

Lemma inv_PushBack_copy `{!Lawful T} strict (value : Ref T) (v : Vector T)
    w r v' w' :
  inv strict v → PushBack_copy value v w = (r, v', w') → r ≠ Undefined →
  inv strict v'.
Proof.
  intros Hv. unfold PushBack_copy.
  destruct (EmplaceBack _ v w) as [[r1 v1] w1] eqn:Eop.
  intros Heq Hr.
  destruct r1; simplify_eq; try done; by eapply inv_EmplaceBack.
Qed.

Lemma inv_PushBack_move `{!Lawful T} strict (value : T) (v : Vector T)
    w r v' w' :
  inv strict v → PushBack_move value v w = (r, v', w') → r ≠ Undefined →
  inv strict v'.
Proof.
  intros Hv. unfold PushBack_move.
  destruct (EmplaceBack _ v w) as [[r1 v1] w1] eqn:Eop.
  intros Heq Hr.
  destruct r1; simplify_eq; try done; by eapply inv_EmplaceBack.
Qed.

Lemma inv_Emplace `{!Lawful T} strict (pos : nat) (args : Args T)
    (v : Vector T) w r v' w' :
  (strict = true → nothrow_move_assign) →
  inv strict v → Emplace pos args v w = (r, v', w') → r ≠ Undefined →
  inv strict v'.
Proof.
  intros Hassign (l & junk & Hm & Hj). unfold Emplace.
  case_decide as Hpos; [|by intros [= <- <- <-]].
  pose proof Hm as (Hs & Hn & Hc & Hmax).
  rewrite <- (take_drop pos l) in Hm.
  assert (Hla : pos = length (take pos l)) by (rewrite length_take; lia).
  assert (Hlen : length (take pos l ++ drop pos l) = length l)
    by by rewrite take_drop.
  case_decide as Hfull; intros Hop Hr.
  - destruct (grown_capacity_models _ _ _ Hm Hfull) as (-> & Hc1 & _).
    eapply EmplaceWithRealloc_spec in Hop; [|done..].
    destruct Hop
      as [(-> & -> & _)
         |[(-> & l1 & y & l2 & Hl & _ & -> & _)
          |(e & x & _ & [(-> & _ & -> & _)
                        |[(-> & l1 & y & l2 & Hl & _ & -> & _)
                         |(-> & -> & Hmax' & _)]])]].
    + exists l, []. by rewrite take_drop in Hm.
    + apply (inv_intro _ _ ((residue relocate_by_move <$> l1)
                            ++ y :: l2 ++ drop pos l) []); [|done].
      rewrite <- (app_nil_r (Some <$> _)).
      eapply models_with_slots; [done| |done].
      rewrite Hl, !length_app, length_fmap; simpl; rewrite ?length_app; lia.
    + apply (inv_intro _ _ ((residue relocate_by_move <$> take pos l)
                            ++ drop pos l) []); [|done].
      rewrite <- (app_nil_r (Some <$> _)).
      eapply models_with_slots; [done| |done].
      rewrite !length_app, length_fmap; lia.
    + apply (inv_intro _ _ ((residue relocate_by_move <$> take pos l)
                            ++ (residue relocate_by_move <$> l1)
                            ++ y :: l2) []); [|done].
      rewrite <- (app_nil_r (Some <$> _)).
      eapply models_with_slots; [done| |done].
      rewrite Hl, !length_app, !length_fmap; simpl; lia.
    + apply (inv_intro _ _ (take pos l ++ x :: drop pos l)
               (replicate (grown_capacity (size_ v)
                           - S (length (take pos l ++ drop pos l))) None));
        [|intros; apply Forall_None_replicate].
      replace (S (length (take pos l ++ drop pos l)))
        with (length (take pos l ++ x :: drop pos l)) at 2
        by (rewrite !length_app; simpl; lia).
      apply models_fresh; [|done]. rewrite !length_app in *. simpl. lia.
  - eapply EmplaceWithoutRealloc_spec in Hop; [|done..].
    destruct Hop
      as (e & x & _ & [(-> & _ & -> & _)
                      |(h & junk' & -> & _
                        & [(-> & -> & _)
                          |[(-> & -> & _)
                           |(-> & zs & z & Hzs & -> & _ & Ht)]])]).
    + exists l, junk. by rewrite take_drop in Hm.
    + apply (inv_intro _ _ (take pos l ++ x :: drop pos l) junk').
      * replace (S (length (take pos l ++ drop pos l)))
          with (length (take pos l ++ x :: drop pos l))
          by (rewrite !length_app; simpl; lia).
        apply (models_reshape v _ (h :: junk') _ _ Hm).
        rewrite !length_app. simpl. lia.
      * intros Hs'. specialize (Hj Hs'). by inversion Hj.
    + exists l, (h :: junk'). by rewrite <- (take_drop pos l) at 1.
    + destruct strict.
      * destruct Ht as (h' & d & s & Ht).
        rewrite (Hassign eq_refl) in Ht. done.
      * apply (inv_intro _ _ (take pos l ++ zs) (Some z :: junk')); [|done].
        eapply models_with_slots; [done| |done].
        rewrite !length_app. lia.
Qed.

Lemma inv_store_at strict (index : nat) (x : T) (v : Vector T) r v' :
  inv strict v → store_at index x v = (r, v') → r ≠ Undefined → inv strict v'.
Proof.
  intros (l & junk & Hm & Hj). unfold store_at.
  case_decide as Hi; intros [= <- <-] Hr; [|done].
  pose proof Hm as (Hs & Hn & _).
  apply (inv_intro _ _ (<[index := x]> l) junk); [|done].
  rewrite Hs, insert_app_l by (rewrite length_fmap; lia).
  rewrite <- list_fmap_insert.
  eapply models_with_slots; [done|by rewrite length_insert|done].
Qed.

Lemma inv_Erase strict (pos : nat) (v : Vector T) w r v' w' :
  inv strict v → Erase pos v w = (r, v', w') → r ≠ Undefined → inv strict v'.
Proof.
  intros (l & junk & Hm & Hj) Hop Hr.
  destruct (decide (pos < size_ v)) as [Hpos|Hpos]; cycle 1.
  { unfold Erase in Hop. rewrite decide_False in Hop by done. by simplify_eq. }
  pose proof Hm as (Hs & Hn & Hc & Hmax).
  destruct (lookup_lt_is_Some_2 l pos ltac:(lia)) as [y Hy].
  rewrite <- (take_drop_middle l pos y Hy) in Hm.
  eapply Erase_spec in Hop; [|done|rewrite length_take; lia].
  destruct Hop as [(-> & -> & _)|(-> & (zs & Hzs & ->) & _)].
  - apply (inv_intro _ _ (take pos l ++ drop (S pos) l) (None :: junk)).
    + apply (models_reshape v _ junk _ _ Hm).
      rewrite !length_app. simpl. lia.
    + intros Hs'. constructor; auto.
  - apply (inv_intro _ _ (take pos l ++ zs) junk); [|done].
    eapply models_with_slots; [done| |done].
    rewrite !length_app. simpl. lia.
Qed.

Lemma reachable_inv `{!Lawful T} strict (v : Vector T) :
  (strict = true → nothrow_move_assign) → reachable v → inv strict v.
Proof.
  intros Hassign Hreach. induction Hreach.
  - apply inv_default.
  - by eapply inv_Vector_sized.
  - eapply inv_Vector_copy; [by eapply inv_weaken|done].
  - by apply inv_eta.
  - apply inv_default.
  - by eapply inv_store_at.
  - eapply inv_Vector_copy_assign; [exact IHHreach| |done|done]. done.
  - eapply inv_Vector_copy_assign; [exact IHHreach1| |done|done].
    intros o [= <-]. by eapply inv_weaken.
  - by apply inv_eta.
  - by apply inv_eta.
  - by apply inv_eta.
  - by apply inv_eta.
  - by eapply inv_Reserve.
  - by eapply inv_Resize.
  - by eapply inv_PushBack_copy.
  - by eapply inv_PushBack_move.
  - by eapply inv_PopBack.
  - by eapply inv_EmplaceBack.
  - by eapply inv_Emplace.
  - by eapply inv_Emplace.
  - by eapply inv_Emplace.
  - by eapply inv_Erase.
Qed.

Lemma models_tail (v : Vector T) l junk :
  models v l junk → intact v → Forall (.= None) junk → tail_unconstructed v.
Proof.
  intros Hm Hi Hj i Hi'. pose proof (models_intact _ _ _ Hm Hi) as Hcap.
  destruct Hm as (Hsl & Hn & Hc & _).
  rewrite Hsl, lookup_app_r by (rewrite length_fmap; lia).
  rewrite length_fmap.
  destruct (lookup_lt_is_Some_2 junk (i - length l) ltac:(lia)) as [o Ho].
  rewrite Ho. f_equal.
  by apply (Forall_lookup_1 _ _ _ _ Hj Ho).
Qed.

Lemma inv_pointwise strict (v : Vector T) :
  inv strict v →
  size_within_capacity v ∧ prefix_constructed v
  ∧ (strict = true → intact v → tail_unconstructed v).
Proof.
  intros (l & junk & Hm & Hj).
  destruct (models_semi _ _ _ Hm) as (Hsz & Hp). repeat split; try done.
  intros Hs Hi. eapply models_tail; [done|done|by apply Hj].
Qed.

Lemma reachable_models `{!Lawful T} (v : Vector T) :
  reachable v → ∃ junk, models v (elements v) junk.
Proof.
  intros Hreach.
  destruct (reachable_inv false v ltac:(done) Hreach) as (l & junk & Hm & _).
  exists junk. by rewrite (models_elements _ _ _ Hm).
Qed.

Lemma Vector_at_models (v : Vector T) l junk (k : nat) :
  models v l junk →
  Vector_at v k = match l !! k with Some x => Returned x | None => Undefined end.
Proof.
  intros (Hs & Hn & _). unfold Vector_at. rewrite Hn, Hs. case_decide as Hk.
  - rewrite lookup_app_l by by rewrite length_fmap.
    rewrite list_lookup_fmap.
    by destruct (lookup_lt_is_Some_2 l k Hk) as [x ->].
  - by rewrite lookup_ge_None_2 by lia.
Qed.

Lemma PushBack_copy_returned (value : Ref T) (v : Vector T) w v' w' :
  PushBack_copy value v w = (Returned tt, v', w') →
  ∃ i, EmplaceBack (ByCopy value) v w = (Returned i, v', w').
Proof.
  unfold PushBack_copy. destruct (EmplaceBack _ v w) as [[[i| |] v1] w1];
    intros; simplify_eq. by eauto.
Qed.

Lemma PushBack_move_returned (value : T) (v : Vector T) w v' w' :
  PushBack_move value v w = (Returned tt, v', w') →
  ∃ i, EmplaceBack (ByMove value) v w = (Returned i, v', w').
Proof.
  unfold PushBack_move. destruct (EmplaceBack _ v w) as [[[i| |] v1] w1];
    intros; simplify_eq. by eauto.
Qed.

End Container.

(** * The claims *)

Section Claims.
Context {T : Type} `{Element T}.

Local Abbreviation block := (list (option T)).

(** ** When an insertion is undefined *)

Lemma EmplaceBack_growth_undefined `{!Lawful T} (args : Args T) (v : Vector T)
    l junk w r v' w' :
  models v l junk → size_ v = Capacity v →
  EmplaceBack args v w = (r, v', w') → r = Undefined →
  resolve args (Some <$> (residue relocate_by_move <$> l)) = None.
Proof.
  intros Hv Hfull.
  destruct (grown_capacity_models v l junk Hv Hfull) as (-> & Hc1 & Hc2 & Hfit).
  destruct Hv as (Hs & Hn & Hc & Hm). rewrite app_nil_r in Hs.
  unfold EmplaceBack. rewrite decide_True by done.
  set (c := grown_capacity (size_ v)) in *. simpl.
  destruct (RawMemory_new c w) as [r0 w1] eqn:Enew.
  apply (RawMemory_new_spec _ _ _ _ Hfit) in Enew
    as [(-> & Hmax & ->)|(-> & Hn0 & Hthrow & ->)]; cycle 1.
  { simpl. by intros [= <- <- <-]. }
  rewrite decide_False by lia. simpl.
  rewrite relocate_if, Hs, Hn.
  destruct (uninitialized_loop _ _ _ _ _ _ _ _)
    as [[[r1 old1] new1] w2] eqn:Eloop.
  eapply (uninitialized_loop_at _ _ _ [] [] [] (replicate (length l) None)
            (replicate (c - length l) None) l) in Eloop;
    [|by rewrite app_nil_r|done|done| |done|by rewrite length_replicate
     |apply Forall_None_replicate]; cycle 1.
  { simpl; rewrite <- replicate_add; f_equal; lia. }
  destruct Eloop as [(-> & -> & -> & ->)
                    |(-> & l1 & y & l2 & -> & Hy & -> & -> & ->)]; cycle 1.
  { simpl. by intros [= <- <- <-]. }
  simpl. rewrite app_nil_r.
  destruct (resolve args _) as [[e x]|] eqn:Eres; [|done].
  replace (c - length l) with (S (c - S (length l))) by lia. simpl.
  erewrite construct_at_fresh; [|done|by rewrite length_fmap].
  rewrite after_after. simpl.
  destruct (throws (log w ++ EvAlloc c :: _) e) eqn:He.
  + erewrite (destroy_n_at _ [] _ l); [|reflexivity|done|done].
    by intros [= <- <- <-].
  + erewrite (destroy_n_at _ [] [] (residue relocate_by_move <$> l));
      [|by rewrite app_nil_r|done|by rewrite length_fmap].
    by intros [= <- <- <-].
Qed.

Lemma EmplaceBack_inplace_undefined (args : Args T) (v : Vector T)
    l junk w r v' w' :
  models v l junk → size_ v ≠ Capacity v →
  EmplaceBack args v w = (r, v', w') → r = Undefined →
  resolve args (slots v) = None ∨ junk = [].
Proof.
  intros (Hs & Hn & Hc & Hm) Hroom.
  unfold EmplaceBack. rewrite decide_False by done.
  destruct (resolve args _) as [[e x]|] eqn:Eres; [|by left].
  destruct junk as [|h junk']; [by right|].
  erewrite construct_at_at; [|exact Hs|by rewrite length_fmap].
  destruct (throws (log w) e) eqn:He; by intros [= <- <- <-].
Qed.

Lemma EmplaceWithRealloc_undefined `{!Lawful T} (index : nat) (args : Args T)
    (v : Vector T) la lb w r v' w' :
  models v (la ++ lb) [] → index = length la → size_ v = Capacity v →
  EmplaceWithRealloc index args v w = (r, v', w') → r = Undefined →
  resolve args (Some <$> (residue relocate_by_move <$> la) ++ lb) = None.
Proof.
  intros Hv -> Hfull.
  destruct (grown_capacity_models v _ _ Hv Hfull) as (_ & Hc1 & Hc2 & Hfit).
  destruct Hv as (Hs & Hn & Hc & Hm). rewrite app_nil_r in Hs.
  unfold EmplaceWithRealloc.
  set (c := grown_capacity (size_ v)) in *. simpl.
  destruct (RawMemory_new c w) as [r0 w1] eqn:Enew.
  apply (RawMemory_new_spec _ _ _ _ Hfit) in Enew
    as [(-> & Hmax & ->)|(-> & Hn0 & Hthrow & ->)]; cycle 1.
  { simpl. by intros [= <- <- <-]. }
  rewrite decide_False by lia. simpl.
  rewrite !uninitialized_relocate_n_eq, Hs, Hn.
  rewrite length_app in *.
  destruct (uninitialized_loop _ _ _ _ _ _ _ _) as [[[r1 old1] new1] w2] eqn:Eloop.
  eapply (uninitialized_loop_at _ _ _ [] (Some <$> lb) []
            (replicate (length la) None)
            (replicate (c - length la) None) la) in Eloop;
    [|by rewrite fmap_app|done|done| |done|by rewrite length_replicate
     |apply Forall_None_replicate]; cycle 1.
  { simpl; rewrite <- replicate_add; f_equal; lia. }
  destruct Eloop as [(-> & -> & -> & ->)
                    |(-> & l1 & y & l2 & -> & Hy & -> & -> & ->)]; cycle 1.
  { simpl. by intros [= <- <- <-]. }
  simpl. rewrite <- fmap_app.
  destruct (resolve args _) as [[e x]|] eqn:Eres; [|done].
  replace (c - length la) with (S (length lb + (c - S (length la + length lb))))
    by lia.
  simpl.
  erewrite construct_at_fresh; [|done|by rewrite length_fmap].
  rewrite after_after. simpl.
  destruct (throws (log w ++ EvAlloc c :: _) e) eqn:He.
  { by intros [= <- <- <-]. }
  rewrite uninitialized_relocate_n_eq, Nat.add_sub'.
  destruct (uninitialized_loop _ _ _ _ _ _ _ _) as [[[r2 old2] new3] w4] eqn:Eloop.
  eapply (uninitialized_loop_at _ _ _ (Some <$> (residue relocate_by_move <$> la))
            [] ((Some <$> la) ++ [Some x])
            (replicate (length lb) None)
            (replicate (c - S (length la + length lb)) None) lb) in Eloop;
    [|by rewrite fmap_app, app_nil_r|by rewrite !length_fmap|done|
     |by rewrite length_app, length_fmap, Nat.add_1_r
     |by rewrite length_replicate
     |apply Forall_None_replicate]; cycle 1.
  { by rewrite <- app_assoc, replicate_add. }
  destruct Eloop as [(-> & -> & -> & ->)
                    |(-> & l1 & y & l2 & -> & Hy & -> & -> & ->)]; cycle 1.
  { simpl. by intros [= <- <- <-]. }
  erewrite (destroy_n_at _ [] [] (residue relocate_by_move <$> la ++ lb));
    [|by rewrite !fmap_app, !app_nil_r|done|by rewrite length_fmap, length_app].
  by intros [= <- <- <-].
Qed.

Lemma EmplaceWithoutRealloc_undefined (index : nat) (args : Args T)
    (v : Vector T) la lb junk w r v' w' :
  models v (la ++ lb) junk → index = length la → size_ v ≠ Capacity v →
  EmplaceWithoutRealloc index args v w = (r, v', w') → r = Undefined →
  resolve args (slots v) = None ∨ junk = [].
Proof.
  intros (Hs & Hn & Hc & Hm) -> Hfull. rewrite length_app in *.
  unfold EmplaceWithoutRealloc.
  destruct (resolve args _) as [[e x]|] eqn:Eres; [|by left].
  destruct junk as [|h junk']; [by right|].
  unfold attempt. simpl.
  destruct (throws (log w) e) eqn:He; simpl.
  { by intros [= <- <- <-]. }
  destruct lb as [|z m _] using rev_ind.
  - rewrite decide_False by (rewrite Hn; simpl; lia).
    rewrite app_nil_r in *.
    erewrite construct_at_at; [|exact Hs|by rewrite length_fmap].
    simpl. destruct (throws _ (EvMoveCtor x)) eqn:Hx; by intros [= <- <- <-].
  - rewrite length_app in *. simpl in *.
    rewrite decide_True by lia.
    erewrite (move_construct_at_spec _ ((Some <$> la) ++ (Some <$> m)) junk' z h);
      [|rewrite Hs; solve_list|rewrite Hn, length_app, !length_fmap; lia
       |rewrite Hn, length_app, !length_fmap; lia].
    simpl. destruct (throws _ (EvMoveCtor z)) eqn:Hz.
    { by intros [= <- <- <-]. }
    destruct (shift_right _ _ _ _) as [[r1 b2] w3] eqn:Eshift.
    eapply (shift_right_at _ (Some <$> la) (Some z :: junk') m (moved_from z))
      in Eshift;
      [|solve_list|by rewrite length_fmap|rewrite Hn, length_fmap; lia].
    destruct Eshift
      as [(-> & -> & ->)|(-> & (zs & Hzs & ->) & (es & ->) & Hthrow)]; cycle 1.
    { by intros [= <- <- <-]. }
    erewrite move_assign_from_spec; [|done|by rewrite length_fmap].
    destruct (throws _ (EvMoveAssign _ x)) eqn:Hx; by intros [= <- <- <-].
Qed.

(** ** When an operation returns *)

(** [Hq] says that a run is quiet in which [e], after [es1], throws. *)
Ltac quiet_at es1 e es2 Hq :=
  exfalso; apply (eq_true_false_abs _ Hq);
  match goal with
  | |- quiet _ ?L = false =>
    replace L with (es1 ++ e :: es2) by solve_list
  end;
  apply quiet_throws.

Lemma models_room (v : Vector T) l junk :
  models v l junk → size_ v ≠ Capacity v → intact v → junk ≠ [].
Proof.
  intros Hm Hroom Hi ->. pose proof (models_intact _ _ _ Hm Hi) as Hcap.
  destruct Hm as (_ & Hn & _). simpl in Hcap. lia.
Qed.

Lemma grown_capacity_max `{!Lawful T} (v : Vector T) l junk :
  models v l junk → size_ v = Capacity v →
  grown_capacity (size_ v) = 1 `max` (2 * Capacity v).
Proof.
  intros Hm Hfull.
  destruct (grown_capacity_models _ _ _ Hm Hfull) as (_ & _ & -> & _).
  destruct Hm as (_ & Hn & _). case_decide; lia.
Qed.

Lemma Reserve_quiet `{!Lawful T} (n : nat) (v : Vector T) l junk w :
  models v l junk → Capacity v < n → fits_size_t n →
  quiet (log w) (EvAlloc n :: (relocation_ctor relocate_by_move <$> l)) = true →
  (Reserve n v w).1.1 = Returned tt.
Proof.
  intros Hm Hlt Hfit Hq. destruct (Reserve n v w) as [[r v'] w'] eqn:Hop.
  simpl.
  destruct (Reserve_spec n v l junk w r v' w' Hm Hop)
    as [(? & -> & _)
       |[(_ & -> & _)
        |[(_ & _ & _ & _ & Hx)
         |[(_ & _ & l1 & x & l2 & -> & Hx & _)
          |(_ & _ & Hnf & _)]]]]; [done|done| | |done].
  - by rewrite (quiet_first _ _ _ Hx) in Hq.
  - quiet_at (EvAlloc n :: (relocation_ctor relocate_by_move <$> l1))
      (relocation_ctor relocate_by_move x)
      (relocation_ctor relocate_by_move <$> l2) Hq.
    done.
Qed.

Lemma EmplaceBack_growth_quiet `{!Lawful T} (args : Args T) (v : Vector T)
    l junk w e x :
  models v l junk → size_ v = Capacity v →
  resolve args (Some <$> (residue relocate_by_move <$> l)) = Some (e, x) →
  quiet (log w) (EvAlloc (grown_capacity (size_ v))
                 :: (relocation_ctor relocate_by_move <$> l) ++ [e]) = true →
  (EmplaceBack args v w).1.1 = Returned (size_ v).
Proof.
  intros Hm Hfull Hres Hq.
  destruct (EmplaceBack args v w) as [[r v'] w'] eqn:Hop. simpl.
  assert (r = Undefined ∨ r ≠ Undefined) as [->|Hr]
    by (destruct r; by auto).
  { by rewrite (EmplaceBack_growth_undefined _ _ _ _ _ _ _ _ Hm Hfull Hop)
      in Hres. }
  pose proof Hm as (_ & Hn & _).
  pose proof (grown_capacity_models _ _ _ Hm Hfull) as (-> & _).
  eapply EmplaceBack_growth_spec in Hop; [|done..].
  set (c := grown_capacity (size_ v)) in *.
  destruct Hop
    as [(_ & _ & _ & Hx)
       |[(_ & l1 & y & l2 & -> & Hx & _)
        |(e' & x' & Hres' & [(_ & Hx & _)|(-> & _)])]].
  - by rewrite (quiet_first _ _ _ Hx) in Hq.
  - quiet_at (EvAlloc c :: (relocation_ctor relocate_by_move <$> l1))
      (relocation_ctor relocate_by_move y)
      ((relocation_ctor relocate_by_move <$> l2) ++ [e]) Hq.
    done.
  - rewrite Hres in Hres'. injection Hres' as <- <-.
    quiet_at (EvAlloc c :: (relocation_ctor relocate_by_move <$> l))
      e (@nil (Event T)) Hq.
    done.
  - by rewrite Hn.
Qed.

Lemma EmplaceBack_inplace_returns (args : Args T) (v : Vector T) l junk w e x :
  models v l junk → size_ v ≠ Capacity v → intact v →
  resolve args (slots v) = Some (e, x) → throws (log w) e = false →
  (EmplaceBack args v w).1.1 = Returned (size_ v).
Proof.
  intros Hm Hroom Hi Hres He.
  pose proof (models_room _ _ _ Hm Hroom Hi) as Hj.
  destruct Hm as (Hs & Hn & _).
  unfold EmplaceBack. rewrite decide_False, Hres by done.
  destruct junk as [|h junk']; [done|].
  erewrite construct_at_at; [|exact Hs|by rewrite length_fmap].
  by rewrite He.
Qed.

Lemma Emplace_growth_quiet `{!Lawful T} (pos : nat) (args : Args T)
    (v : Vector T) l junk w e x :
  models v l junk → size_ v = Capacity v → pos ≤ size_ v →
  resolve args (Some <$> (residue relocate_by_move <$> take pos l)
                         ++ drop pos l) = Some (e, x) →
  quiet (log w) (EvAlloc (grown_capacity (size_ v))
                 :: (relocation_ctor relocate_by_move <$> take pos l) ++ [e]
                 ++ (relocation_ctor relocate_by_move <$> drop pos l)) = true →
  (Emplace pos args v w).1.1 = Returned pos.
Proof.
  intros Hm Hfull Hpos Hres Hq.
  destruct (Emplace pos args v w) as [[r v'] w'] eqn:Hop. simpl.
  unfold Emplace in Hop. rewrite !decide_True in Hop by done.
  pose proof Hm as (_ & Hn & _).
  pose proof (grown_capacity_models _ _ _ Hm Hfull) as (-> & _).
  assert (Hla : pos = length (take pos l)) by (rewrite length_take; lia).
  rewrite <- (take_drop pos l) in Hm.
  assert (r = Undefined ∨ r ≠ Undefined) as [->|Hr]
    by (destruct r; by auto).
  { by rewrite (EmplaceWithRealloc_undefined _ _ _ _ _ _ _ _ _ Hm Hla Hfull Hop)
      in Hres. }
  eapply EmplaceWithRealloc_spec in Hop; [|done..].
  set (c := grown_capacity (size_ v)) in *.
  set (la := take pos l) in *. set (lb := drop pos l) in *.
  destruct Hop
    as [(_ & _ & _ & Hx)
       |[(_ & l1 & y & l2 & Hl & Hx & _)
        |(e' & x' & Hres' & [(_ & Hx & _)
                            |[(_ & l1 & y & l2 & Hl & Hx & _)|(-> & _)]])]].
  - by rewrite (quiet_first _ _ _ Hx) in Hq.
  - rewrite Hl in Hq.
    quiet_at (EvAlloc c :: (relocation_ctor relocate_by_move <$> l1))
      (relocation_ctor relocate_by_move y)
      ((relocation_ctor relocate_by_move <$> l2) ++ [e]
       ++ (relocation_ctor relocate_by_move <$> lb)) Hq.
    done.
  - rewrite Hres in Hres'. injection Hres' as <- <-.
    quiet_at (EvAlloc c :: (relocation_ctor relocate_by_move <$> la))
      e (relocation_ctor relocate_by_move <$> lb) Hq.
    done.
  - rewrite Hres in Hres'. injection Hres' as <- <-. rewrite Hl in Hq.
    quiet_at (EvAlloc c :: (relocation_ctor relocate_by_move <$> la) ++ [e]
              ++ (relocation_ctor relocate_by_move <$> l1))
      (relocation_ctor relocate_by_move y)
      (relocation_ctor relocate_by_move <$> l2) Hq.
    done.
  - done.
Qed.



(** ** The claims *)

Lemma EmplaceBack_returned_capacity `{!Lawful T} (args : Args T)
    (v : Vector T) l junk w i v' w' :
  models v l junk →
  EmplaceBack args v w = (Returned i, v', w') →
  (size_ v = Capacity v → Capacity v' = 1 `max` (2 * Capacity v))
  ∧ (size_ v ≠ Capacity v → Capacity v' = Capacity v).
Proof.
  intros Hm Hop. unfold EmplaceBack in Hop.
  case_decide as Hfull.
  - split; [intros _|done].
    rewrite (grown_capacity_max _ _ _ Hm Hfull) in Hop.
    unfold RawMemory_new, Allocate in Hop.
    repeat (case_match; simplify_eq; try done).
  - split; [done|intros _].
    repeat (case_match; simplify_eq; try done).
Qed.

Lemma PushBack_copy_outcome (value : Ref T) (v : Vector T) (w : World T) i :
  (EmplaceBack (ByCopy value) v w).1.1 = Returned i →
  (PushBack_copy value v w).1.1 = Returned tt
  ∧ (PushBack_copy value v w).1.2 = (EmplaceBack (ByCopy value) v w).1.2.
Proof.
  unfold PushBack_copy.
  destruct (EmplaceBack _ v w) as [[[j| |] v1] w1]; simpl; by intros.
Qed.

Lemma PushBack_move_outcome (value : T) (v : Vector T) (w : World T) i :
  (EmplaceBack (ByMove value) v w).1.1 = Returned i →
  (PushBack_move value v w).1.1 = Returned tt
  ∧ (PushBack_move value v w).1.2 = (EmplaceBack (ByMove value) v w).1.2.
Proof.
  unfold PushBack_move.
  destruct (EmplaceBack _ v w) as [[[j| |] v1] w1]; simpl; by intros.
Qed.

(** C4: appending to a full vector of capacity [c] with EmplaceBack or
    PushBack, when the call returns, leaves capacity [max 1 (2 * c)], that
    is 1 for [c = 0] and [2 * c] otherwise; appending to a vector that has
    room leaves the capacity as it was.  The capacity of a
    default-constructed vector is 0.  And the calls do return: on a full
    vector whenever the allocation of [max 1 (2 * c)] elements, the
    relocation of the elements and the construction of the new one all
    complete, on a vector that has room in its block whenever the
    construction of the new element completes. *)
Theorem append_capacity `{!Lawful T} (v : Vector T) (w : World T) :
  reachable v →
  let grows v' :=
    (size_ v = Capacity v →
     Capacity v' = 1 `max` (2 * Capacity v)
     ∧ (Capacity v = 0 → Capacity v' = 1)
     ∧ (Capacity v ≠ 0 → Capacity v' = 2 * Capacity v))
    ∧ (size_ v ≠ Capacity v → Capacity v' = Capacity v) in
  let growth e :=
    EvAlloc (1 `max` (2 * Capacity v))
    :: (relocation_ctor relocate_by_move <$> elements v) ++ [e] in
  let relocated := Some <$> (residue relocate_by_move <$> elements v) in
  Capacity (@Vector_default T) = 0
  ∧ (∀ args i v' w', EmplaceBack args v w = (Returned i, v', w') → grows v')
  ∧ (∀ value v' w', PushBack_copy value v w = (Returned tt, v', w') → grows v')
  ∧ (∀ value v' w', PushBack_move value v w = (Returned tt, v', w') → grows v')
  ∧ (∀ args e x,
       size_ v = Capacity v → resolve args relocated = Some (e, x) →
       quiet (log w) (growth e) = true →
       (EmplaceBack args v w).1.1 = Returned (size_ v)
       ∧ Capacity (EmplaceBack args v w).1.2 = 1 `max` (2 * Capacity v))
  ∧ (∀ value e x,
       size_ v = Capacity v → resolve (ByCopy value) relocated = Some (e, x) →
       quiet (log w) (growth e) = true →
       (PushBack_copy value v w).1.1 = Returned tt
       ∧ Capacity (PushBack_copy value v w).1.2 = 1 `max` (2 * Capacity v))
  ∧ (∀ value,
       size_ v = Capacity v → quiet (log w) (growth (EvMoveCtor value)) = true →
       (PushBack_move value v w).1.1 = Returned tt
       ∧ Capacity (PushBack_move value v w).1.2 = 1 `max` (2 * Capacity v))
  ∧ (∀ args e x,
       size_ v ≠ Capacity v → intact v →
       resolve args (slots v) = Some (e, x) → throws (log w) e = false →
       (EmplaceBack args v w).1.1 = Returned (size_ v)
       ∧ Capacity (EmplaceBack args v w).1.2 = Capacity v).
Proof.
  intros Hreach grows growth relocated.
  destruct (reachable_models v Hreach) as [junk Hm].
  assert (Hg : ∀ args i v' w',
             EmplaceBack args v w = (Returned i, v', w') → grows v').
  { intros args i v' w' Hop.
    destruct (EmplaceBack_returned_capacity _ _ _ _ _ _ _ _ Hm Hop)
      as [Hfull Hroom].
    split; [|done]. intros Heq. specialize (Hfull Heq). lia. }
  assert (Hfullret : ∀ args e x,
            size_ v = Capacity v → resolve args relocated = Some (e, x) →
            quiet (log w) (growth e) = true →
            (EmplaceBack args v w).1.1 = Returned (size_ v)
            ∧ Capacity (EmplaceBack args v w).1.2 = 1 `max` (2 * Capacity v)).
  { intros args e x Hfull Hres Hq.
    assert (Hret : (EmplaceBack args v w).1.1 = Returned (size_ v)).
    { eapply EmplaceBack_growth_quiet; [done|done|exact Hres|].
      by rewrite (grown_capacity_max _ _ _ Hm Hfull). }
    split; [done|].
    destruct (EmplaceBack args v w) as [[r v'] w'] eqn:Hop.
    simpl in Hret |- *. subst r.
    destruct (Hg _ _ _ _ Hop) as [Hcap _]. by destruct (Hcap Hfull). }
  split; [done|]. split; [done|]. split; [|split; [|split; [done|split;
    [|split]]]].
  - intros value v' w' Hop.
    apply PushBack_copy_returned in Hop as [i Hop]. by eapply Hg.
  - intros value v' w' Hop.
    apply PushBack_move_returned in Hop as [i Hop]. by eapply Hg.
  - intros value e x Hfull Hres Hq.
    destruct (Hfullret _ _ _ Hfull Hres Hq) as [Hret Hcap].
    destruct (PushBack_copy_outcome value v w _ Hret) as [-> ->]. done.
  - intros value Hfull Hq.
    destruct (Hfullret (ByMove value) _ value Hfull eq_refl Hq) as [Hret Hcap].
    destruct (PushBack_move_outcome value v w _ Hret) as [-> ->]. done.
  - intros args e x Hroom Hi Hres He.
    assert (Hret : (EmplaceBack args v w).1.1 = Returned (size_ v))
      by by eapply EmplaceBack_inplace_returns.
    split; [done|].
    destruct (EmplaceBack args v w) as [[r v'] w'] eqn:Hop.
    simpl in Hret |- *. subst r.
    destruct (Hg _ _ _ _ Hop) as [_ Hcap]. by apply Hcap.
Qed.

(** C9: copy-assigning a vector to itself returns at once: size, capacity
    and elements stay as they are, and the world is untouched, so that no
    element is copied, constructed or destroyed and no memory is allocated
    or released. *)
Theorem self_copy_assign_noop (v : Vector T) (w : World T) :
  Vector_copy_assign This v w = (Returned tt, v, w).
Proof. reflexivity. Qed.

(** C10: Resize to a smaller size, PopBack and Erase leave the capacity as
    it was, whatever the outcome; so do the calls that need no new block: a
    Reserve or Resize within the capacity, EmplaceBack and Emplace (hence
    PushBack and Insert) on a vector that has room, and a copy assignment
    from itself or from a vector no larger than the capacity. *)
Theorem capacity_frame (v : Vector T) (w : World T) :
  (∀ n, n < size_ v → Capacity (Resize n v w).1.2 = Capacity v)
  ∧ Capacity (PopBack v w).1.2 = Capacity v
  ∧ (∀ pos, Capacity (Erase pos v w).1.2 = Capacity v)
  ∧ (∀ n, n ≤ Capacity v → Capacity (Reserve n v w).1.2 = Capacity v)
  ∧ (∀ n, n ≤ Capacity v → Capacity (Resize n v w).1.2 = Capacity v)
  ∧ (∀ args, size_ v ≠ Capacity v →
       Capacity (EmplaceBack args v w).1.2 = Capacity v)
  ∧ (∀ value, size_ v ≠ Capacity v →
       Capacity (PushBack_copy value v w).1.2 = Capacity v)
  ∧ (∀ value, size_ v ≠ Capacity v →
       Capacity (PushBack_move value v w).1.2 = Capacity v)
  ∧ (∀ pos args, size_ v ≠ Capacity v →
       Capacity (Emplace pos args v w).1.2 = Capacity v)
  ∧ (∀ rhs, size_ rhs ≤ Capacity v →
       Capacity (Vector_copy_assign (Other rhs) v w).1.2 = Capacity v)
  ∧ Capacity (Vector_copy_assign This v w).1.2 = Capacity v.
Proof.
  assert (HEB : ∀ args, size_ v ≠ Capacity v →
            Capacity (EmplaceBack args v w).1.2 = Capacity v).
  { intros args Hroom. unfold EmplaceBack. rewrite decide_False by done.
    repeat case_match; done. }
  repeat split.
  - intros n Hn. unfold Resize. rewrite decide_True by done.
    repeat case_match; done.
  - unfold PopBack. repeat case_match; done.
  - intros pos. unfold Erase. repeat case_match; done.
  - intros n Hn. unfold Reserve. by rewrite decide_True.
  - intros n Hn. unfold Resize.
    rewrite (decide_False (P := Capacity v < n)) by lia.
    repeat case_match; simplify_eq; done.
  - done.
  - intros value Hroom. specialize (HEB (ByCopy value) Hroom).
    unfold PushBack_copy. repeat case_match; simplify_eq; done.
  - intros value Hroom. specialize (HEB (ByMove value) Hroom).
    unfold PushBack_move. repeat case_match; simplify_eq; done.
  - intros pos args Hroom. unfold Emplace.
    case_decide; [|done]. rewrite decide_False by done.
    unfold EmplaceWithoutRealloc. repeat case_match; done.
  - intros rhs Hn. unfold Vector_copy_assign.
    rewrite decide_False by lia. repeat case_match; done.
Qed.


Lemma copy_constructions_app (es1 es2 : list (Event T)) :
  copy_constructions (es1 ++ es2)
  = copy_constructions es1 + copy_constructions es2.
Proof.
  induction es1 as [|e es1 IH]; [done|]. destruct e; simpl; rewrite IH; done.
Qed.

Lemma copy_constructions_move (l : list T) :
  copy_constructions (EvMoveCtor <$> l) = 0.
Proof. by induction l. Qed.

Lemma copy_constructions_dtor (l : list T) :
  copy_constructions (EvDtor <$> l) = 0.
Proof. by induction l. Qed.

Lemma copy_constructions_resolve (args : Args T) (own : block) e x :
  resolve args own = Some (e, x) →
  copy_constructions [e] = copies_built_by args.
Proof.
  destruct args as [[y|j]|y|y]; simpl; try (intros; by simplify_eq).
  destruct (own !! j) as [[z|]|]; intros; by simplify_eq.
Qed.

Lemma take_snoc (l1 : list T) (x : T) (l2 : list T) :
  take (S (length l1)) (l1 ++ x :: l2) = l1 ++ [x].
Proof.
  replace (S (length l1)) with (length (l1 ++ [x]))
    by (rewrite length_app; simpl; lia).
  rewrite (snoc_app l1 l2 x). apply take_app_length.
Qed.

Lemma Reserve_relocation `{!Lawful T} (n : nat) (v : Vector T) l junk
    w r v' w' :
  models v l junk → Capacity v < n → Reserve n v w = (r, v', w') →
  r ≠ Undefined →
  ∃ j ds,
    log w' = log w ++ EvAlloc n
               :: (relocation_ctor relocate_by_move <$> take j l)
               ++ (EvDtor <$> ds)
    ∧ (r = Returned tt
       → j = length l ∧ ds = residue relocate_by_move <$> l).
Proof.
  intros Hm Hlt Hop Hr.
  destruct (Reserve_spec n v l junk w r v' w' Hm Hop)
    as [(? & _)
       |[(_ & -> & m & _ & _ & _ & _ & _ & _ & ->)
        |[(_ & -> & _ & -> & _)
         |[(_ & -> & l1 & x & l2 & -> & _ & _ & ->)
          |(_ & ? & _)]]]]; [lia| | | |done].
  - exists (length l), (residue relocate_by_move <$> l).
    by rewrite take_ge by done.
  - exists 0, []. split; [|done]. by rewrite take_0.
  - exists (S (length l1)), l1. split; [|done].
    rewrite take_snoc. simpl. do 2 f_equal. solve_list.
Qed.

Lemma EmplaceBack_relocation `{!Lawful T} (args : Args T) (v : Vector T)
    l junk w r v' w' :
  models v l junk → size_ v = Capacity v →
  EmplaceBack args v w = (r, v', w') → r ≠ Undefined →
  ∃ j new ds,
    log w' = log w ++ EvAlloc (grown_capacity (size_ v))
               :: (relocation_ctor relocate_by_move <$> take j l)
               ++ new ++ (EvDtor <$> ds)
    ∧ (new = [] ∨ j = length l ∧ ∃ e x,
         resolve args (Some <$> (residue relocate_by_move <$> l)) = Some (e, x)
         ∧ new = [e])
    ∧ (∀ i, r = Returned i
            → j = length l ∧ new ≠ [] ∧ ds = residue relocate_by_move <$> l).
Proof.
  intros Hm Hfull Hop Hr.
  pose proof (grown_capacity_models _ _ _ Hm Hfull) as (-> & _).
  eapply EmplaceBack_growth_spec in Hop; [|done..].
  destruct Hop
    as [(-> & _ & -> & _)
       |[(-> & l1 & y & l2 & -> & _ & _ & ->)
        |(e & x & Hres & [(-> & _ & _ & ->)|(-> & _ & _ & _ & ->)])]].
  - exists 0, [], []. rewrite take_0. split; [done|]. split; [by left|done].
  - exists (S (length l1)), [], l1. rewrite take_snoc.
    split; [|split; [by left|done]].
    simpl. do 2 f_equal. solve_list.
  - exists (length l), [e], l. rewrite take_ge by done.
    split; [done|]. split; [|done]. right. split; [done|]. by exists e, x.
  - exists (length l), [e], (residue relocate_by_move <$> l).
    rewrite take_ge by done.
    split; [done|]. split; [|done]. right. split; [done|]. by exists e, x.
Qed.

Lemma Emplace_relocation `{!Lawful T} (pos : nat) (args : Args T)
    (v : Vector T) l junk w r v' w' :
  models v l junk → size_ v = Capacity v →
  Emplace pos args v w = (r, v', w') → r ≠ Undefined →
  ∃ j1 new j2 ds,
    log w' = log w ++ EvAlloc (grown_capacity (size_ v))
               :: (relocation_ctor relocate_by_move <$> take j1 (take pos l))
               ++ new
               ++ (relocation_ctor relocate_by_move <$> take j2 (drop pos l))
               ++ (EvDtor <$> ds)
    ∧ (new = [] ∧ j2 = 0
       ∨ j1 = pos ∧ ∃ e x,
           resolve args (Some <$> (residue relocate_by_move <$> take pos l)
                                  ++ drop pos l) = Some (e, x)
           ∧ new = [e])
    ∧ (∀ i, r = Returned i
            → j1 = pos ∧ new ≠ [] ∧ j2 = length l - pos
              ∧ ds = residue relocate_by_move <$> l).
Proof.
  intros Hm Hfull Hop Hr. unfold Emplace in Hop.
  case_decide as Hpos; [|by simplify_eq]. rewrite decide_True in Hop by done.
  pose proof Hm as (_ & Hn & _).
  pose proof (grown_capacity_models _ _ _ Hm Hfull) as (-> & _).
  assert (Hla : pos = length (take pos l)) by (rewrite length_take; lia).
  rewrite <- (take_drop pos l) in Hm.
  eapply EmplaceWithRealloc_spec in Hop; [|done..].
  set (la := take pos l) in *. set (lb := drop pos l) in *.
  assert (Hlb : length lb = length l - pos) by (unfold lb; by rewrite length_drop).
  destruct Hop
    as [(-> & _ & -> & _)
       |[(-> & l1 & y & l2 & Hl & _ & _ & ->)
        |(e & x & Hres & [(-> & _ & _ & ->)
                         |[(-> & l1 & y & l2 & Hl & _ & _ & ->)
                          |(-> & _ & _ & ->)]])]].
  - exists 0, [], 0, []. rewrite !take_0. split; [done|].
    split; [by left|done].
  - exists (S (length l1)), [], 0, l1.
    replace (take (S (length l1)) la) with (l1 ++ [y])
      by (by rewrite Hl, take_snoc).
    rewrite take_0.
    split; [|split; [by left|done]].
    simpl. do 2 f_equal. solve_list.
  - exists pos, [e], 0, []. rewrite take_0, (take_ge la) by lia.
    split; [simpl; do 2 f_equal; solve_list|].
    split; [|done]. right. split; [done|]. by exists e, x.
  - exists pos, [e], (S (length l1)), l1.
    rewrite (take_ge la) by lia.
    replace (take (S (length l1)) lb) with (l1 ++ [y])
      by (by rewrite Hl, take_snoc).
    split; [simpl; do 2 f_equal; solve_list|].
    split; [|done]. right. split; [done|]. by exists e, x.
  - exists pos, [e], (length lb), (residue relocate_by_move <$> l).
    rewrite (take_ge la), (take_ge lb) by lia.
    split; [|split].
    + simpl. do 2 f_equal. unfold la, lb. rewrite take_drop. solve_list.
    + right. split; [done|]. by exists e, x.
    + intros i _. done.
Qed.

(** C5: relocation into a new block runs the move constructor exactly when
    the move constructor of the element type cannot throw or the type is not
    copy-constructible, and the copy constructor otherwise.  Whatever the
    outcome of a Reserve that needs a larger block, of an EmplaceBack on a
    full vector and of an Emplace on a full vector, the operations run are:
    the allocation, that constructor for the existing elements in order, as
    far as the call got (split around the constructor of the new element for
    Emplace), the constructor of the new element, and destructors; when the
    call returns every element has been relocated so and the old objects
    have been destroyed.  Each of the three calls returns whenever none of
    these operations throws.  With a non-throwing move constructor no
    existing element is ever copied: the only copy construction there can
    be is that of the new element. *)
Theorem relocation_policy `{!Lawful T} (v : Vector T) (w : World T) :
  reachable v →
  let by_move := is_nothrow_move_constructible || negb is_copy_constructible in
  let ctor x := if by_move then EvMoveCtor x else EvCopyCtor x in
  let left_behind x := if by_move then moved_from x else x in
  let l := elements v in
  let c := 1 `max` (2 * size_ v) in
  (∀ n r v' w',
     Capacity v < n → Reserve n v w = (r, v', w') → r ≠ Undefined →
     ∃ j ds,
       log w' = log w ++ EvAlloc n :: (ctor <$> take j l) ++ (EvDtor <$> ds)
       ∧ (r = Returned tt → j = size_ v ∧ ds = left_behind <$> l)
       ∧ (is_nothrow_move_constructible = true →
          copy_constructions
            (EvAlloc n :: (ctor <$> take j l) ++ (EvDtor <$> ds)) = 0))
  ∧ (∀ n,
       Capacity v < n → fits_size_t n →
       quiet (log w) (EvAlloc n :: (ctor <$> l)) = true →
       (Reserve n v w).1.1 = Returned tt)
  ∧ (∀ args r v' w',
       size_ v = Capacity v → EmplaceBack args v w = (r, v', w') →
       r ≠ Undefined →
       ∃ j new ds,
         log w' = log w ++ EvAlloc c :: (ctor <$> take j l) ++ new
                    ++ (EvDtor <$> ds)
         ∧ (new = [] ∨ j = size_ v ∧ ∃ e x,
              resolve args (Some <$> (left_behind <$> l)) = Some (e, x)
              ∧ new = [e])
         ∧ (∀ i, r = Returned i
                 → j = size_ v ∧ new ≠ [] ∧ ds = left_behind <$> l)
         ∧ (is_nothrow_move_constructible = true →
            copy_constructions
              (EvAlloc c :: (ctor <$> take j l) ++ new ++ (EvDtor <$> ds))
            ≤ copies_built_by args))
  ∧ (∀ args e x,
       size_ v = Capacity v →
       resolve args (Some <$> (left_behind <$> l)) = Some (e, x) →
       quiet (log w) (EvAlloc c :: (ctor <$> l) ++ [e]) = true →
       (EmplaceBack args v w).1.1 = Returned (size_ v))
  ∧ (∀ pos args r v' w',
       size_ v = Capacity v → Emplace pos args v w = (r, v', w') →
       r ≠ Undefined →
       ∃ j1 new j2 ds,
         log w' = log w ++ EvAlloc c :: (ctor <$> take j1 (take pos l)) ++ new
                    ++ (ctor <$> take j2 (drop pos l)) ++ (EvDtor <$> ds)
         ∧ (new = [] ∧ j2 = 0
            ∨ j1 = pos ∧ ∃ e x,
                resolve args (Some <$> (left_behind <$> take pos l)
                                       ++ drop pos l) = Some (e, x)
                ∧ new = [e])
         ∧ (∀ i, r = Returned i
                 → j1 = pos ∧ new ≠ [] ∧ j2 = size_ v - pos
                   ∧ ds = left_behind <$> l)
         ∧ (is_nothrow_move_constructible = true →
            copy_constructions
              (EvAlloc c :: (ctor <$> take j1 (take pos l)) ++ new
               ++ (ctor <$> take j2 (drop pos l)) ++ (EvDtor <$> ds))
            ≤ copies_built_by args))
  ∧ (∀ pos args e x,
       size_ v = Capacity v → pos ≤ size_ v →
       resolve args (Some <$> (left_behind <$> take pos l) ++ drop pos l)
       = Some (e, x) →
       quiet (log w) (EvAlloc c :: (ctor <$> take pos l) ++ [e]
                      ++ (ctor <$> drop pos l)) = true →
       (Emplace pos args v w).1.1 = Returned pos).
Proof.
  intros Hreach by_move ctor left_behind l c.
  destruct (reachable_models v Hreach) as [junk Hm].
  fold l in Hm. pose proof Hm as (_ & Hn & _).
  assert (Hc : size_ v = Capacity v → grown_capacity (size_ v) = c).
  { intros Hfull. rewrite (grown_capacity_max _ _ _ Hm Hfull).
    unfold c. by rewrite Hfull. }
  assert (Hmove : is_nothrow_move_constructible = true →
                  ∀ k, copy_constructions (ctor <$> k) = 0).
  { intros Hno k. unfold ctor, by_move. rewrite Hno. simpl.
    apply copy_constructions_move. }
  split; [|split; [|split; [|split; [|split]]]].
  - intros n r v' w' Hlt Hop Hr.
    destruct (Reserve_relocation n v l junk w r v' w' Hm Hlt Hop Hr)
      as (j & ds & Hlog & Hret).
    exists j, ds. split; [done|]. split; [by rewrite Hn|].
    intros Hno. cbn [copy_constructions].
    by rewrite copy_constructions_app, Hmove, copy_constructions_dtor.
  - intros n Hlt Hfit Hq. by eapply Reserve_quiet.
  - intros args r v' w' Hfull Hop Hr.
    destruct (EmplaceBack_relocation args v l junk w r v' w' Hm Hfull Hop Hr)
      as (j & new & ds & Hlog & Hnew & Hret).
    rewrite (Hc Hfull) in Hlog.
    exists j, new, ds. split; [done|]. split; [by rewrite Hn|].
    split; [by rewrite Hn|].
    intros Hno. cbn [copy_constructions].
    rewrite !copy_constructions_app, Hmove, copy_constructions_dtor by done.
    destruct Hnew as [->|(_ & e & x & Hres & ->)]; [simpl; lia|].
    rewrite (copy_constructions_resolve _ _ _ _ Hres). lia.
  - intros args e x Hfull Hres Hq. rewrite <- (Hc Hfull) in Hq.
    by eapply EmplaceBack_growth_quiet.
  - intros pos args r v' w' Hfull Hop Hr.
    destruct (Emplace_relocation pos args v l junk w r v' w' Hm Hfull Hop Hr)
      as (j1 & new & j2 & ds & Hlog & Hnew & Hret).
    rewrite (Hc Hfull) in Hlog.
    exists j1, new, j2, ds. split; [done|]. split; [done|].
    split; [by rewrite Hn|].
    intros Hno. cbn [copy_constructions].
    rewrite !copy_constructions_app, !Hmove, copy_constructions_dtor by done.
    destruct Hnew as [[-> _]|(_ & e & x & Hres & ->)]; [simpl; lia|].
    rewrite (copy_constructions_resolve _ _ _ _ Hres). lia.
  - intros pos args e x Hfull Hpos Hres Hq. rewrite <- (Hc Hfull) in Hq.
    by eapply Emplace_growth_quiet.
Qed.


(** Relocation by copy keeps the strong guarantee of EmplaceBack: when the
    call throws on a full vector, the vector is as before and nothing is
    lost. *)
Theorem EmplaceBack_copy_relocation_strong `{!Lawful T} (args : Args T)
    (v : Vector T) (w : World T) v' w' :
  relocate_by_move = false → reachable v → size_ v = Capacity v →
  EmplaceBack args v w = (Thrown, v', w') →
  v' = v ∧ leaked w' = leaked w.
Proof.
  intros Hcopy Hreach Hfull Hop.
  destruct (reachable_models v Hreach) as [junk Hm].
  pose proof Hm as (Hs & _).
  destruct (grown_capacity_models _ _ _ Hm Hfull) as (Hj & _).
  rewrite Hj, app_nil_r in Hs.
  eapply EmplaceBack_growth_spec in Hop; [|done..].
  rewrite Hcopy in Hop. unfold residue in Hop.
  destruct Hop
    as [(_ & -> & -> & _)
       |[(_ & l1 & y & l2 & Hl & _ & -> & ->)
        |(e & x & _ & [(_ & _ & -> & ->)|(? & _)])]]; [done| | |done].
  - rewrite list_fmap_id, <- Hl, <- Hs. by rewrite with_slots_same.
  - rewrite list_fmap_id, <- Hs. by rewrite with_slots_same.
Qed.

(** On the reallocating path of Emplace, relocation by copy leaves the
    vector as it was when the call throws, but the objects already built
    in the new block are released with it: the prefix when the constructor
    of the new element throws, the prefix and the new element when a copy
    of the suffix throws. *)
Theorem Emplace_copy_relocation_throw `{!Lawful T} (pos : nat)
    (args : Args T) (v : Vector T) (w : World T) v' w' :
  relocate_by_move = false → reachable v → size_ v = Capacity v →
  pos ≤ size_ v → Emplace pos args v w = (Thrown, v', w') →
  v' = v
  ∧ (leaked w' = leaked w
     ∨ leaked w' = leaked w ++ take pos (elements v)
     ∨ ∃ x, leaked w' = leaked w ++ take pos (elements v) ++ [x]).
Proof.
  intros Hcopy Hreach Hfull Hpos Hop.
  destruct (reachable_models v Hreach) as [junk Hm].
  set (l := elements v) in *. pose proof Hm as (Hs & Hn & _).
  destruct (grown_capacity_models _ _ _ Hm Hfull) as (Hj & _).
  rewrite Hj in Hm. rewrite Hj, app_nil_r in Hs.
  unfold Emplace in Hop. rewrite !decide_True in Hop by done.
  eapply (EmplaceWithRealloc_spec pos args v (take pos l) (drop pos l))
    in Hop; [|by rewrite take_drop|rewrite length_take; lia|done|done].
  rewrite Hcopy in Hop. unfold residue in Hop.
  destruct Hop
    as [(_ & -> & -> & _)
       |[(_ & l1 & y & l2 & Hl & _ & -> & ->)
        |(e & x & _ & [(_ & _ & -> & ->)
                      |[(_ & l1 & y & l2 & Hl & _ & -> & ->)|(? & _)]])]];
    [by auto| | | |done].
  - split; [|by auto].
    rewrite list_fmap_id.
    replace (l1 ++ y :: l2 ++ drop pos l) with ((l1 ++ y :: l2) ++ drop pos l)
      by by rewrite <- app_assoc.
    rewrite <- Hl, take_drop, <- Hs. by rewrite with_slots_same.
  - split; [|by auto].
    rewrite list_fmap_id, take_drop, <- Hs. by rewrite with_slots_same.
  - split; [|by eauto].
    rewrite !list_fmap_id, <- Hl, take_drop, <- Hs. by rewrite with_slots_same.
Qed.

Lemma resolve_outside (args : Args T) (x : T) (own : block) e y :
  outside_value args = Some x → resolve args own = Some (e, y) → y = x.
Proof. destruct args as [[?|?]|?|?]; simpl; intros; simplify_eq; done. Qed.

(** Emplace and Insert of a value that lives outside of the vector: when
    the call returns, on either path, the new element is at [pos], the
    former elements keep their order around it, and the size has grown by
    one. *)
Theorem Emplace_outside_returned `{!Lawful T} (pos : nat) (args : Args T)
    (x : T) (v : Vector T) (w : World T) i v' w' :
  reachable v → outside_value args = Some x →
  Emplace pos args v w = (Returned i, v', w') →
  i = pos ∧ pos ≤ size_ v ∧ size_ v' = S (size_ v)
  ∧ elements v' = take pos (elements v) ++ x :: drop pos (elements v)
  ∧ Vector_at v' pos = Returned x.
Proof.
  intros Hreach Hout Hop. destruct (reachable_models v Hreach) as [junk Hm].
  set (l := elements v) in *. clearbody l.
  pose proof Hm as (Hs & Hn & Hc & Hmax).
  unfold Emplace in Hop. case_decide as Hpos; [|done].
  assert (Hla : length (take pos l) = pos) by (rewrite length_take; lia).
  assert (Hlen : length (take pos l ++ drop pos l) = length l)
    by by rewrite take_drop.
  assert (Hat : ∀ (u : Vector T) junk,
            models u (take pos l ++ x :: drop pos l) junk →
            Vector_at u pos = Returned x).
  { intros u j Hu. rewrite (Vector_at_models _ _ _ pos Hu).
    rewrite lookup_app_r by lia. by rewrite Hla, Nat.sub_diag. }
  rewrite <- (take_drop pos l) in Hm.
  case_decide as Hfull.
  - pose proof (grown_capacity_models _ _ _ Hm Hfull) as (-> & Hc1 & _).
    eapply EmplaceWithRealloc_spec in Hop; [|done..].
    destruct Hop
      as [(? & _)|[(? & _)|(e & y & Hres & [(? & _)|[(? & _)|(Hi & -> & Hmax' & _)]])]];
      try done.
    apply (resolve_outside _ x) in Hres as ->; [|done].
    assert (Hm' : models
              (mkVector (mkRawMemory
                 ((Some <$> take pos l ++ x :: drop pos l)
                  ++ replicate (grown_capacity (size_ v)
                                - S (length (take pos l ++ drop pos l))) None)
                 (grown_capacity (size_ v)))
                 (S (length (take pos l ++ drop pos l))))
              (take pos l ++ x :: drop pos l)
              (replicate (grown_capacity (size_ v)
                          - S (length (take pos l ++ drop pos l))) None)).
    { replace (S (length (take pos l ++ drop pos l)))
        with (length (take pos l ++ x :: drop pos l)) at 2
        by (rewrite !length_app; simpl; lia).
      apply models_fresh; [|done]. rewrite !length_app in *. simpl. lia. }
    split; [by simplify_eq|]. split; [done|]. split; [simpl; lia|].
    split; [by apply (models_elements _ _ _ Hm')|]. by eapply Hat.
  - eapply EmplaceWithoutRealloc_spec in Hop; [|done..].
    destruct Hop
      as (e & y & Hres
          & [(? & _)|(h & junk' & -> & _ & [(Hi & -> & _)|[(? & _)|(? & _)]])]);
      try done.
    apply (resolve_outside _ x) in Hres as ->; [|done].
    assert (Hm' : models
              (mkVector (with_block (data_ v)
                 ((Some <$> take pos l ++ x :: drop pos l) ++ junk'))
                 (S (length (take pos l ++ drop pos l))))
              (take pos l ++ x :: drop pos l) junk').
    { replace (S (length (take pos l ++ drop pos l)))
        with (length (take pos l ++ x :: drop pos l))
        by (rewrite !length_app; simpl; lia).
      apply (models_reshape v _ (h :: junk') _ _ Hm).
      rewrite !length_app. simpl. lia. }
    split; [by simplify_eq|]. split; [done|]. split; [simpl; lia|].
    split; [by apply (models_elements _ _ _ Hm')|]. by eapply Hat.
Qed.

(** EmplaceBack and PushBack of a value that lives outside of the vector:
    when the call returns the new element is the last one, behind the
    former elements. *)
Theorem EmplaceBack_outside_returned `{!Lawful T} (args : Args T) (x : T)
    (v : Vector T) (w : World T) i v' w' :
  reachable v → outside_value args = Some x →
  EmplaceBack args v w = (Returned i, v', w') →
  i = size_ v ∧ size_ v' = S (size_ v) ∧ elements v' = elements v ++ [x].
Proof.
  intros Hreach Hout Hop. destruct (reachable_models v Hreach) as [junk Hm].
  set (l := elements v) in *. clearbody l.
  pose proof Hm as (Hs & Hn & Hc & Hmax).
  destruct (decide (size_ v = Capacity v)) as [Hfull|Hroom].
  - pose proof (grown_capacity_models _ _ _ Hm Hfull) as (-> & Hc1 & _).
    eapply EmplaceBack_growth_spec in Hop; [|done..].
    destruct Hop
      as [(? & _)|[(? & _)|(e & y & Hres & [(? & _)|(Hi & _ & -> & Hmax' & _)])]];
      try done.
    apply (resolve_outside _ x) in Hres as ->; [|done].
    assert (Hm' : models
              (mkVector (mkRawMemory
                 ((Some <$> l ++ [x])
                  ++ replicate (grown_capacity (size_ v) - S (length l)) None)
                 (grown_capacity (size_ v))) (S (length l)))
              (l ++ [x])
              (replicate (grown_capacity (size_ v) - S (length l)) None)).
    { replace (S (length l)) with (length (l ++ [x])) at 2
        by (rewrite length_app; simpl; lia).
      apply models_fresh; [|done]. rewrite length_app. simpl. lia. }
    split; [by simplify_eq|]. split; [simpl; lia|].
    by apply (models_elements _ _ _ Hm').
  - eapply EmplaceBack_inplace_spec in Hop; [|done..].
    destruct Hop as (e & y & h & junk' & Hres & -> & _
                     & [(? & _)|(Hi & _ & -> & _)]); try done.
    apply (resolve_outside _ x) in Hres as ->; [|done].
    assert (Hm' : models
              (mkVector (with_block (data_ v) ((Some <$> l ++ [x]) ++ junk'))
                 (S (length l)))
              (l ++ [x]) junk').
    { replace (S (length l)) with (length (l ++ [x]))
        by (rewrite length_app; simpl; lia).
      apply (models_reshape v l (h :: junk')); [done|].
      rewrite length_app. simpl. lia. }
    split; [by simplify_eq|]. split; [simpl; lia|].
    by apply (models_elements _ _ _ Hm').
Qed.

End Claims.

(** * Further properties of the operations *)

Section Operations.
Context {T : Type} `{Element T}.

Local Abbreviation block := (list (option T)).

Lemma models_strict (v : Vector T) l junk :
  models v l junk → tail_unconstructed v → Forall (.= None) junk.
Proof.
  intros (Hs & Hn & Hc & _) Ht. apply Forall_lookup. intros i x Hi.
  pose proof (lookup_lt_Some _ _ _ Hi) as Hlt.
  specialize (Ht (size_ v + i) ltac:(lia)).
  rewrite Hs, lookup_app_r in Ht by (rewrite length_fmap; lia).
  rewrite length_fmap, Hn in Ht.
  replace (length l + i - length l) with i in Ht by lia. congruence.
Qed.

Lemma tail_intact (v : Vector T) l junk :
  models v l junk → tail_unconstructed v → intact v.
Proof.
  intros Hm Ht. pose proof Hm as (Hs & Hn & Hc & _).
  destruct (decide (size_ v = Capacity v)) as [Hfull|Hroom].
  - by destruct (models_full _ _ _ Hm Hfull).
  - specialize (Ht (Capacity v - 1) ltac:(lia)).
    apply lookup_lt_Some in Ht.
    pose proof (models_length _ _ _ Hm). unfold intact. lia.
Qed.

Lemma strict_tail (v : Vector T) l junk :
  models v l junk → intact v → Forall (.= None) junk → tail_unconstructed v.
Proof. apply models_tail. Qed.

(** In every reachable state the size is at most the number of slots of
    the block, which is at most the capacity, and the slots below the size
    hold constructed elements.  When the move assignment of the element
    type cannot throw and the block has the slots its capacity says, the
    slots from the size up to the capacity hold no constructed element. *)
Theorem reachable_invariant `{!Lawful T} (v : Vector T) :
  reachable v →
  size_within_capacity v ∧ prefix_constructed v
  ∧ size_ v ≤ length (slots v) ∧ length (slots v) ≤ Capacity v
  ∧ (nothrow_move_assign → intact v → tail_unconstructed v).
Proof.
  intros Hreach.
  destruct (reachable_models v Hreach) as [junk Hm].
  pose proof (models_length _ _ _ Hm) as Hlen.
  pose proof Hm as (_ & Hn & Hc & _).
  destruct (models_semi _ _ _ Hm) as [Hsz Hp].
  split; [done|]. split; [done|]. split; [lia|]. split; [lia|].
  intros Hno Hint.
  destruct (inv_pointwise true v (reachable_inv true v ltac:(done) Hreach))
    as (_ & _ & Ht).
  by apply Ht.
Qed.

Lemma trait_choice `{!Lawful T} h x :
  is_nothrow_move_constructible = true ∨ is_copy_constructible = true →
  throws h (relocation_ctor relocate_by_move x) = true →
  relocate_by_move = false.
Proof.
  intros Htrait Hx. unfold relocate_by_move in *.
  destruct is_nothrow_move_constructible eqn:Hno.
  - simpl in Hx. by rewrite nothrow_move_sound in Hx.
  - destruct Htrait as [?| ->]; done.
Qed.

(** Reserve on a reachable vector leaves the size as it is, and a request
    within the capacity does nothing at all.  A larger request asks operator
    new for [n * sizeof(T)] bytes, a product computed in size_t.  When the
    product fits size_t the call never violates a precondition.  When the
    call returns, the elements are the same values in the same order and
    the capacity is the larger of the old capacity and the request; if a
    new block was needed, it has as many slots as the bytes obtained can
    hold, the elements come first and nothing is constructed behind them,
    and the operations run are one allocation, one relocation constructor
    per element and one destructor per old element, in that order.  The
    block has [n] slots when the product fits size_t; when it has wrapped
    around, the block has fewer slots than the capacity recorded with it,
    and if it has fewer slots than the vector has elements the relocation
    writes past its end.  When the call throws, a new block was needed, the
    capacity is unchanged and nothing is lost; the vector itself is exactly
    as before whenever the element type is nothrow-move-constructible or
    copy-constructible. *)
Theorem Reserve_grows_block `{!Lawful T} (n : nat) (v : Vector T) (w : World T)
    r v' w' :
  reachable v → Reserve n v w = (r, v', w') →
  size_ v' = size_ v
  ∧ (n ≤ Capacity v → r = Returned tt ∧ v' = v ∧ w' = w)
  ∧ (fits_size_t n → r ≠ Undefined)
  ∧ (r = Undefined →
     Capacity v < n ∧ ¬ fits_size_t n ∧ alloc_bytes n / sizeof < size_ v)
  ∧ (r = Returned tt →
     elements v' = elements v ∧ Capacity v' = Capacity v `max` n
     ∧ (Capacity v < n →
        slots v' = (Some <$> elements v)
                     ++ replicate (alloc_bytes n / sizeof - size_ v) None
        ∧ size_ v ≤ alloc_bytes n / sizeof
        ∧ (fits_size_t n → intact v' ∧ tail_unconstructed v')
        ∧ (¬ fits_size_t n → length (slots v') < Capacity v')
        ∧ log w' = log w ++ EvAlloc n
                     :: (relocation_ctor relocate_by_move <$> elements v)
                     ++ (EvDtor <$> (residue relocate_by_move <$> elements v))))
  ∧ (r = Thrown →
     Capacity v < n ∧ Capacity v' = Capacity v ∧ leaked w' = leaked w
     ∧ (is_nothrow_move_constructible = true ∨ is_copy_constructible = true →
        v' = v)).
Proof.
  intros Hreach Hop. destruct (reachable_models v Hreach) as [junk Hm].
  set (l := elements v) in *. clearbody l.
  pose proof Hm as (Hs & Hn & Hc & Hmax).
  destruct (Reserve_spec n v l junk w r v' w' Hm Hop)
    as [(Hle & -> & -> & ->)
       |[(Hlt & -> & m & Hm1 & Hm2 & Hm3 & Hm4 & Hm5 & -> & ->)
        |[(Hlt & -> & -> & -> & Hx)
         |[(Hlt & -> & l1 & x & l2 & -> & Hx & -> & ->)
          |(Hlt & -> & Hnf & Hshort & (l' & Hl' & ->) & _)]]]].
  - split; [done|]. split; [done|]. split; [done|]. split; [done|].
    split; [|done]. intros _. split; [by rewrite (models_elements _ _ _ Hm)|].
    split; [lia|]. lia.
  - assert (Hm' : models
              (mkVector (mkRawMemory ((Some <$> l)
                           ++ replicate (m - length l) None) n) (length l))
              l (replicate (m - length l) None)).
    { apply models_intro; try done; rewrite length_replicate.
      - lia.
      - eapply servable_eq; [done|lia]. }
    split; [done|]. split; [lia|]. split; [done|]. split; [done|].
    split; [|done]. intros _.
    split; [by rewrite (models_elements _ _ _ Hm')|].
    split; [unfold Capacity in *; simpl; lia|]. intros _.
    rewrite <- Hm1, Hn.
    split; [done|]. split; [done|].
    split; [|split; [|done]].
    + intros Hfit. specialize (Hm5 Hfit).
      assert (Hi : intact (mkVector (mkRawMemory ((Some <$> l)
                             ++ replicate (m - length l) None) n) (length l))).
      { unfold intact, slots, Capacity. simpl.
        rewrite length_app, length_fmap, length_replicate. lia. }
      split; [done|].
      eapply strict_tail; [done|done|]. apply Forall_None_replicate.
    + intros Hnf. pose proof (alloc_slots_wrapped n Hnf).
      unfold slots, Capacity. simpl.
      rewrite length_app, length_fmap, length_replicate. lia.
  - split; [done|]. split; [lia|]. split; [done|]. split; [done|].
    split; [done|]. done.
  - split; [done|]. split; [lia|]. split; [done|]. split; [done|].
    split; [done|].
    intros _. split; [done|]. split; [done|]. split; [done|].
    intros Htrait. rewrite (trait_choice _ _ Htrait Hx). simpl.
    rewrite list_fmap_id, <- Hs. apply with_slots_same.
  - split; [done|]. split; [lia|]. split; [done|].
    split; [intros _; by rewrite Hn|]. split; [done|]. done.
Qed.

Lemma Resize_shrink_spec (n : nat) (v : Vector T) l junk w :
  models v l junk → n < size_ v →
  Resize n v w
  = (Returned tt,
     mkVector (with_block (data_ v)
                 ((Some <$> take n l) ++ replicate (length l - n) None ++ junk)) n,
     after (EvDtor <$> drop n l) w).
Proof.
  intros (Hs & Hn & Hc & Hmax) Hlt. unfold Resize. rewrite decide_True by done.
  erewrite (destroy_n_at _ (Some <$> take n l) junk (drop n l)).
  - rewrite length_drop. done.
  - rewrite Hs. apply split_at.
  - rewrite length_fmap, length_take. lia.
  - rewrite length_drop. lia.
Qed.

Lemma Resize_grow_spec `{!Lawful T} (n : nat) (v : Vector T) l junk w r v' w' :
  models v l junk → size_ v ≤ n → Resize n v w = (r, v', w') →
  (r = Returned tt
   ∧ (∃ junk', models v' (l ++ replicate (n - length l) default_value) junk'
               ∧ (Forall (.= None) junk → Forall (.= None) junk'))
   ∧ Capacity v' = Capacity v `max` n
   ∧ (Forall (.= None) junk → leaked w' = leaked w))
  ∨ (r = Thrown ∧ size_ v < n ∧ size_ v' = size_ v ∧ Capacity v ≤ Capacity v'
     ∧ (∃ l' junk', models v' l' junk' ∧ length l' = length l
          ∧ (Forall (.= None) junk → Forall (.= None) junk')
          ∧ (is_nothrow_move_constructible = true
             ∨ is_copy_constructible = true → l' = l))
     ∧ (Forall (.= None) junk → leaked w' = leaked w))
  ∨ (r = Undefined ∧ size_ v < n ∧ length l + length junk < n
     ∧ (Capacity v < n → ¬ fits_size_t n)
     ∧ (Forall (.= None) junk → leaked w' = leaked w)).
Proof.
  intros Hm Hle. pose proof Hm as (Hs & Hn & Hc & Hmax).
  unfold Resize. rewrite decide_False by lia.
  case_decide as Hcap.
  - destruct (Reserve n v w) as [[r0 v1] w1] eqn:ERes.
    destruct (Reserve_spec n v l junk w r0 v1 w1 Hm ERes)
      as [(Hle' & _)
         |[(Hlt & -> & m & Hm1 & Hm2 & Hm3 & Hm4 & Hm5 & -> & ->)
          |[(Hlt & -> & -> & -> & Hx)
           |[(Hlt & -> & l1 & x & l2 & -> & Hx & -> & ->)
            |(Hlt & -> & Hnf & Hshort & _ & es & ->)]]]]; [lia| | | |].
    + simpl.
      destruct (uninitialized_value_construct_n _ _ _ _) as [[r1 b] w2] eqn:EV.
      destruct (decide (m = n)) as [->|Hmn].
      * eapply (value_construct_at _ (Some <$> l) (replicate (n - length l) None) [])
          in EV; [|by rewrite app_nil_r|by rewrite length_fmap
                 |by rewrite length_replicate|apply Forall_None_replicate].
        destruct EV as [(-> & -> & ->)|(-> & k & Hk & Hthrow & -> & ->)].
        -- intros [= <- <- <-]. left. split; [done|]. split.
           ++ exists []. split; [|by intros _; apply Forall_nil].
              apply models_intro;
                [solve_list
                |rewrite length_app, length_replicate; lia
                |rewrite length_app, length_replicate; simpl; lia
                |eapply servable_eq; [done|];
                 rewrite length_app, length_replicate; simpl; lia].
           ++ split; [unfold Capacity in *; simpl; lia|].
              intros Hj. rewrite Deallocate_lose, live_app, live_replicate_None.
              rewrite (live_None _ Hj). simpl. by rewrite app_nil_r.
        -- intros [= <- <- <-]. right. left. split; [done|].
           split; [unfold Capacity in *; lia|]. split; [simpl; lia|].
           split; [unfold Capacity in *; simpl; lia|]. split.
           ++ exists l, (replicate k None ++ drop k (replicate (n - length l) None)).
              rewrite app_nil_r. split; [|split; [done|split; [|done]]].
              ** apply models_intro;
                   [done|done
                   |rewrite length_app, length_drop, !length_replicate;
                    simpl; lia
                   |eapply servable_eq; [done|];
                    rewrite length_app, length_drop, !length_replicate; lia].
              ** intros _. rewrite drop_replicate, <- replicate_add.
                 apply Forall_None_replicate.
           ++ intros Hj. rewrite Deallocate_lose, live_app, live_replicate_None.
              rewrite (live_None _ Hj). simpl. by rewrite app_nil_r.
      * assert (Hnf : ¬ fits_size_t n) by (intros Hf; by apply Hmn, Hm5).
        eapply (value_construct_short_at _ (Some <$> l)
                  (replicate (m - length l) None)) in EV;
          [|done|by rewrite length_fmap|done|rewrite length_replicate; lia].
        destruct EV as [(-> & -> & ->)|(-> & k & Hk & _ & -> & ->)].
        -- intros [= <- <- <-]. right. right. split; [done|].
           split; [unfold Capacity in *; lia|].
           split; [unfold Capacity in *; lia|]. split; [done|].
           intros Hj. rewrite live_replicate_None.
           rewrite Deallocate_lose, live_app, live_replicate_None.
           rewrite (live_None _ Hj). simpl. by rewrite !app_nil_r.
        -- intros [= <- <- <-]. right. left. split; [done|].
           rewrite length_replicate in Hk.
           split; [unfold Capacity in *; lia|]. split; [simpl; lia|].
           split; [unfold Capacity in *; simpl; lia|]. split.
           ++ exists l, (replicate k None ++ drop k (replicate (m - length l) None)).
              split; [|split; [done|split; [|done]]].
              ** apply models_intro;
                   [done|done
                   |rewrite length_app, length_drop, !length_replicate;
                    simpl; lia
                   |eapply servable_le; [|done];
                    rewrite length_app, length_drop, !length_replicate; lia].
              ** intros _. rewrite drop_replicate, <- replicate_add.
                 apply Forall_None_replicate.
           ++ intros Hj. rewrite take_replicate, live_replicate_None.
              rewrite Deallocate_lose, live_app, live_replicate_None.
              rewrite (live_None _ Hj). simpl. by rewrite !app_nil_r.
    + simpl. intros [= <- <- <-]. right. left. split; [done|].
      split; [unfold Capacity in *; lia|]. split; [done|]. split; [done|].
      split; [|done]. by exists l, junk.
    + simpl. intros [= <- <- <-]. right. left. split; [done|].
      split; [unfold Capacity in *; lia|]. split; [done|]. split; [done|].
      split; [|done].
      exists ((residue relocate_by_move <$> l1) ++ x :: l2), junk.
      split; [|split; [|split; [done|]]].
      * apply models_with_slots with (l := l1 ++ x :: l2) (junk := junk);
          [done| |done].
        rewrite !length_app, length_fmap. done.
      * rewrite !length_app, length_fmap. done.
      * intros Htrait. rewrite (trait_choice _ _ Htrait Hx). simpl.
        by rewrite list_fmap_id.
    + simpl. intros [= <- <- <-]. right. right. split; [done|].
      split; [unfold Capacity in *; lia|].
      split; [unfold Capacity in *; lia|]. done.
  - apply Nat.nlt_ge in Hcap.
    destruct (uninitialized_value_construct_n _ _ _ _) as [[r1 b] w2] eqn:EV.
    destruct (decide (n - length l ≤ length junk)) as [Hroom|Hshort].
    + eapply (value_construct_over _ (Some <$> l) (take (n - length l) junk)
                (drop (n - length l) junk)) in EV;
        [|by rewrite Hs, take_drop|by rewrite length_fmap
         |rewrite length_take; lia].
      destruct EV as [(-> & -> & ->)|(-> & k & Hk & Hthrow & -> & ->)].
      * intros [= <- <- <-]. left. split; [done|]. split.
        -- exists (drop (n - length l) junk). split; [|by apply Forall_drop].
           replace n with (length (l ++ replicate (n - size_ v) default_value))
             at 3 by (rewrite length_app, length_replicate; lia).
           rewrite app_assoc, <- fmap_app, Hn.
           apply (models_reshape v l junk); [done|].
           rewrite !length_app, length_replicate, length_drop. lia.
        -- split; [unfold Capacity in *; simpl; lia|].
           intros Hj. simpl. rewrite (live_None (take _ junk)), app_nil_r; [done|].
           by apply Forall_take.
      * intros [= <- <- <-]. right. left. split; [done|].
        split; [lia|]. split; [done|]. split; [done|]. split.
        -- exists l, (replicate k None ++ drop k (take (n - length l) junk)
                      ++ drop (n - length l) junk).
           split; [|split; [done|split; [|done]]].
           ++ apply models_with_slots with (l := l) (junk := junk); [done..|].
              rewrite !length_app, !length_drop, length_take, length_replicate.
              lia.
           ++ apply Forall_None_cleaned.
        -- intros Hj. simpl.
           rewrite (live_None (take k (take _ junk))), app_nil_r; [done|].
           by apply Forall_take, Forall_take.
    + eapply (value_construct_short_at _ (Some <$> l) junk) in EV;
        [|done|by rewrite length_fmap|done|lia].
      destruct EV as [(-> & -> & ->)|(-> & k & Hk & _ & -> & ->)].
      * intros [= <- <- <-]. right. right. split; [done|].
        split; [lia|]. split; [lia|]. split; [lia|].
        intros Hj. simpl. by rewrite (live_None _ Hj), app_nil_r.
      * intros [= <- <- <-]. right. left. split; [done|].
        split; [lia|]. split; [done|]. split; [done|]. split.
        -- exists l, (replicate k None ++ drop k junk).
           split; [|split; [done|split; [|done]]].
           ++ eapply models_with_slots; [done|done|].
              rewrite !length_app, length_replicate, !length_drop. lia.
           ++ intros Hj. apply Forall_app.
              split; [apply Forall_None_replicate|by apply Forall_drop].
        -- intros Hj. simpl.
           rewrite (live_None (take k junk)), app_nil_r; [done|].
           by apply Forall_take.
Qed.

(** Resize.  Resizing to no more than the size cannot fail: it runs the
    destructors of the elements from [n] on, in order, and nothing else.
    A call whose request lies within the slots of the block, or exceeds
    the capacity with a byte count that fits size_t, never violates a
    precondition.  When the call returns, the size is the request, the
    elements are the first [n] old elements followed by value-initialized
    ones up to [n], and the capacity is the larger of the old capacity and
    [n].  When the call throws, it was growing, the size is unchanged, the
    capacity has not shrunk, and the elements are the old ones whenever the
    element type is nothrow-move-constructible or copy-constructible.  The
    call writes past the end of its block only when it grows beyond the
    slots the block has: into a new block whose byte count has wrapped
    around, or within a capacity that an earlier such request has left
    larger than the block. *)
Theorem Resize_sets_size `{!Lawful T} (n : nat) (v : Vector T) (w : World T)
    r v' w' :
  reachable v → Resize n v w = (r, v', w') →
  (n ≤ length (slots v) → r ≠ Undefined)
  ∧ (Capacity v < n → fits_size_t n → r ≠ Undefined)
  ∧ (r = Undefined →
     size_ v < n ∧ length (slots v) < n ∧ (Capacity v < n → ¬ fits_size_t n))
  ∧ (r = Returned tt →
     size_ v' = n
     ∧ elements v' = take n (elements v) ++ replicate (n - size_ v) default_value
     ∧ Capacity v' = Capacity v `max` n)
  ∧ (n ≤ size_ v →
     r = Returned tt ∧ w' = after (EvDtor <$> drop n (elements v)) w)
  ∧ (r = Thrown →
     size_ v < n ∧ size_ v' = size_ v ∧ Capacity v ≤ Capacity v'
     ∧ (is_nothrow_move_constructible = true ∨ is_copy_constructible = true →
        elements v' = elements v)).
Proof.
  intros Hreach Hop. destruct (reachable_models v Hreach) as [junk Hm].
  set (l := elements v) in *. clearbody l.
  pose proof Hm as (Hs & Hn & Hc & Hmax).
  pose proof (models_length _ _ _ Hm) as Hlen.
  destruct (decide (n < size_ v)) as [Hlt|Hge].
  - rewrite (Resize_shrink_spec n v l junk w Hm Hlt) in Hop.
    injection Hop as <- <- <-.
    assert (Hm' : models
              (mkVector (with_block (data_ v)
                 ((Some <$> take n l) ++ replicate (length l - n) None ++ junk)) n)
              (take n l) (replicate (length l - n) None ++ junk)).
    { replace n with (length (take n l)) at 3 by (rewrite length_take; lia).
      apply (models_reshape v l junk); [done|].
      rewrite length_take, length_app, length_replicate. lia. }
    split; [done|]. split; [done|]. split; [done|].
    split; [|split; [done|done]]. intros _.
    split; [done|]. split.
    + rewrite (models_elements _ _ _ Hm').
      replace (n - size_ v) with 0 by lia. by rewrite app_nil_r.
    + unfold Capacity in *. simpl. lia.
  - apply Nat.nlt_ge in Hge.
    destruct (Resize_grow_spec n v l junk w r v' w' Hm Hge Hop)
      as [(-> & (junk' & Hm' & _) & Hcap & _)
         |[(-> & Hlt & Hsz & Hcap & (l' & junk' & Hm' & Hlen' & _ & Hl') & _)
          |(-> & Hlt & Hshort & Hwrap & _)]].
    + split; [done|]. split; [done|]. split; [done|].
      split; [intros _|split; [|done]].
      * pose proof Hm' as (_ & Hn' & _).
        split; [|split; [|done]].
        -- rewrite Hn', length_app, length_replicate. lia.
        -- rewrite (models_elements _ _ _ Hm'), take_ge by lia.
           by rewrite Hn.
      * intros Hle. assert (n = size_ v) as -> by lia. split; [done|].
        rewrite drop_ge by lia. csimpl. rewrite after_nil.
        unfold Resize in Hop. rewrite !decide_False in Hop by lia.
        unfold uninitialized_value_construct_n in Hop.
        rewrite Nat.sub_diag in Hop. simpl in Hop. by simplify_eq.
    + split; [done|]. split; [done|]. split; [done|]. split; [done|].
      split; [lia|]. intros _.
      split; [done|]. split; [done|]. split; [done|]. intros Htrait.
      rewrite (models_elements _ _ _ Hm'). by apply Hl'.
    + split; [lia|]. split; [intros Hc' Hf; by destruct (Hwrap Hc')|].
      split; [intros _; split; [done|split; [lia|done]]|].
      split; [done|]. split; [lia|done].
Qed.

(** What a call that returns has read for the new element: the block the
    reference argument is resolved in. *)
Lemma EmplaceBack_returned_models `{!Lawful T} (args : Args T) (v : Vector T)
    l junk w i v' w' :
  models v l junk → EmplaceBack args v w = (Returned i, v', w') →
  ∃ e x junk',
    i = length l ∧ models v' (l ++ [x]) junk'
    ∧ resolve args (if decide (size_ v = Capacity v)
                    then Some <$> (residue relocate_by_move <$> l)
                    else slots v) = Some (e, x)
    ∧ (Forall (.= None) junk → Forall (.= None) junk')
    ∧ (size_ v ≠ Capacity v →
       w' = lose (live (take 1 junk)) (after [e] w)
       ∧ junk' = drop 1 junk ∧ Capacity v' = Capacity v).
Proof.
  intros Hm Hop. pose proof Hm as (Hs & Hn & Hc & Hmax).
  case_decide as Hfull.
  - pose proof (grown_capacity_models _ _ _ Hm Hfull) as (-> & Hc1 & _).
    eapply EmplaceBack_growth_spec in Hop; [|done..].
    destruct Hop
      as [(? & _)|[(? & _)|(e & y & Hres & [(? & _)|(Hi & _ & -> & Hmax' & _)])]];
      try done.
    exists e, y, (replicate (grown_capacity (size_ v) - S (length l)) None).
    split; [by simplify_eq|]. split; [|split; [done|split; [|done]]].
    + replace (S (length l)) with (length (l ++ [y])) at 2
        by (rewrite length_app; simpl; lia).
      apply models_fresh; [|done]. rewrite length_app. simpl. lia.
    + intros _. apply Forall_None_replicate.
  - eapply EmplaceBack_inplace_spec in Hop; [|done..].
    destruct Hop as (e & y & h & junk' & Hres & -> & _
                     & [(? & _)|(Hi & _ & -> & ->)]); try done.
    exists e, y, junk'.
    split; [by simplify_eq|]. split; [|split; [done|split]].
    + replace (S (length l)) with (length (l ++ [y]))
        by (rewrite length_app; simpl; lia).
      apply (models_reshape v l (h :: junk')); [done|].
      rewrite length_app. simpl. lia.
    + intros Hj. by inversion Hj.
    + done.
Qed.

Lemma Emplace_returned_models `{!Lawful T} (pos : nat) (args : Args T)
    (v : Vector T) l junk w i v' w' :
  models v l junk → Emplace pos args v w = (Returned i, v', w') →
  ∃ e x junk',
    i = pos ∧ pos ≤ length l
    ∧ models v' (take pos l ++ x :: drop pos l) junk'
    ∧ resolve args (if decide (size_ v = Capacity v)
                    then Some <$> (residue relocate_by_move <$> take pos l)
                                  ++ drop pos l
                    else slots v) = Some (e, x)
    ∧ (Forall (.= None) junk → Forall (.= None) junk')
    ∧ (size_ v ≠ Capacity v → Capacity v' = Capacity v).
Proof.
  intros Hm Hop. pose proof Hm as (Hs & Hn & Hc & Hmax).
  unfold Emplace in Hop. case_decide as Hpos; [|done].
  assert (Hla : length (take pos l) = pos) by (rewrite length_take; lia).
  assert (Hlen : length (take pos l ++ drop pos l) = length l)
    by by rewrite take_drop.
  rewrite <- (take_drop pos l) in Hm.
  case_decide as Hfull.
  - pose proof (grown_capacity_models _ _ _ Hm Hfull) as (-> & Hc1 & _).
    eapply EmplaceWithRealloc_spec in Hop; [|done..].
    destruct Hop
      as [(? & _)|[(? & _)|(e & y & Hres & [(? & _)|[(? & _)|(Hi & -> & Hmax' & _)]])]];
      try done.
    exists e, y,
      (replicate (grown_capacity (size_ v)
                  - S (length (take pos l ++ drop pos l))) None).
    split; [by simplify_eq|]. split; [lia|].
    split; [|split; [done|split; [|done]]].
    + replace (S (length (take pos l ++ drop pos l)))
        with (length (take pos l ++ y :: drop pos l)) at 2
        by (rewrite !length_app; simpl; lia).
      apply models_fresh; [|done]. rewrite !length_app in *. simpl. lia.
    + intros _. apply Forall_None_replicate.
  - eapply EmplaceWithoutRealloc_spec in Hop; [|done..].
    destruct Hop
      as (e & y & Hres
          & [(? & _)|(h & junk' & -> & _ & [(Hi & -> & _)|[(? & _)|(? & _)]])]);
      try done.
    exists e, y, junk'.
    split; [by simplify_eq|]. split; [lia|].
    split; [|split; [done|split; [|done]]].
    + replace (S (length (take pos l ++ drop pos l)))
        with (length (take pos l ++ y :: drop pos l))
        by (rewrite !length_app; simpl; lia).
      apply (models_reshape v _ (h :: junk') _ _ Hm).
      rewrite !length_app. simpl. lia.
    + intros Hj. by inversion Hj.
Qed.

(** PopBack on an empty vector violates its precondition.  On a reachable
    vector whose elements are [l] followed by [x] it returns, the one
    operation run is the destructor of [x], the elements are [l], the size
    is one less, the capacity is unchanged and the slot of [x] holds no
    object any more. *)
Theorem PopBack_removes_last `{!Lawful T} (v : Vector T) (w : World T) :
  reachable v →
  (size_ v = 0 → (PopBack v w).1.1 = Undefined)
  ∧ (∀ l x, elements v = l ++ [x] →
       ∃ v', PopBack v w = (Returned tt, v', after [EvDtor x] w)
             ∧ elements v' = l ∧ size_ v' = size_ v - 1
             ∧ Capacity v' = Capacity v
             ∧ slots v' !! (size_ v - 1) = Some None).
Proof.
  intros Hreach. destruct (reachable_models v Hreach) as [junk Hm].
  split.
  - intros Hz. unfold PopBack. by rewrite Hz.
  - intros l x Hl. rewrite Hl in Hm.
    pose proof Hm as (Hs & Hn & Hc & Hmax).
    rewrite (PopBack_spec v l x junk w Hm).
    eexists. split; [done|].
    pose proof (models_pop v l x junk Hm) as Hm'.
    split; [by apply (models_elements _ _ _ Hm')|].
    rewrite length_app in Hn. simpl in Hn.
    split; [simpl; lia|]. split; [done|].
    unfold slots. simpl. rewrite Hn.
    replace (length l + 1 - 1) with (length (Some <$> l))
      by (rewrite length_fmap; lia).
    apply middle_lookup.
Qed.

(** EmplaceBack (hence PushBack) followed by PopBack: after an EmplaceBack
    that returned, PopBack returns, destroys exactly the element just
    appended, and brings elements and size back to what they were before
    the EmplaceBack; the capacity stays what the EmplaceBack left. *)
Theorem EmplaceBack_PopBack `{!Lawful T} (args : Args T) (v : Vector T)
    (w : World T) i v1 w1 :
  reachable v → EmplaceBack args v w = (Returned i, v1, w1) →
  ∃ x v2,
    elements v1 = elements v ++ [x]
    ∧ PopBack v1 w1 = (Returned tt, v2, after [EvDtor x] w1)
    ∧ elements v2 = elements v ∧ size_ v2 = size_ v
    ∧ Capacity v2 = Capacity v1.
Proof.
  intros Hreach Hop. destruct (reachable_models v Hreach) as [junk Hm].
  pose proof Hm as (_ & Hn & _).
  destruct (EmplaceBack_returned_models _ _ _ _ _ _ _ _ Hm Hop)
    as (e & x & junk' & _ & Hm1 & _).
  exists x. eexists. split; [by apply (models_elements _ _ _ Hm1)|].
  split; [by apply (PopBack_spec v1 (elements v) x junk' w1)|].
  pose proof (models_pop v1 _ x junk' Hm1) as Hm2.
  split; [by apply (models_elements _ _ _ Hm2)|]. split; [by simpl|done].
Qed.

(** Emplace (hence Insert) followed by Erase at the returned position: the
    Erase is defined; it returns whenever move assignment cannot throw, and
    when it returns it gives back the same position, and elements and size
    are what they were before the Emplace; the capacity stays what the
    Emplace left. *)
Theorem Emplace_Erase `{!Lawful T} (pos : nat) (args : Args T) (v : Vector T)
    (w : World T) i v1 w1 r v2 w2 :
  reachable v → Emplace pos args v w = (Returned i, v1, w1) →
  Erase i v1 w1 = (r, v2, w2) →
  r ≠ Undefined
  ∧ (nothrow_move_assign → r = Returned pos)
  ∧ (∀ j, r = Returned j →
       j = pos ∧ elements v2 = elements v ∧ size_ v2 = size_ v
       ∧ Capacity v2 = Capacity v1).
Proof.
  intros Hreach Hop Her. destruct (reachable_models v Hreach) as [junk Hm].
  pose proof Hm as (_ & Hn & _).
  destruct (Emplace_returned_models _ _ _ _ _ _ _ _ _ Hm Hop)
    as (e & x & junk' & -> & Hpos & Hm1 & _).
  eapply (Erase_spec pos v1 (take pos (elements v)) x (drop pos (elements v)))
    in Her; [|done|rewrite length_take; lia].
  destruct Her as [(-> & -> & _)|(-> & _ & _ & (h & d & s & Hthrow))].
  - split; [done|]. split; [done|]. intros j [= <-]. split; [done|].
    rewrite take_drop.
    assert (Hm2 : models
              (mkVector (with_block (data_ v1)
                 ((Some <$> elements v) ++ None :: junk')) (length (elements v)))
              (elements v) (None :: junk')).
    { apply (models_reshape v1 _ junk' _ _ Hm1).
      rewrite !length_app, length_take. simpl. rewrite length_drop. lia. }
    split; [by apply (models_elements _ _ _ Hm2)|]. split; [by simpl|done].
  - split; [done|]. split; [|done]. intros Hno. by rewrite Hno in Hthrow.
Qed.

(** On a non-empty reachable vector, Erase(end() - 1) does exactly what
    PopBack does: both return, with the same vector and the same operations
    run (the destructor of the last element and no move assignment), so
    that erasing the last element cannot throw. *)
Theorem Erase_last_is_PopBack `{!Lawful T} (v : Vector T) (w : World T) :
  reachable v → size_ v ≠ 0 →
  (PopBack v w).1.1 = Returned tt
  ∧ Erase (end_ v - 1) v w
    = (Returned (end_ v - 1), (PopBack v w).1.2, (PopBack v w).2).
Proof.
  intros Hreach Hsz. destruct (reachable_models v Hreach) as [junk Hm].
  destruct (models_snoc _ _ _ Hm Hsz) as (l & x & Hl). rewrite Hl in Hm.
  pose proof Hm as (Hs & Hn & Hc & Hmax).
  rewrite (PopBack_spec v l x junk w Hm). split; [done|].
  rewrite length_app in Hn. simpl in Hn.
  unfold end_, GetAddress, Erase. simpl.
  rewrite decide_True by lia.
  replace (size_ v - S (size_ v - 1)) with 0 by lia. simpl.
  erewrite (destroy_at_at _ (Some <$> l) junk x); cycle 1.
  { rewrite Hs, fmap_app, <- app_assoc. done. }
  { rewrite length_fmap. lia. }
  replace (size_ v - 1) with (length l) by lia. done.
Qed.


Lemma models_junk (v : Vector T) l junk :
  models v l junk → drop (size_ v) (slots v) = junk.
Proof.
  intros (Hs & Hn & _). rewrite Hs, Hn.
  by rewrite drop_app_length' by (by rewrite length_fmap).
Qed.

(** RawMemory(n): the constructor never violates a precondition.  For
    [n = 0] it asks the allocator for nothing and gives the default
    (null, 0) object.  Otherwise it asks operator new for [n * sizeof(T)]
    bytes, a product computed in size_t: the request throws when that byte
    count is beyond what a block can hold, which is the case for every [n]
    too large for a block whose product still fits size_t; a failed
    request leaves nothing behind but the request itself.  The object it
    returns records the capacity [n], and its block has as many
    uninitialized slots as the bytes obtained can hold: [n] when the
    product fits size_t, fewer than [n] when it has wrapped around.
    operator+ stays within the block for the offsets up to the number of
    slots (one past the end included), operator[] for the indices below
    it, which are all those that the asserts accept only when the product
    fits; and releasing the object loses no element. *)
Theorem RawMemory_new_block `{!Lawful T} (n : nat) (w : World T) r w' :
  RawMemory_new n w = (r, w') →
  r ≠ Undefined
  ∧ (n = 0 → r = Returned RawMemory_default ∧ w' = w)
  ∧ ((max_alloc < N.of_nat (alloc_bytes n))%N → r = Thrown)
  ∧ (fits_size_t n → ¬ servable n → r = Thrown)
  ∧ (r = Thrown → n ≠ 0 ∧ w' = after [EvAlloc n] w)
  ∧ (∀ m, r = Returned m →
       RawMemory_Capacity m = n
       ∧ buffer_ m = replicate (alloc_bytes n / sizeof) None
       ∧ (fits_size_t n → length (buffer_ m) = n)
       ∧ (¬ fits_size_t n → length (buffer_ m) < n)
       ∧ (∀ k, RawMemory_plus m k
               = if decide (k ≤ n ∧ k ≤ alloc_bytes n / sizeof)
                 then Returned k else Undefined)
       ∧ (∀ k, RawMemory_at m k
               = if decide (k < n ∧ k < alloc_bytes n / sizeof)
                 then Returned None else Undefined)
       ∧ RawMemory_destroy m w' = w'
       ∧ w' = after (alloc_events n) w).
Proof.
  intros Hop.
  assert (Hbig : (max_alloc < N.of_nat (alloc_bytes n))%N →
                 n ≠ 0 ∧ throws (log w) (EvAlloc n) = true).
  { intros Hb. split; [|by apply alloc_limit].
    intros ->. unfold alloc_bytes in Hb. rewrite Nat.mul_0_l in Hb.
    by vm_compute in Hb. }
  destruct (RawMemory_new_any n w r w' Hop)
    as [(k & -> & -> & Hle & Hserv & Hfit & Hquiet & ->)
       |(-> & Hn0 & Hthrow & ->)].
  - split; [done|]. split; [|split; [|split; [|split; [done|]]]].
    + intros ->. rewrite decide_True by done. split; [|done].
      by rewrite alloc_slots_zero.
    + intros Hb. destruct (Hbig Hb) as [Hn0 Ht]. by rewrite Hquiet in Ht.
    + intros Hf Hns. destruct Hns. rewrite <- (Hfit Hf). done.
    + intros m [= <-]. split; [done|]. split; [done|].
      split; [simpl; rewrite length_replicate; by auto|].
      split; [simpl; rewrite length_replicate; by apply alloc_slots_wrapped|].
      split; [|split; [|split]].
      * intros k. unfold RawMemory_plus, GetAddress. simpl.
        rewrite length_replicate.
        repeat case_decide; first [done|lia].
      * intros k. unfold RawMemory_at. simpl.
        destruct (decide (k < alloc_bytes n / sizeof)) as [Hk|Hk].
        -- rewrite lookup_replicate_2 by done.
           repeat case_decide; first [done|lia].
        -- rewrite lookup_ge_None_2 by (rewrite length_replicate; lia).
           repeat case_decide; first [done|lia].
      * unfold RawMemory_destroy. simpl.
        rewrite Deallocate_lose, live_replicate_None. apply lose_nil.
      * unfold alloc_events. case_decide; [by rewrite after_nil|done].
  - split; [done|]. split; [done|]. split; [done|]. split; [done|].
    split; done.
Qed.

(** Vector(n).  Vector(0) is the default vector and runs nothing.  When
    the byte count [n * sizeof(T)] fits size_t the constructor never
    violates a precondition.  When the constructor returns, size and
    capacity are [n], the block has [n] slots, the elements are [n]
    value-initialized objects, and the operations run are the allocation
    (for [n > 0]) followed by [n] default constructions.  When it throws,
    nothing is lost: either the allocation failed, or some default
    construction did after [k < n] of them had completed, and then exactly
    those [k] objects have been destroyed.  When the byte count has
    wrapped around, the block obtained is too small for [n] elements and
    the constructor never returns: the request fails, or a default
    construction throws, or the constructions run past the end of the
    block. *)
Theorem Vector_sized_value_initializes `{!Lawful T} (n : nat) (w : World T)
    r w' :
  Vector_sized n w = (r, w') →
  (fits_size_t n → r ≠ Undefined)
  ∧ (r = Undefined →
     ¬ fits_size_t n ∧ throws (log w) (EvAlloc n) = false
     ∧ alloc_bytes n / sizeof < n)
  ∧ (¬ fits_size_t n → ∀ v, r ≠ Returned v)
  ∧ (n = 0 → r = Returned Vector_default ∧ w' = w)
  ∧ (∀ v, r = Returned v →
       size_ v = n ∧ Capacity v = n ∧ intact v
       ∧ elements v = replicate n default_value
       ∧ w' = after (alloc_events n ++ replicate n EvDefaultCtor) w)
  ∧ (r = Thrown →
       leaked w' = leaked w
       ∧ ∃ k, k < n
           ∧ (log w' = log w ++ [EvAlloc n]
              ∨ log w' = log w ++ EvAlloc n :: replicate (S k) EvDefaultCtor
                           ++ replicate k (EvDtor default_value))).
Proof.
  intros Hop.
  destruct (Vector_sized_spec n w r w' Hop)
    as [(-> & Hserv & Hslots & ->)
       |[(-> & Hn0 & Hthrow & ->)
        |[(-> & k & Hk & Hk' & Hx & ->)
         |(-> & Hshort & Hquiet & ->)]]].
  - split; [done|]. split; [done|].
    split; [intros Hnf; pose proof (alloc_slots_wrapped n Hnf); lia|].
    split; [|split; [|done]].
    + intros ->. simpl. by rewrite after_nil.
    + intros v [= <-]. split; [done|]. split; [done|].
      split; [unfold intact, slots, Capacity; simpl;
              by rewrite length_fmap, length_replicate|].
      split; [|done].
      unfold elements, slots. cbn [size_ data_ buffer_].
      rewrite take_ge by (by rewrite length_fmap, length_replicate).
      apply omap_fmap_Some.
  - split; [done|]. split; [done|]. split; [done|]. split; [done|].
    split; [done|]. intros _. split; [done|].
    exists 0. split; [lia|]. by left.
  - split; [done|]. split; [done|]. split; [done|]. split; [lia|].
    split; [done|]. intros _. split; [done|].
    exists k. split; [done|]. right. simpl. rewrite fmap_replicate.
    do 2 f_equal.
    rewrite app_comm_cons, replicate_cons_app, <- app_assoc. done.
  - assert (Hnf : ¬ fits_size_t n).
    { intros Hf. rewrite alloc_slots_fits in Hshort by done. lia. }
    split; [done|]. split; [done|]. split; [done|]. split; [lia|].
    split; done.
Qed.

(** The copy constructor, from a reachable vector, never violates a
    precondition.  When it returns, the copy has the elements and the size
    of the source, and its capacity is the size of the source, not its
    capacity; the operations run are the allocation (for a non-empty
    source) and one copy construction per element, in order.  When it
    throws, nothing is lost. *)
Theorem Vector_copy_duplicates `{!Lawful T} (other : Vector T) (w : World T)
    r w' :
  reachable other → Vector_copy other w = (r, w') →
  r ≠ Undefined
  ∧ (∀ v, r = Returned v →
       elements v = elements other ∧ size_ v = size_ other
       ∧ Capacity v = size_ other
       ∧ w' = after (alloc_events (size_ other)
                     ++ (EvCopyCtor <$> elements other)) w)
  ∧ (r = Thrown → leaked w' = leaked w).
Proof.
  intros Hreach Hop. destruct (reachable_models other Hreach) as [junk Hm].
  pose proof Hm as (_ & Hn & _).
  destruct (Vector_copy_spec other _ junk w r w' Hm Hop)
    as [(-> & ->)|(-> & Hleak & _)]; [|done].
  split; [done|]. split; [|done]. intros v [= <-].
  split; [|by rewrite Hn].
  unfold elements at 1, slots. cbn [size_ data_ buffer_].
  rewrite take_ge by (by rewrite length_fmap). apply omap_fmap_Some.
Qed.

(** The destructor of a reachable vector returns; it runs the destructor
    of each element once, in index order, and nothing else.  What is lost
    with the block are the objects alive behind the elements, if any: when
    the slots behind the elements are unconstructed, nothing is. *)
Theorem Vector_destroy_runs_destructors `{!Lawful T} (v : Vector T)
    (w : World T) :
  reachable v →
  ∃ w', Vector_destroy v w = (Returned tt, w')
        ∧ log w' = log w ++ (EvDtor <$> elements v)
        ∧ leaked w' = leaked w ++ omap id (drop (size_ v) (slots v))
        ∧ (tail_unconstructed v → w' = after (EvDtor <$> elements v) w).
Proof.
  intros Hreach. destruct (reachable_models v Hreach) as [junk Hm].
  pose proof Hm as (Hs & Hn & _).
  rewrite (Vector_destroy_spec v _ junk w Hm). eexists. split; [done|].
  split; [done|]. split.
  - rewrite (models_junk _ _ _ Hm), Deallocate_lose, live_app.
    by rewrite live_replicate_None.
  - intros Ht. rewrite Deallocate_lose, live_app, live_replicate_None.
    rewrite (live_None junk) by (by eapply models_strict). apply lose_nil.
Qed.

(** operator[] on a reachable vector: reading index [i] gives the [i]-th
    element when [i < size] and violates the precondition otherwise; for
    [i < size] the underlying RawMemory::operator[] is within its own
    bound and designates a constructed object.  The number of elements is
    Size(), which is also end() - begin() and cend() - cbegin(). *)
Theorem subscript_reads_elements `{!Lawful T} (v : Vector T) (index : nat) :
  reachable v →
  Vector_at v index
  = match elements v !! index with
    | Some x => Returned x
    | None => Undefined
    end
  ∧ (index < size_ v →
     ∃ x, RawMemory_at (data_ v) index = Returned (Some x)
          ∧ Vector_at v index = Returned x)
  ∧ (size_ v ≤ index → Vector_at v index = Undefined)
  ∧ length (elements v) = Size v
  ∧ end_ v - begin v = Size v ∧ cend v - cbegin v = Size v.
Proof.
  intros Hreach. destruct (reachable_models v Hreach) as [junk Hm].
  pose proof Hm as (Hs & Hn & Hc & _).
  pose proof (Vector_at_models v _ junk index Hm) as Hat.
  split; [done|]. split; [|split].
  - intros Hi. rewrite Hn in Hi.
    destruct (lookup_lt_is_Some_2 _ _ Hi) as [x Hx].
    exists x. rewrite Hat, Hx. split; [|done].
    unfold RawMemory_at. fold (Capacity v). rewrite decide_True by lia.
    fold (slots v). rewrite Hs, lookup_app_l by (by rewrite length_fmap).
    by rewrite list_lookup_fmap, Hx.
  - intros Hi. unfold Vector_at. by rewrite decide_False by lia.
  - unfold end_, begin, cend, cbegin, end_, begin, GetAddress, Size.
    split; [done|]. split; lia.
Qed.

(** EmplaceBack (hence PushBack) on a reachable vector that has room,
    when the call violates no precondition: the only operation run is the
    constructor of the new element, so that nothing is allocated or
    relocated; the capacity is unchanged, the slots of the former elements
    are untouched, the call either returns the old size as the index of the
    new element or throws, and when it throws the vector and the objects
    lost so far are exactly as before.  When it returns, the new element
    has been constructed in the slot behind the former elements: an object
    still alive in that slot is lost without a destructor call, and nothing
    is lost when the slots behind the elements are unconstructed. *)
Theorem EmplaceBack_with_room `{!Lawful T} (args : Args T) (v : Vector T)
    (w : World T) r v' w' :
  reachable v → size_ v ≠ Capacity v →
  EmplaceBack args v w = (r, v', w') → r ≠ Undefined →
  (∃ e x, resolve args (slots v) = Some (e, x) ∧ log w' = log w ++ [e])
  ∧ Capacity v' = Capacity v
  ∧ (∀ k, k < size_ v → slots v' !! k = slots v !! k)
  ∧ (r = Thrown → v' = v ∧ leaked w' = leaked w)
  ∧ (r = Returned (size_ v) ∨ r = Thrown)
  ∧ (∀ i, r = Returned i →
       leaked w' = leaked w ++ live (take 1 (drop (size_ v) (slots v))))
  ∧ (tail_unconstructed v → leaked w' = leaked w).
Proof.
  intros Hreach Hroom Hop Hr. destruct (reachable_models v Hreach) as [junk Hm].
  pose proof Hm as (Hs & Hn & Hc & Hmax).
  rewrite (models_junk _ _ _ Hm).
  eapply EmplaceBack_inplace_spec in Hop; [|done..].
  destruct Hop as (e & x & h & junk' & Hres & -> & Hlog
                   & [(-> & _ & -> & ->)|(-> & _ & -> & ->)]).
  - split; [by eauto|]. split; [done|]. split; [done|]. split; [done|].
    split; [by right|]. done.
  - split; [by eauto|]. split; [done|]. split; [|split; [done|]].
    + intros k Hk. unfold slots at 1. simpl. rewrite Hs.
      rewrite !lookup_app_l by (rewrite length_fmap, ?length_app; simpl; lia).
      rewrite fmap_app, lookup_app_l by (rewrite length_fmap; lia). done.
    + split; [left; by rewrite Hn|]. split; [done|].
      intros Ht. pose proof (models_strict _ _ _ Hm Ht) as Hj.
      apply Forall_cons in Hj as [-> _]. simpl. by rewrite app_nil_r.
Qed.

Lemma EmplaceWithoutRealloc_end (args : Args T) (v : Vector T) l h junk' e x w :
  models v l (h :: junk') → resolve args (slots v) = Some (e, x) →
  EmplaceWithoutRealloc (size_ v) args v w
  = if throws (log w) e then (Thrown, v, after [e] w)
    else if throws (log w ++ [e]) (EvMoveCtor x)
    then (Thrown, v, after [e; EvMoveCtor x; EvDtor x] w)
    else (Returned (size_ v),
          mkVector (with_block (data_ v) ((Some <$> (l ++ [x])) ++ junk'))
            (S (size_ v)),
          lose (live [h]) (after [e; EvMoveCtor x; EvDtor (moved_from x)] w)).
Proof.
  intros (Hs & Hn & Hc & Hmax) Hres. unfold EmplaceWithoutRealloc.
  rewrite Hres. unfold attempt.
  destruct (throws (log w) e) eqn:He; simpl; [done|].
  rewrite decide_False by lia.
  erewrite (construct_at_at _ (Some <$> l) junk' h); cycle 1.
  { done. } { by rewrite length_fmap. }
  simpl. destruct (throws (log w ++ [e]) (EvMoveCtor x)) eqn:Hm.
  - rewrite with_slots_same. unfold record, after. simpl.
    by rewrite <- !app_assoc.
  - unfold record, after, lose. simpl. rewrite <- !app_assoc.
    rewrite fmap_app, <- app_assoc. done.
Qed.

(** Emplace at end() against EmplaceBack, when both return: they leave
    the same vector and give the same position.  On a full vector they run
    the same operations; on a vector that has room, Emplace runs two more,
    the move construction of the new element from a temporary and the
    destruction of that temporary. *)
Theorem Emplace_at_end_vs_EmplaceBack `{!Lawful T} (args : Args T)
    (v : Vector T) (w : World T) i1 v1 w1 i2 v2 w2 :
  reachable v →
  EmplaceBack args v w = (Returned i1, v1, w1) →
  Emplace (end_ v) args v w = (Returned i2, v2, w2) →
  ∃ x, elements v1 = elements v ++ [x]
       ∧ i2 = i1 ∧ v2 = v1
       ∧ w2 = after (if decide (size_ v = Capacity v) then []
                     else [EvMoveCtor x; EvDtor (moved_from x)]) w1.
Proof.
  intros Hreach HEB HE. destruct (reachable_models v Hreach) as [junk Hm].
  set (l := elements v) in *. clearbody l.
  pose proof Hm as (Hs & Hn & Hc & Hmax).
  unfold end_, GetAddress, Emplace in HE. simpl in HE.
  rewrite decide_True in HE by done.
  case_decide as Hfull.
  - pose proof (grown_capacity_models _ _ _ Hm Hfull) as (-> & Hc1 & _).
    eapply EmplaceBack_growth_spec in HEB; [|done..].
    destruct HEB
      as [(? & _)|[(? & _)|(e & x & Hres & [(? & _)|(Hi & _ & -> & Hmax' & ->)])]];
      try done.
    assert (Hm0 : models v (l ++ []) []) by by rewrite app_nil_r.
    eapply (EmplaceWithRealloc_spec _ args v l []) in HE; [|done..].
    destruct HE
      as [(? & _)|[(? & _)|(e' & x' & Hres' & [(? & _)|[(? & _)|(Hi' & -> & _ & ->)]])]];
      try done.
    rewrite app_nil_r in Hres'. rewrite Hres in Hres'.
    injection Hres' as <- <-.
    exists x. rewrite after_nil. split.
    + eapply (models_elements _ _
                (replicate (grown_capacity (size_ v) - S (length l)) None)).
      replace (S (length l)) with (length (l ++ [x])) at 2
        by (rewrite length_app; simpl; lia).
      apply models_fresh; [|done]. rewrite length_app. simpl. lia.
    + split; [by simplify_eq|]. rewrite !app_nil_r. by csimpl.
  - eapply EmplaceBack_inplace_spec in HEB; [|done..].
    destruct HEB as (e & x & h & junk' & Hres & -> & _
                     & [(? & _)|(Hi & He & -> & ->)]); try done.
    rewrite (EmplaceWithoutRealloc_end args v l h junk' e x w Hm Hres) in HE.
    rewrite He in HE.
    destruct (throws (log w ++ [e]) (EvMoveCtor x)); [done|].
    injection HE as <- <- <-.
    exists x. split.
    + eapply (models_elements _ _ junk').
      replace (S (length l)) with (length (l ++ [x]))
        by (rewrite length_app; simpl; lia).
      apply (models_reshape v l (h :: junk')); [done|].
      rewrite length_app. simpl. lia.
    + split; [by simplify_eq|]. rewrite Hn. split; [done|].
      by rewrite after_lose, after_after.
Qed.

Lemma resolve_inside (j : nat) (own : block) e x :
  resolve (ByCopy (Inside j)) own = Some (e, x) →
  own !! j = Some (Some x) ∧ e = EvCopyCtor x.
Proof.
  simpl. destruct (own !! j) as [[y|]|]; intros; simplify_eq; done.
Qed.

(** EmplaceBack and PushBack of the vector's own element [j], when the
    call returns: the appended value is the value element [j] had before
    the call when the vector has room, and what relocation has left of it
    when the vector is full, that is the same value under relocation by
    copy and the moved-from value under relocation by move. *)
Theorem EmplaceBack_own_element `{!Lawful T} (j : nat) (v : Vector T)
    (w : World T) i v' w' :
  reachable v → j < size_ v →
  EmplaceBack (ByCopy (Inside j)) v w = (Returned i, v', w') →
  ∃ y, elements v !! j = Some y
       ∧ elements v'
         = elements v ++ [if decide (size_ v = Capacity v)
                          then residue relocate_by_move y else y].
Proof.
  intros Hreach Hj Hop. destruct (reachable_models v Hreach) as [junk Hm].
  set (l := elements v) in *. clearbody l.
  pose proof Hm as (Hs & Hn & Hc & Hmax).
  destruct (EmplaceBack_returned_models _ _ _ _ _ _ _ _ Hm Hop)
    as (e & x & junk' & _ & Hm' & Hres & _).
  rewrite (models_elements _ _ _ Hm').
  apply resolve_inside in Hres as [Hx _].
  rewrite Hn in Hj. destruct (lookup_lt_is_Some_2 _ _ Hj) as [y Hy].
  exists y. split; [done|]. case_decide as Hfull.
  - rewrite !list_lookup_fmap, Hy in Hx. simpl in Hx. by simplify_eq.
  - rewrite Hs, lookup_app_l in Hx by (by rewrite length_fmap).
    rewrite list_lookup_fmap, Hy in Hx. simpl in Hx. by simplify_eq.
Qed.

(** Emplace and Insert of the vector's own element [j] at [pos], when the
    call returns: the inserted value is the value element [j] had before
    the call, except on a full vector when [j < pos], where it is what
    relocation has left of it (the moved-from value under relocation by
    move). *)
Theorem Emplace_own_element `{!Lawful T} (pos j : nat) (v : Vector T)
    (w : World T) i v' w' :
  reachable v → j < size_ v →
  Emplace pos (ByCopy (Inside j)) v w = (Returned i, v', w') →
  ∃ y, elements v !! j = Some y
       ∧ elements v'
         = take pos (elements v)
           ++ (if decide (size_ v = Capacity v ∧ j < pos)
               then residue relocate_by_move y else y)
           :: drop pos (elements v).
Proof.
  intros Hreach Hj Hop. destruct (reachable_models v Hreach) as [junk Hm].
  set (l := elements v) in *. clearbody l.
  pose proof Hm as (Hs & Hn & Hc & Hmax).
  destruct (Emplace_returned_models _ _ _ _ _ _ _ _ _ Hm Hop)
    as (e & x & junk' & _ & Hpos & Hm' & Hres & _).
  rewrite (models_elements _ _ _ Hm').
  apply resolve_inside in Hres as [Hx _].
  rewrite Hn in Hj. destruct (lookup_lt_is_Some_2 _ _ Hj) as [y Hy].
  exists y. split; [done|].
  destruct (decide (size_ v = Capacity v)) as [Hfull|Hroom].
  - rewrite list_lookup_fmap in Hx.
    destruct (decide (j < pos)) as [Hlt|Hge].
    + rewrite decide_True by done.
      rewrite lookup_app_l in Hx by (rewrite length_fmap, length_take; lia).
      rewrite list_lookup_fmap, lookup_take_lt, Hy in Hx by done. simpl in Hx.
      by simplify_eq.
    + rewrite decide_False by lia.
      rewrite lookup_app_r in Hx by (rewrite length_fmap, length_take; lia).
      rewrite length_fmap, length_take, lookup_drop in Hx.
      replace (pos + (j - pos `min` length l)) with j in Hx by lia.
      rewrite Hy in Hx. simpl in Hx. by simplify_eq.
  - rewrite decide_False by (intros [? _]; done).
    rewrite Hs, lookup_app_l in Hx by (by rewrite length_fmap).
    rewrite list_lookup_fmap, Hy in Hx. simpl in Hx. by simplify_eq.
Qed.

(** Emplace and Insert on a reachable vector that has room, when the call
    throws: size and capacity are unchanged, the number of elements is the
    same and the elements before [pos] are untouched.  Either nothing is
    lost, or a move assignment of the shift has thrown after the last
    element had been move-constructed into the slot behind the elements,
    and then what is lost is the object that was still alive in that slot,
    if any: nothing when the slots behind the elements are unconstructed.
    When move assignment cannot throw, the vector is exactly as before and
    nothing is lost. *)
Theorem Emplace_with_room_throw `{!Lawful T} (pos : nat) (args : Args T)
    (v : Vector T) (w : World T) v' w' :
  reachable v → size_ v ≠ Capacity v →
  Emplace pos args v w = (Thrown, v', w') →
  size_ v' = size_ v ∧ Capacity v' = Capacity v
  ∧ (leaked w' = leaked w
     ∨ leaked w' = leaked w ++ live (take 1 (drop (size_ v) (slots v)))
       ∧ ∃ h d s, throws h (EvMoveAssign d s) = true)
  ∧ (tail_unconstructed v → leaked w' = leaked w)
  ∧ length (elements v') = length (elements v)
  ∧ take pos (elements v') = take pos (elements v)
  ∧ (nothrow_move_assign → v' = v ∧ leaked w' = leaked w).
Proof.
  intros Hreach Hroom Hop. destruct (reachable_models v Hreach) as [junk Hm].
  set (l := elements v) in *. clearbody l.
  pose proof Hm as (Hs & Hn & Hc & Hmax).
  rewrite (models_junk _ _ _ Hm).
  unfold Emplace in Hop. case_decide as Hpos; [|done].
  rewrite decide_False in Hop by done.
  assert (Hla : length (take pos l) = pos) by (rewrite length_take; lia).
  rewrite <- (take_drop pos l) in Hm.
  eapply EmplaceWithoutRealloc_spec in Hop; [|done..].
  rewrite take_drop in Hm.
  destruct Hop
    as (e & y & Hres
        & [(_ & _ & -> & ->)
          |(h & junk' & -> & _
            & [(? & _)
              |[(_ & -> & Hleak)
               |(_ & zs & z & Hzs & -> & Hleak & Hth)]])]); [| done | |].
  - rewrite (models_elements _ _ _ Hm).
    split; [done|]. split; [done|]. split; [by left|]. done.
  - rewrite (models_elements _ _ _ Hm).
    split; [done|]. split; [done|]. split; [by left|]. done.
  - assert (Hm' : models
              (with_slots v ((Some <$> take pos l ++ zs) ++ Some z :: junk'))
              (take pos l ++ zs) (Some z :: junk')).
    { apply models_with_slots with (l := l) (junk := h :: junk'); [done| |done].
      rewrite length_app, Hzs, <- length_app, take_drop. done. }
    split; [done|]. split; [done|].
    split; [right; by split|].
    split.
    { intros Ht. pose proof (models_strict _ _ _ Hm Ht) as Hj.
      apply Forall_cons in Hj as [-> _]. rewrite Hleak. simpl.
      by rewrite app_nil_r. }
    rewrite (models_elements _ _ _ Hm').
    split; [by rewrite length_app, Hzs, <- length_app, take_drop|].
    split; [by rewrite take_app_length' by done|].
    intros Hno. destruct Hth as (hh & d & s & Hth). by rewrite Hno in Hth.
Qed.

Lemma leaked_Deallocate_clean (n : nat) (junk : block) (w : World T) :
  Forall (.= None) junk →
  leaked (Deallocate (replicate n None ++ junk) w) = leaked w.
Proof.
  intros Hj. rewrite Deallocate_lose, live_app, live_replicate_None.
  rewrite (live_None _ Hj). simpl. by rewrite app_nil_r.
Qed.

Lemma EmplaceBack_leaked `{!Lawful T} (args : Args T) (v : Vector T) l junk
    w r v' w' :
  models v l junk → Forall (.= None) junk →
  EmplaceBack args v w = (r, v', w') → r ≠ Undefined →
  leaked w' = leaked w.
Proof.
  intros Hm Hj Hop Hr. destruct (decide (size_ v = Capacity v)) as [Hfull|Hroom].
  - eapply EmplaceBack_growth_spec in Hop; [|done..].
    destruct Hop
      as [(_ & _ & -> & _)
         |[(_ & l1 & y & l2 & _ & _ & _ & ->)
          |(e & x & _ & [(_ & _ & _ & ->)|(_ & _ & _ & _ & ->)])]]; done.
  - eapply EmplaceBack_inplace_spec in Hop; [|done..].
    destruct Hop as (e & x & h & junk' & _ & -> & _
                     & [(_ & _ & _ & ->)|(_ & _ & _ & ->)]); [done|].
    apply Forall_cons in Hj as [-> _]. simpl. by rewrite app_nil_r.
Qed.

(** On a reachable vector with nothing constructed behind its elements,
    no object is ever lost, whatever the outcome, by Reserve, Resize,
    EmplaceBack, PushBack, PopBack, Erase, Emplace on a vector that has
    room, the copy constructor, copy assignment and the destructor (for the
    insertions: as long as the call violates no precondition). *)
Theorem guarded_operations_lose_nothing `{!Lawful T} (v : Vector T)
    (w : World T) :
  reachable v → tail_unconstructed v →
  (∀ n, leaked (Reserve n v w).2 = leaked w)
  ∧ (∀ n, leaked (Resize n v w).2 = leaked w)
  ∧ (∀ args, (EmplaceBack args v w).1.1 ≠ Undefined →
       leaked (EmplaceBack args v w).2 = leaked w)
  ∧ (∀ value, (PushBack_copy value v w).1.1 ≠ Undefined →
       leaked (PushBack_copy value v w).2 = leaked w)
  ∧ (∀ value, (PushBack_move value v w).1.1 ≠ Undefined →
       leaked (PushBack_move value v w).2 = leaked w)
  ∧ leaked (PopBack v w).2 = leaked w
  ∧ (∀ pos, leaked (Erase pos v w).2 = leaked w)
  ∧ (∀ pos args, size_ v ≠ Capacity v →
       (Emplace pos args v w).1.1 ≠ Undefined →
       leaked (Emplace pos args v w).2 = leaked w)
  ∧ leaked (Vector_copy v w).2 = leaked w
  ∧ (∀ rhs, reachable rhs →
       leaked (Vector_copy_assign (Other rhs) v w).2 = leaked w)
  ∧ leaked (Vector_destroy v w).2 = leaked w.
Proof.
  intros Hreach Htail. destruct (reachable_models v Hreach) as [junk Hm].
  set (l := elements v) in *. clearbody l.
  pose proof (models_strict _ _ _ Hm Htail) as Hj.
  pose proof Hm as (Hs & Hn & Hc & Hmax).
  assert (HEB : ∀ args, (EmplaceBack args v w).1.1 ≠ Undefined →
                  leaked (EmplaceBack args v w).2 = leaked w).
  { intros args Hr. destruct (EmplaceBack args v w) as [[r v'] w'] eqn:Hop.
    by eapply EmplaceBack_leaked. }
  pose proof (tail_intact _ _ _ Hm Htail) as Hint.
  pose proof (models_intact _ _ _ Hm Hint) as Hcap.
  split; [|split; [|split; [done|split; [|split; [|split; [|split;
    [|split; [|split; [|split]]]]]]]]].
  - intros n. destruct (Reserve n v w) as [[r v'] w'] eqn:Hop.
    destruct (Reserve_spec n v l junk w r v' w' Hm Hop)
      as [(_ & _ & _ & ->)
         |[(_ & _ & m & _ & _ & _ & _ & _ & _ & ->)
          |[(_ & _ & _ & -> & _)
           |[(_ & _ & l1 & x & l2 & _ & _ & _ & ->)
            |(_ & _ & _ & _ & _ & es & ->)]]]]; try done.
    simpl snd. by rewrite leaked_Deallocate_clean.
  - intros n. destruct (decide (n < size_ v)) as [Hlt|Hge].
    + by rewrite (Resize_shrink_spec n v l junk w Hm Hlt).
    + apply Nat.nlt_ge in Hge.
      destruct (Resize n v w) as [[r v'] w'] eqn:Hop.
      destruct (Resize_grow_spec n v l junk w r v' w' Hm Hge Hop)
        as [(_ & _ & _ & Hl)
           |[(_ & _ & _ & _ & _ & Hl)|(_ & _ & _ & _ & Hl)]]; by apply Hl.
  - intros value. specialize (HEB (ByCopy value)). unfold PushBack_copy.
    destruct (EmplaceBack (ByCopy value) v w) as [[[i| |] v'] w']; simpl in *;
      intros Hr; by apply HEB.
  - intros value. specialize (HEB (ByMove value)). unfold PushBack_move.
    destruct (EmplaceBack (ByMove value) v w) as [[[i| |] v'] w']; simpl in *;
      intros Hr; by apply HEB.
  - destruct (decide (size_ v = 0)) as [Hz|Hnz].
    + unfold PopBack. by rewrite Hz.
    + destruct (models_snoc _ _ _ Hm Hnz) as (l0 & x & ->).
      by rewrite (PopBack_spec v l0 x junk w Hm).
  - intros pos. destruct (decide (pos < size_ v)) as [Hlt|Hge].
    + rewrite Hn in Hlt.
      destruct (lookup_lt_is_Some_2 _ _ Hlt) as [y Hy].
      destruct (Erase pos v w) as [[r v'] w'] eqn:Hop.
      rewrite <- (take_drop_middle l pos y Hy) in Hm.
      eapply Erase_spec in Hop; [|done|rewrite length_take; lia].
      simpl snd. by destruct Hop as [(_ & _ & ->)|(_ & _ & -> & _)].
    + unfold Erase. by rewrite decide_False.
  - intros pos args Hroom Hr.
    destruct (Emplace pos args v w) as [[r v'] w'] eqn:Hop. simpl in *.
    unfold Emplace in Hop. case_decide as Hpos; [|by simplify_eq].
    rewrite decide_False in Hop by done.
    rewrite <- (take_drop pos l) in Hm.
    eapply EmplaceWithoutRealloc_spec in Hop;
      [|done|rewrite length_take; lia|done|done].
    simpl snd.
    destruct Hop
      as (e & y & _
          & [(_ & _ & _ & ->)
            |(h & junk' & -> & _
              & [(_ & _ & ->)|[(_ & _ & ->)|(_ & _ & _ & _ & _ & -> & _)]])]);
      try done;
      apply Forall_cons in Hj as [-> _]; simpl; by rewrite app_nil_r.
  - destruct (Vector_copy v w) as [r w'] eqn:Hop. simpl snd.
    by destruct (Vector_copy_spec v l junk w r w' Hm Hop)
      as [(_ & ->)|(_ & -> & _)].
  - intros rhs Hrhs. destruct (reachable_models rhs Hrhs) as [junkr Hmr].
    destruct (Vector_copy_assign (Other rhs) v w) as [[r v'] w'] eqn:Hop.
    simpl snd.
    destruct (Vector_copy_assign_spec rhs v l junk _ junkr w r v' w' Hm Hmr Hop)
      as [(_ & [(_ & _ & ->)|(_ & _ & -> & _)])
         |(Hfit & [(_ & _ & _ & ->)
                  |[(_ & _ & (j & ->) & _)|(_ & Hshort)]])]; try done.
    + by rewrite leaked_Deallocate_clean.
    + simpl. rewrite (live_None (take _ junk)) by (by apply Forall_take).
      by rewrite app_nil_r.
    + rewrite (live_None (take _ junk)) by (by apply Forall_take).
      by rewrite app_nil_r.
    + pose proof Hmr as (_ & Hnr & _). lia.
  - rewrite (Vector_destroy_spec v l junk w Hm).
    simpl snd. by rewrite leaked_Deallocate_clean.
Qed.


Lemma allocations_app (es1 es2 : list (Event T)) :
  allocations (es1 ++ es2) = allocations es1 + allocations es2.
Proof.
  induction es1 as [|e es1 IH]; [done|]. destruct e; simpl; rewrite IH; done.
Qed.

Lemma allocations_relocation (by_move : bool) (l : list T) :
  allocations (relocation_ctor by_move <$> l) = 0.
Proof. induction l; [done|]. by destruct by_move. Qed.

Lemma allocations_dtor (l : list T) : allocations (EvDtor <$> l) = 0.
Proof. by induction l. Qed.

Lemma allocations_resolve (args : Args T) (own : block) e x :
  resolve args own = Some (e, x) → allocations [e] = 0.
Proof.
  destruct args as [[y|j]|y|y]; simpl; try (intros; by simplify_eq).
  destruct (own !! j) as [[z|]|]; intros; by simplify_eq.
Qed.

Lemma EmplaceBack_returned_cost `{!Lawful T} (args : Args T) (v : Vector T)
    l junk w i v' w' :
  models v l junk → EmplaceBack args v w = (Returned i, v', w') →
  ∃ es, log w' = log w ++ es
        ∧ (Forall (.= None) junk → w' = after es w)
        ∧ allocations es = (if decide (size_ v = Capacity v) then 1 else 0)
        ∧ length es = (if decide (size_ v = Capacity v)
                       then 2 * size_ v + 2 else 1)
        ∧ Capacity v' = (if decide (size_ v = Capacity v)
                         then 1 `max` (2 * Capacity v) else Capacity v).
Proof.
  intros Hm Hop. pose proof Hm as (Hs & Hn & Hc & Hmax).
  destruct (decide (size_ v = Capacity v)) as [Hfull|Hroom].
  - pose proof (grown_capacity_models _ _ _ Hm Hfull) as (-> & _ & Hg & _).
    eapply EmplaceBack_growth_spec in Hop; [|done..].
    destruct Hop
      as [(? & _)|[(? & _)|(e & y & Hres & [(? & _)|(Hi & _ & -> & _ & ->)])]];
      try done.
    eexists. split; [done|]. split; [done|]. split; [|split].
    + cbn [allocations].
      rewrite !allocations_app, allocations_relocation, allocations_dtor.
      by rewrite (allocations_resolve _ _ _ _ Hres).
    + cbn [length]. rewrite !length_app, !length_fmap. simpl. lia.
    + unfold Capacity in *. simpl. rewrite Hg. case_decide; lia.
  - eapply EmplaceBack_inplace_spec in Hop; [|done..].
    destruct Hop as (e & y & h & junk' & Hres & -> & _
                     & [(? & _)|(Hi & _ & -> & ->)]); try done.
    exists [e]. split; [done|]. split.
    { intros Hj. apply Forall_cons in Hj as [-> _]. apply lose_nil. }
    split; [|done].
    by apply (allocations_resolve _ _ _ _ Hres).
Qed.

Lemma EmplaceBack_each_room `{!Lawful T} (argss : list (Args T)) :
  ∀ (v : Vector T) l junk w r v' w',
  models v l junk → length l + length argss ≤ Capacity v →
  EmplaceBack_each argss v w = (r, v', w') → r ≠ Undefined →
  ∃ es l' junk',
    log w' = log w ++ es ∧ leaked w' = leaked w ++ live (take (length l') junk)
    ∧ allocations es = 0
    ∧ models v' (l ++ l') junk' ∧ Capacity v' = Capacity v
    ∧ (Forall (.= None) junk → Forall (.= None) junk')
    ∧ (r = Returned tt → length l' = length argss ∧ length es = length argss)
    ∧ (r = Thrown → length l' < length argss ∧ length es = S (length l')).
Proof.
  induction argss as [|args argss IH]; intros v l junk w r v' w' Hm Hroom.
  - simpl. intros [= <- <- <-] _. exists [], [], junk.
    rewrite take_0, live_nil, !app_nil_r. do 7 (split; [done|]). done.
  - simpl. destruct (EmplaceBack args v w) as [[r1 v1] w1] eqn:HEB.
    pose proof Hm as (Hs & Hn & Hc & Hmax). simpl in Hroom.
    assert (Hnf : size_ v ≠ Capacity v) by lia.
    destruct r1 as [i| |]; cycle 1.
    + intros [= <- <- <-] _.
      eapply EmplaceBack_inplace_spec in HEB; [|done..].
      destruct HEB as (e & y & h & junk' & Hres & -> & _
                       & [(_ & _ & -> & ->)|(? & _)]); [|done].
      exists [e], [], (h :: junk'). rewrite (app_nil_r l).
      split; [done|].
      split; [simpl; by rewrite live_nil, app_nil_r|].
      split; [by apply (allocations_resolve _ _ _ _ Hres)|].
      split; [done|]. split; [done|]. split; [done|].
      split; [done|]. intros _. simpl. split; [lia|done].
    + by intros [= <- <- <-].
    + intros Hop Hr.
      destruct (EmplaceBack_returned_models _ _ _ _ _ _ _ _ Hm HEB)
        as (e & x & junk1 & _ & Hm1 & Hres & Hj1 & Hw1).
      destruct (Hw1 Hnf) as (-> & -> & Hc1).
      rewrite decide_False in Hres by done.
      eapply (IH v1 (l ++ [x]) (drop 1 junk)) in Hop; [|done| |done].
      * destruct Hop as (es & l' & junk' & Hlog & Hw' & Hes & Hm' & Hc' & Hj'
                         & HR & HT).
        exists (e :: es), (x :: l'), junk'.
        split; [rewrite Hlog; simpl; by rewrite <- app_assoc|].
        split.
        { rewrite Hw'. simpl. rewrite <- app_assoc, <- live_app. do 2 f_equal.
          destruct junk; simpl; by rewrite ?take_nil. }
        split.
        { change (e :: es) with ([e] ++ es).
          by rewrite allocations_app, (allocations_resolve _ _ _ _ Hres), Hes. }
        split; [by rewrite <- app_assoc in Hm'|].
        split; [lia|]. split; [by auto|].
        split; [intros Hret; destruct (HR Hret); simpl; lia|].
        intros Hth; destruct (HT Hth); simpl; lia.
      * rewrite length_app. simpl. lia.
Qed.

(** Reserve(n) followed by a run of EmplaceBack calls that fit in [n] and
    violate no precondition: the run allocates nothing and keeps the
    capacity, it runs one operation per call made (the constructor of the
    new element; the run stops at the first one that throws), and the
    elements present before are untouched, in value and in place.  The run
    adds one element per call when it returns, and fewer when it throws.
    Each call that returns constructs its element in the next slot behind
    the elements, so that what the run loses are the objects that were
    still alive in those slots: nothing when the slots behind the elements
    are unconstructed after the Reserve. *)
Theorem Reserve_then_EmplaceBack_each `{!Lawful T} (n : nat)
    (argss : list (Args T)) (v : Vector T) (w : World T) v1 w1 r v2 w2 :
  reachable v → Reserve n v w = (Returned tt, v1, w1) →
  size_ v + length argss ≤ n →
  EmplaceBack_each argss v1 w1 = (r, v2, w2) → r ≠ Undefined →
  Capacity v2 = Capacity v1
  ∧ (∃ es, log w2 = log w1 ++ es ∧ allocations es = 0
           ∧ length es = length argss `min` S (size_ v2 - size_ v))
  ∧ leaked w2
    = leaked w1 ++ live (take (size_ v2 - size_ v) (drop (size_ v1) (slots v1)))
  ∧ (tail_unconstructed v1 → leaked w2 = leaked w1)
  ∧ take (size_ v) (elements v2) = elements v
  ∧ (∀ k, k < size_ v → Vector_at v2 k = Vector_at v k)
  ∧ (r = Returned tt → size_ v2 = size_ v + length argss)
  ∧ (r = Thrown → size_ v2 < size_ v + length argss).
Proof.
  intros Hreach HRes Hlen Hop Hr.
  destruct (reachable_models v Hreach) as [junk Hm].
  set (l := elements v) in *. clearbody l.
  pose proof Hm as (Hs & Hn & Hc & Hmax).
  assert (∃ junk1, models v1 l junk1 ∧ n ≤ Capacity v1) as (junk1 & Hm1 & Hcap).
  { destruct (Reserve_spec n v l junk w _ v1 w1 Hm HRes)
      as [(Hle & _ & -> & _)
         |[(Hlt & _ & m & Hm1 & Hm2 & Hm3 & Hm4 & Hm5 & -> & _)
          |[(_ & ? & _)|[(_ & ? & _)|(_ & ? & _)]]]]; try done.
    - by exists junk.
    - exists (replicate (m - length l) None). split; [|done].
      apply models_intro; [done|done| |]; rewrite length_replicate.
      + unfold Capacity in *. simpl. lia.
      + eapply servable_eq; [done|lia]. }
  eapply (EmplaceBack_each_room argss v1 l junk1) in Hop; [|done|lia|done].
  destruct Hop as (es & l' & junk' & Hlog & Hw2 & Hes & Hm2 & Hc2 & _ & HR & HT).
  pose proof Hm2 as (_ & Hn2 & _). rewrite length_app in Hn2.
  assert (Hdone : size_ v2 - size_ v = length l') by lia.
  split; [done|]. split; [|split; [|split; [|split; [|split; [|split]]]]].
  - exists es. split; [done|]. split; [done|].
    destruct r as [[]| |]; [|destruct (HT eq_refl)|done].
    + destruct (HR eq_refl). lia.
    + lia.
  - by rewrite (models_junk _ _ _ Hm1), Hdone.
  - intros Ht. rewrite Hw2, (live_None (take _ junk1)), app_nil_r; [done|].
    apply Forall_take. by eapply models_strict.
  - rewrite (models_elements _ _ _ Hm2), Hn.
    by rewrite take_app_length.
  - intros k Hk. rewrite (Vector_at_models _ _ _ k Hm2).
    rewrite (Vector_at_models _ _ _ k Hm).
    by rewrite lookup_app_l by lia.
  - intros Hret. destruct (HR Hret). lia.
  - intros Hth. destruct (HT Hth). lia.
Qed.

Lemma EmplaceBack_each_growth `{!Lawful T} (argss : list (Args T)) :
  ∀ (v : Vector T) l junk w v' w' a t,
  models v l junk → Forall (.= None) junk →
  (length l = 0 ∧ Capacity v = 0 ∧ a = 0 ∧ t = 0
   ∨ 0 < length l ∧ Capacity v = 2 ^ Nat.log2_up (length l)
     ∧ a = S (Nat.log2_up (length l))
     ∧ t = length l + a + 2 * (Capacity v - 1)) →
  EmplaceBack_each argss v w = (Returned tt, v', w') →
  ∃ es l' junk',
    w' = after es w ∧ models v' (l ++ l') junk' ∧ length l' = length argss
    ∧ (length (l ++ l') = 0 ∧ Capacity v' = 0
       ∧ a + allocations es = 0 ∧ t + length es = 0
       ∨ 0 < length (l ++ l')
         ∧ Capacity v' = 2 ^ Nat.log2_up (length (l ++ l'))
         ∧ a + allocations es = S (Nat.log2_up (length (l ++ l')))
         ∧ t + length es
           = length (l ++ l') + (a + allocations es) + 2 * (Capacity v' - 1)).
Proof.
  induction argss as [|args argss IH]; intros v l junk w v' w' a t Hm Hj Hst.
  - simpl. intros [= <- <-]. exists [], [], junk.
    rewrite after_nil, app_nil_r. do 3 (split; [done|]).
    cbn [allocations length].
    destruct Hst as [(? & ? & ? & ?)|(? & ? & ? & ?)]; [left|right];
      repeat split; lia.
  - simpl. destruct (EmplaceBack args v w) as [[r1 v1] w1] eqn:HEB.
    destruct r1 as [i| |]; [|done|done]. intros Hop.
    pose proof Hm as (Hs & Hn & Hc & Hmax).
    destruct (EmplaceBack_returned_models _ _ _ _ _ _ _ _ Hm HEB)
      as (e & x & junk1 & _ & Hm1 & _ & Hj1 & _).
    destruct (EmplaceBack_returned_cost _ _ _ _ _ _ _ _ Hm HEB)
      as (es1 & _ & Hw1 & Hes1 & Hlen1 & Hc1).
    rewrite (Hw1 Hj) in Hop.
    eapply (IH v1 (l ++ [x]) junk1 _ _ _ (a + allocations es1)
              (t + length es1)) in Hop; [|done|by auto|].
    + destruct Hop as (es & l' & junk' & -> & Hm' & Hl' & Hst').
      exists (es1 ++ es), (x :: l'), junk'.
      rewrite after_after, allocations_app, (length_app es1 es).
      rewrite <- app_assoc in Hm', Hst'. cbn [app] in Hm', Hst'.
      split; [done|]. split; [done|]. split; [simpl; lia|].
      destruct Hst' as [(? & ? & ? & ?)|(? & ? & ? & ?)]; [left|right];
        repeat split; lia.
    + right. rewrite length_app. simpl. split; [lia|].
      rewrite Hes1, Hlen1, Hc1. clear Hes1 Hlen1 Hc1.
      destruct Hst as [(Hz & Hcz & -> & ->)|(Hpos & Hcp & -> & ->)].
      * destruct (decide (size_ v = Capacity v)) as [Hfull|Hroom]; [|lia].
        rewrite Hn, Hz, Hcz. repeat split; reflexivity.
      * destruct (decide (size_ v = Capacity v)) as [Hfull|Hroom].
        -- assert (Hpow : length l = 2 ^ Nat.log2_up (length l)) by lia.
           assert (Hlog : Nat.log2_up (length l + 1)
                          = S (Nat.log2_up (length l))).
           { apply Nat.log2_up_unique; [lia|]. simpl pred.
             rewrite Nat.pow_succ_r'. lia. }
           rewrite Hlog, Nat.pow_succ_r'. repeat split; lia.
        -- assert (Hgt : 1 < length l).
           { destruct (decide (length l = 1)) as [H1|]; [|lia].
             rewrite H1 in Hcp. simpl in Hcp. lia. }
           pose proof (Nat.log2_up_spec _ Hgt) as [Hlo Hhi].
           assert (Hk : 0 < Nat.log2_up (length l))
             by (apply Nat.log2_up_pos; lia).
           assert (Hlog : Nat.log2_up (length l + 1) = Nat.log2_up (length l)).
           { apply Nat.log2_up_unique; [done|]. lia. }
           rewrite Hlog. repeat split; lia.
Qed.

(** Filling a default-constructed vector by a run of [n] EmplaceBack
    calls that all return: the size is [n]; the capacity is 0 for [n = 0]
    and otherwise the least power of two that is at least [n], hence less
    than [2 * n]; the number of allocations is 0 for [n = 0] and otherwise
    [ceil(log2 n) + 1]; and the number of operations run in all is [n]
    constructions of new elements, the allocations, and a relocation and a
    destruction for each of the [capacity - 1] elements moved between
    blocks, which is less than [6 * n]. *)
Theorem EmplaceBack_each_from_empty `{!Lawful T} (argss : list (Args T))
    (w : World T) v' w' :
  EmplaceBack_each argss Vector_default w = (Returned tt, v', w') →
  size_ v' = length argss
  ∧ Capacity v' = (if decide (length argss = 0) then 0
                   else 2 ^ Nat.log2_up (length argss))
  ∧ (length argss ≠ 0 → Capacity v' < 2 * length argss)
  ∧ ∃ es, w' = after es w
          ∧ allocations es = (if decide (length argss = 0) then 0
                              else S (Nat.log2_up (length argss)))
          ∧ length es = (if decide (length argss = 0) then 0
                         else length argss + S (Nat.log2_up (length argss))
                              + 2 * (Capacity v' - 1))
          ∧ (length argss ≠ 0 → length es < 6 * length argss).
Proof.
  intros Hop.
  assert (Hm0 : models (@Vector_default T) [] []).
  { apply models_intro; [done|done|simpl; lia|apply servable_zero]. }
  eapply (EmplaceBack_each_growth argss _ [] [] w v' w' 0 0) in Hop;
    [|done|by apply Forall_nil|by left].
  destruct Hop as (es & l' & junk' & -> & Hm' & Hl' & Hst).
  simpl in *. pose proof Hm' as (_ & Hn' & _).
  split; [lia|]. rewrite <- Hl'.
  destruct Hst as [(Hz & Hcz & Ha & Ht)|(Hpos & Hcp & Ha & Ht)].
  - destruct (decide (length l' = 0)); [|done].
    split; [done|]. split; [done|]. by exists es.
  - destruct (decide (length l' = 0)); [lia|].
    assert (Hlt : 2 ^ Nat.log2_up (length l') < 2 * length l').
    { destruct (decide (length l' = 1)) as [H1|Hn1]; [rewrite H1; cbn; lia|].
      pose proof (Nat.log2_up_spec (length l') ltac:(lia)) as [Hlo Hhi].
      assert (Hk : 0 < Nat.log2_up (length l'))
        by (apply Nat.log2_up_pos; lia).
      destruct (Nat.log2_up (length l')) as [|k]; [lia|].
      simpl pred in Hlo. rewrite Nat.pow_succ_r'. lia. }
    split; [done|]. split; [intros _; lia|].
    exists es. split; [done|]. split; [done|]. split; [lia|]. intros _.
    pose proof (Nat.log2_up_lt_lin (length l') ltac:(lia)). lia.
Qed.


(** Copy assignment from a vector that fits in the capacity, when it
    throws: size and capacity are unchanged, and the elements are, for
    some [j] up to the smaller of the two sizes, the first [j] elements of
    the source followed by the old elements from [j] on.  What is lost are
    the objects that were still alive in the slots behind the elements and
    that copies of the tail of the source have been constructed over:
    nothing when the slots behind the elements are unconstructed. *)
Theorem copy_assign_in_place_throw `{!Lawful T} (rhs v : Vector T)
    (w : World T) v' w' :
  reachable v → reachable rhs → size_ rhs ≤ Capacity v →
  Vector_copy_assign (Other rhs) v w = (Thrown, v', w') →
  size_ v' = size_ v ∧ Capacity v' = Capacity v
  ∧ (∃ k, leaked w' = leaked w ++ live (take k (drop (size_ v) (slots v))))
  ∧ (tail_unconstructed v → leaked w' = leaked w)
  ∧ ∃ j, j ≤ size_ v `min` size_ rhs
         ∧ elements v' = take j (elements rhs) ++ drop j (elements v).
Proof.
  intros Hreach Hrhs Hfit Hop.
  destruct (reachable_models v Hreach) as [junk Hm].
  destruct (reachable_models rhs Hrhs) as [junkr Hmr].
  pose proof Hm as (Hs & Hn & Hc & Hmax).
  pose proof Hmr as (Hsr & Hnr & Hcr & Hmaxr).
  rewrite Hnr in Hfit. rewrite (models_junk _ _ _ Hm).
  destruct (Vector_copy_assign_spec rhs v _ junk _ junkr w _ v' w' Hm Hmr Hop)
    as [(Hlt & _)
       |(_ & [(? & _)
             |[(_ & (l' & junk2 & -> & Hl' & Hj2 & _ & j & Hj & Hel)
                 & (k & Hleak) & _)
              |(? & _)]])];
    [lia|done| |done].
  assert (Hm' : models (with_slots v ((Some <$> l') ++ junk2)) l' junk2)
    by by eapply models_with_slots.
  split; [done|]. split; [done|]. split; [by exists k|].
  split.
  - intros Ht. rewrite Hleak, (live_None (take k junk)), app_nil_r; [done|].
    apply Forall_take. by eapply models_strict.
  - exists j. split; [lia|]. by rewrite (models_elements _ _ _ Hm').
Qed.

Lemma resolve_valid (args : Args T) (v : Vector T) (l' : list T)
    (junk : block) :
  valid_args args v → size_ v = length l' →
  resolve args ((Some <$> l') ++ junk) ≠ None.
Proof.
  intros Hvalid Hn. destruct args as [[y|j]|y|y]; try done.
  simpl in *. rewrite lookup_app_l by (rewrite length_fmap; lia).
  rewrite list_lookup_fmap.
  destruct (lookup_lt_is_Some_2 l' j ltac:(lia)) as [y ->]. done.
Qed.

Lemma EmplaceBack_valid_defined `{!Lawful T} (args : Args T) (v : Vector T)
    l junk w :
  models v l junk → intact v → valid_args args v →
  (EmplaceBack args v w).1.1 ≠ Undefined.
Proof.
  intros Hm Hint Hvalid Hr. pose proof Hm as (Hs & Hn & _).
  destruct (EmplaceBack args v w) as [[r v'] w'] eqn:Hop. simpl in Hr.
  destruct (decide (size_ v = Capacity v)) as [Hfull|Hroom].
  - pose proof (EmplaceBack_growth_undefined _ _ _ _ _ _ _ _ Hm Hfull Hop Hr)
      as Hres.
    rewrite <- (app_nil_r (Some <$> _)) in Hres.
    eapply resolve_valid; [done| |done]. by rewrite length_fmap.
  - destruct (EmplaceBack_inplace_undefined _ _ _ _ _ _ _ _ Hm Hroom Hop Hr)
      as [Hres|Hj].
    + rewrite Hs in Hres. by eapply resolve_valid.
    + by apply (models_room _ _ _ Hm Hroom Hint).
Qed.

Lemma Emplace_valid_defined `{!Lawful T} (pos : nat) (args : Args T)
    (v : Vector T) l junk w :
  models v l junk → intact v → valid_args args v → pos ≤ size_ v →
  (Emplace pos args v w).1.1 ≠ Undefined.
Proof.
  intros Hm Hint Hvalid Hpos Hr. pose proof Hm as (Hs & Hn & _).
  destruct (Emplace pos args v w) as [[r v'] w'] eqn:Hop. simpl in Hr.
  unfold Emplace in Hop. rewrite decide_True in Hop by done.
  assert (Hla : pos = length (take pos l)) by (rewrite length_take; lia).
  rewrite <- (take_drop pos l) in Hm.
  case_decide as Hfull.
  - pose proof (grown_capacity_models _ _ _ Hm Hfull) as (-> & _).
    pose proof (EmplaceWithRealloc_undefined _ _ _ _ _ _ _ _ _ Hm Hla Hfull
                  Hop Hr) as Hres.
    rewrite <- (app_nil_r (Some <$> _)) in Hres.
    eapply resolve_valid; [done| |done].
    rewrite length_app, length_fmap, <- length_app, take_drop. done.
  - destruct (EmplaceWithoutRealloc_undefined _ _ _ _ _ _ _ _ _ _
                Hm Hla Hfull Hop Hr) as [Hres|Hj].
    + rewrite Hs in Hres. by eapply resolve_valid.
    + by apply (models_room _ _ _ Hm Hfull Hint).
Qed.

(** On a reachable vector the operations violate no precondition beyond
    their documented ones, as long as byte counts fit size_t.  The copy
    constructor, the destructor, and Reserve for a request whose byte
    count fits size_t, are always defined; PopBack exactly on a non-empty
    vector; Erase and operator[] exactly at an index below the size.  When
    moreover the block has the slots the capacity says (which can only
    fail after a Reserve or Resize whose byte count has wrapped around),
    Resize for a request whose byte count fits, copy assignment from a
    reachable vector and PushBack of an rvalue are always defined,
    EmplaceBack and PushBack for every valid argument, and Emplace and
    Insert, for a valid argument, exactly at a position up to the size.
    A vector whose block is smaller than its capacity is never full, so
    that an insertion into it never allocates. *)
Theorem preconditions_suffice `{!Lawful T} (v : Vector T) (w : World T) :
  reachable v →
  (∀ n, fits_size_t n → (Reserve n v w).1.1 ≠ Undefined)
  ∧ (∀ n, fits_size_t n → intact v → (Resize n v w).1.1 ≠ Undefined)
  ∧ ((PopBack v w).1.1 ≠ Undefined ↔ size_ v ≠ 0)
  ∧ (∀ pos, (Erase pos v w).1.1 ≠ Undefined ↔ pos < size_ v)
  ∧ (∀ index, Vector_at v index ≠ Undefined ↔ index < size_ v)
  ∧ (∀ args, intact v → valid_args args v →
       (EmplaceBack args v w).1.1 ≠ Undefined)
  ∧ (∀ value, intact v → valid_args (ByCopy value) v →
       (PushBack_copy value v w).1.1 ≠ Undefined)
  ∧ (∀ value, intact v → (PushBack_move value v w).1.1 ≠ Undefined)
  ∧ (∀ pos args, intact v → valid_args args v →
       (Emplace pos args v w).1.1 ≠ Undefined ↔ pos ≤ size_ v)
  ∧ (∀ pos value, intact v → valid_args (ByCopy value) v →
       (Insert_copy pos value v w).1.1 ≠ Undefined ↔ pos ≤ size_ v)
  ∧ (∀ pos value, intact v →
       (Insert_move pos value v w).1.1 ≠ Undefined ↔ pos ≤ size_ v)
  ∧ (Vector_copy v w).1 ≠ Undefined
  ∧ (∀ rhs, reachable rhs → intact v →
       (Vector_copy_assign (Other rhs) v w).1.1 ≠ Undefined)
  ∧ (Vector_destroy v w).1 ≠ Undefined
  ∧ (¬ intact v → length (slots v) < Capacity v ∧ size_ v < Capacity v).
Proof.
  intros Hreach. destruct (reachable_models v Hreach) as [junk Hm].
  set (l := elements v) in *. clearbody l.
  pose proof Hm as (Hs & Hn & Hc & Hmax).
  pose proof (models_length _ _ _ Hm) as Hlen.
  assert (HE : ∀ pos args, intact v → valid_args args v →
                 (Emplace pos args v w).1.1 ≠ Undefined ↔ pos ≤ size_ v).
  { intros pos args Hint Hvalid. split.
    - intros Hr. destruct (decide (pos ≤ size_ v)) as [|Hgt]; [done|].
      exfalso. apply Hr. unfold Emplace. by rewrite decide_False.
    - intros Hpos. by eapply Emplace_valid_defined. }
  split; [|split; [|split; [|split; [|split; [|split; [|split; [|split;
    [|split; [done|split; [|split; [|split; [|split; [|split]]]]]]]]]]]]].
  - intros n Hfit. destruct (Reserve n v w) as [[r v'] w'] eqn:Hop. simpl.
    destruct (Reserve_spec n v l junk w r v' w' Hm Hop)
      as [(_ & -> & _)
         |[(_ & -> & _)|[(_ & -> & _)|[(_ & -> & _)|(_ & _ & ? & _)]]]]; done.
  - intros n Hfit Hint. destruct (decide (n < size_ v)) as [Hlt|Hge].
    + by rewrite (Resize_shrink_spec n v l junk w Hm Hlt).
    + apply Nat.nlt_ge in Hge.
      destruct (Resize n v w) as [[r v'] w'] eqn:Hop. simpl.
      destruct (Resize_grow_spec n v l junk w r v' w' Hm Hge Hop)
        as [(-> & _)|[(-> & _)|(-> & _ & Hshort & Hwrap & _)]]; try done.
      intros _. unfold intact in Hint.
      destruct (decide (Capacity v < n)) as [Hlt|?]; [by apply Hwrap|lia].
  - split.
    + intros Hr Hz. apply Hr. unfold PopBack. by rewrite Hz.
    + intros Hnz. destruct (models_snoc _ _ _ Hm Hnz) as (l0 & x & ->).
      by rewrite (PopBack_spec v l0 x junk w Hm).
  - intros pos. split.
    + intros Hr. destruct (decide (pos < size_ v)) as [|Hge]; [done|].
      exfalso. apply Hr. unfold Erase. by rewrite decide_False.
    + intros Hlt. rewrite Hn in Hlt.
      destruct (lookup_lt_is_Some_2 _ _ Hlt) as [y Hy].
      destruct (Erase pos v w) as [[r v'] w'] eqn:Hop. simpl.
      rewrite <- (take_drop_middle l pos y Hy) in Hm.
      eapply Erase_spec in Hop; [|done|rewrite length_take; lia].
      by destruct Hop as [(-> & _)|(-> & _)].
  - intros index. rewrite (Vector_at_models v l junk index Hm), Hn. split.
    + intros Hr. apply lookup_lt_is_Some.
      destruct (l !! index); [by eexists|done].
    + intros Hlt. by destruct (lookup_lt_is_Some_2 _ _ Hlt) as [y ->].
  - intros args Hint Hvalid. by eapply EmplaceBack_valid_defined.
  - intros value Hint Hvalid.
    pose proof (EmplaceBack_valid_defined (ByCopy value) v l junk w Hm Hint
                  Hvalid).
    unfold PushBack_copy.
    by destruct (EmplaceBack (ByCopy value) v w) as [[[i| |] v'] w'].
  - intros value Hint.
    pose proof (EmplaceBack_valid_defined (ByMove value) v l junk w Hm Hint I).
    unfold PushBack_move.
    by destruct (EmplaceBack (ByMove value) v w) as [[[i| |] v'] w'].
  - intros pos value Hint Hvalid. by apply HE.
  - intros pos value Hint. by apply HE.
  - destruct (Vector_copy v w) as [r w'] eqn:Hop. simpl.
    by destruct (Vector_copy_spec v l junk w r w' Hm Hop)
      as [(-> & _)|(-> & _)].
  - intros rhs Hrhs Hint. destruct (reachable_models rhs Hrhs) as [junkr Hmr].
    destruct (Vector_copy_assign (Other rhs) v w) as [[r v'] w'] eqn:Hop.
    simpl.
    destruct (Vector_copy_assign_spec rhs v l junk _ junkr w r v' w' Hm Hmr Hop)
      as [(_ & [(-> & _)|(-> & _)])
         |(Hfit & [(-> & _)|[(-> & _)|(-> & Hshort)]])]; try done.
    unfold intact in Hint. lia.
  - by rewrite (Vector_destroy_spec v l junk w Hm).
  - intros Hni. unfold intact in Hni. lia.
Qed.


Lemma shift_events_length (y : T) (xs : list T) :
  length (shift_events y xs) = length xs.
Proof. revert y. induction xs as [|x xs IH]; intros y; simpl; by rewrite ?IH. Qed.

Lemma allocations_shift (y : T) (xs : list T) :
  allocations (shift_events y xs) = 0.
Proof. revert y. induction xs as [|x xs IH]; intros y; simpl; by rewrite ?IH. Qed.

(** Erase at [pos] on a reachable vector of size [n]: when it returns it
    has run [n - pos] operations, none an allocation ([n - pos - 1] move
    assignments and one destructor); when it throws, size and capacity are
    unchanged, nothing is lost, the number of elements is the same and the
    elements before [pos] are untouched. *)
Theorem Erase_cost_and_failure `{!Lawful T} (pos : nat) (v : Vector T)
    (w : World T) r v' w' :
  reachable v → pos < size_ v → Erase pos v w = (r, v', w') →
  (r = Returned pos →
     ∃ es, w' = after es w ∧ length es = size_ v - pos ∧ allocations es = 0)
  ∧ (r = Thrown →
       size_ v' = size_ v ∧ Capacity v' = Capacity v ∧ leaked w' = leaked w
       ∧ length (elements v') = length (elements v)
       ∧ take pos (elements v') = take pos (elements v)).
Proof.
  intros Hreach Hlt Hop. destruct (reachable_models v Hreach) as [junk Hm].
  set (l := elements v) in *. clearbody l.
  pose proof Hm as (Hs & Hn & Hc & Hmax). rewrite Hn in Hlt.
  destruct (lookup_lt_is_Some_2 _ _ Hlt) as [y Hy].
  assert (Hla : length (take pos l) = pos) by (rewrite length_take; lia).
  pose proof Hm as Hm0.
  rewrite <- (take_drop_middle l pos y Hy) in Hm.
  eapply Erase_spec in Hop; [|done|done].
  destruct Hop as [(-> & -> & ->)|(-> & (zs & Hzs & ->) & Hleak & _)].
  - split; [|done]. intros _. eexists. split; [done|].
    rewrite length_app, shift_events_length, length_drop.
    rewrite allocations_app, allocations_shift. simpl. split; [lia|done].
  - split; [done|]. intros _.
    assert (Hlen : length (take pos l ++ zs) = length l).
    { rewrite length_app, Hzs, Hla, length_drop. lia. }
    assert (Hm' : models
              (with_slots v ((Some <$> take pos l ++ zs) ++ junk))
              (take pos l ++ zs) junk).
    { by apply models_with_slots with (l := l) (junk := junk). }
    split; [done|]. split; [done|]. split; [done|].
    rewrite (models_elements _ _ _ Hm').
    split; [done|]. by rewrite take_app_length' by done.
Qed.

Lemma EmplaceWithoutRealloc_returned_events (index : nat) (args : Args T)
    (v : Vector T) la lb junk w i v' w' :
  models v (la ++ lb) junk → index = length la → size_ v ≠ Capacity v →
  EmplaceWithoutRealloc index args v w = (Returned i, v', w') →
  ∃ es, log w' = log w ++ es
        ∧ leaked w' = leaked w ++ live (take 1 junk)
        ∧ length es = length lb + 3 ∧ allocations es = 0.
Proof.
  intros (Hs & Hn & Hc & Hm) -> Hfull. rewrite length_app in *.
  unfold EmplaceWithoutRealloc.
  destruct (resolve args _) as [[e x]|] eqn:Eres; [|done].
  pose proof (allocations_resolve _ _ _ _ Eres) as He0.
  unfold attempt. simpl.
  destruct (throws (log w) e) eqn:He; simpl; [done|].
  destruct junk as [|h junk'].
  { rewrite app_nil_r in Hs. case_decide.
    - rewrite move_construct_at_end by (rewrite Hs, length_fmap, length_app; lia).
      done.
    - unfold construct_at.
      rewrite lookup_ge_None_2 by (rewrite Hs, length_fmap, length_app; lia).
      done. }
  destruct lb as [|z m _] using rev_ind.
  - rewrite decide_False by (rewrite Hn; simpl; lia).
    rewrite app_nil_r in *.
    erewrite construct_at_at; [|exact Hs|by rewrite length_fmap].
    simpl. destruct (throws _ (EvMoveCtor x)) eqn:Hx; [done|].
    intros [= <- <- <-].
    exists [e; EvMoveCtor x; EvDtor (moved_from x)].
    split; [|split; [done|split; [done|]]].
    + simpl. by rewrite <- !app_assoc.
    + change [e; EvMoveCtor x; EvDtor (moved_from x)]
        with ([e] ++ [EvMoveCtor x; EvDtor (moved_from x)]).
      by rewrite allocations_app, He0.
  - rewrite length_app in *. simpl in *.
    rewrite decide_True by lia.
    erewrite (move_construct_at_spec _ ((Some <$> la) ++ (Some <$> m)) junk' z h);
      [|rewrite Hs; solve_list|rewrite Hn, length_app, !length_fmap; lia
       |rewrite Hn, length_app, !length_fmap; lia].
    simpl. destruct (throws _ (EvMoveCtor z)) eqn:Hz; [done|].
    destruct (shift_right _ _ _ _) as [[r1 b2] w3] eqn:Eshift.
    eapply (shift_right_at _ (Some <$> la) (Some z :: junk') m (moved_from z))
      in Eshift;
      [|solve_list|by rewrite length_fmap|rewrite Hn, length_fmap; lia].
    destruct Eshift
      as [(-> & -> & ->)|(-> & (zs & Hzs & ->) & (es & ->) & Hthrow)]; [|done].
    erewrite move_assign_from_spec; [|done|by rewrite length_fmap].
    destruct (throws _ (EvMoveAssign _ x)) eqn:Hx; [done|].
    intros [= <- <- <-].
    exists ([e] ++ [EvMoveCtor z] ++ shift_events (moved_from z) (rev m)
            ++ [EvMoveAssign (shift_last (moved_from z) (rev m)) x]
            ++ [EvDtor (moved_from x)]).
    split; [|split; [|split]].
    + simpl. by rewrite <- !app_assoc.
    + done.
    + rewrite !length_app, shift_events_length, length_rev. simpl. lia.
    + rewrite !allocations_app, allocations_shift. simpl. by rewrite He0.
Qed.

(** What an insertion that returns has run, on a reachable vector of size
    [n].  EmplaceBack: the constructor alone when there is room; on a full
    vector one allocation and [2 * n + 2] operations in all.  Emplace at
    [pos]: on a full vector the same; when there is room, no allocation and
    [n - pos + 3] operations.  On a full vector nothing is lost; when there
    is room, what is lost is the object that was still alive in the slot
    behind the elements, if any, which the insertion constructs over. *)
Theorem insertion_cost `{!Lawful T} (v : Vector T) (w : World T) :
  reachable v →
  (∀ args i v' w', EmplaceBack args v w = (Returned i, v', w') →
     ∃ es, log w' = log w ++ es
           ∧ (size_ v = Capacity v →
              w' = after es w
              ∧ length es = 2 * size_ v + 2 ∧ allocations es = 1)
           ∧ (size_ v ≠ Capacity v →
              leaked w' = leaked w ++ live (take 1 (drop (size_ v) (slots v)))
              ∧ length es = 1 ∧ allocations es = 0))
  ∧ (∀ pos args i v' w', Emplace pos args v w = (Returned i, v', w') →
       ∃ es, log w' = log w ++ es
             ∧ (size_ v = Capacity v →
                w' = after es w
                ∧ length es = 2 * size_ v + 2 ∧ allocations es = 1)
             ∧ (size_ v ≠ Capacity v →
                leaked w' = leaked w ++ live (take 1 (drop (size_ v) (slots v)))
                ∧ length es = size_ v - pos + 3 ∧ allocations es = 0)).
Proof.
  intros Hreach. destruct (reachable_models v Hreach) as [junk Hm].
  set (l := elements v) in *. clearbody l.
  pose proof Hm as (Hs & Hn & Hc & Hmax).
  rewrite (models_junk _ _ _ Hm). split.
  - intros args i v' w' Hop.
    destruct (decide (size_ v = Capacity v)) as [Hfull|Hroom].
    + pose proof (grown_capacity_models _ _ _ Hm Hfull) as (-> & _).
      eapply EmplaceBack_growth_spec in Hop; [|done..].
      destruct Hop
        as [(? & _)|[(? & _)|(e & y & Hres & [(? & _)|(Hi & _ & _ & _ & ->)])]];
        try done.
      eexists. split; [done|]. split; [intros _|done]. split; [done|]. split.
      * cbn [length]. rewrite !length_app, !length_fmap. simpl. lia.
      * cbn [allocations].
        rewrite !allocations_app, allocations_relocation, allocations_dtor.
        by rewrite (allocations_resolve _ _ _ _ Hres).
    + eapply EmplaceBack_inplace_spec in Hop; [|done..].
      destruct Hop as (e & y & h & junk' & Hres & -> & Hlog
                       & [(? & _)|(_ & _ & _ & ->)]); [done|].
      exists [e]. split; [done|]. split; [done|]. intros _.
      split; [done|]. split; [done|].
      by apply (allocations_resolve _ _ _ _ Hres).
  - intros pos args i v' w' Hop.
    unfold Emplace in Hop. case_decide as Hpos; [|done].
    assert (Hla : pos = length (take pos l)) by (rewrite length_take; lia).
    rewrite <- (take_drop pos l) in Hm.
    case_decide as Hfull.
    + pose proof (grown_capacity_models _ _ _ Hm Hfull) as (-> & _).
      eapply EmplaceWithRealloc_spec in Hop; [|done..].
      destruct Hop
        as [(? & _)|[(? & _)|(e & y & Hres & [(? & _)|[(? & _)|(Hi & _ & _ & ->)]])]];
        try done.
      eexists. split; [done|]. split; [intros _|done]. split; [done|]. split.
      * cbn [length]. rewrite !length_app, !length_fmap, !length_app.
        rewrite length_take, length_drop. simpl. lia.
      * cbn [allocations].
        rewrite !allocations_app, !allocations_relocation, allocations_dtor.
        by rewrite (allocations_resolve _ _ _ _ Hres).
    + eapply EmplaceWithoutRealloc_returned_events in Hop; [|done..].
      destruct Hop as (es & Hlog & Hleak & Hlen & Hes).
      exists es. split; [done|]. split; [done|]. intros _.
      rewrite length_drop in Hlen. split; [done|]. split; [lia|done].
Qed.

Lemma Capacity_Reserve_mono (n : nat) (v : Vector T) (w : World T) :
  Capacity v ≤ Capacity (Reserve n v w).1.2.
Proof.
  unfold Reserve. case_decide as Hle; [done|].
  unfold RawMemory_new, Allocate.
  repeat (case_match; simplify_eq; try done); unfold Capacity in *; simpl; lia.
Qed.

Lemma Capacity_EmplaceBack_mono (args : Args T) (v : Vector T) (w : World T) :
  (size_ v = Capacity v → (N.of_nat (Capacity v) ≤ max_alloc)%N) →
  Capacity v ≤ Capacity (EmplaceBack args v w).1.2.
Proof.
  intros Hmax. unfold EmplaceBack. case_decide as Hfull.
  - rewrite Hfull, grown_capacity_small by (by apply Hmax).
    unfold RawMemory_new, Allocate.
    repeat (case_match; simplify_eq; try done); unfold Capacity in *; simpl; lia.
  - repeat case_match; done.
Qed.

Lemma Capacity_Emplace_mono (pos : nat) (args : Args T) (v : Vector T)
    (w : World T) :
  (size_ v = Capacity v → (N.of_nat (Capacity v) ≤ max_alloc)%N) →
  Capacity v ≤ Capacity (Emplace pos args v w).1.2.
Proof.
  intros Hmax. unfold Emplace. case_decide as Hpos; [|done].
  case_decide as Hfull.
  - unfold EmplaceWithRealloc.
    rewrite Hfull, grown_capacity_small by (by apply Hmax).
    unfold RawMemory_new, Allocate.
    repeat (case_match; simplify_eq; try done); unfold Capacity in *; simpl; lia.
  - unfold EmplaceWithoutRealloc. repeat case_match; done.
Qed.

(** The capacity never shrinks: on a reachable vector, whatever the
    outcome, Reserve, Resize, EmplaceBack, PushBack, PopBack, Emplace,
    Insert, Erase and copy assignment leave a capacity that is at least the
    former one.  (The doubling [size_ * 2] cannot wrap around, for a block
    that the allocator has served holds fewer than 2^63 elements.)  Only
    the move operations and Swap, which exchange blocks, can lower the
    capacity of a vector. *)
Theorem capacity_never_shrinks `{!Lawful T} (v : Vector T) (w : World T) :
  reachable v →
  (∀ n, Capacity v ≤ Capacity (Reserve n v w).1.2)
  ∧ (∀ n, Capacity v ≤ Capacity (Resize n v w).1.2)
  ∧ (∀ args, Capacity v ≤ Capacity (EmplaceBack args v w).1.2)
  ∧ (∀ value, Capacity v ≤ Capacity (PushBack_copy value v w).1.2)
  ∧ (∀ value, Capacity v ≤ Capacity (PushBack_move value v w).1.2)
  ∧ Capacity v ≤ Capacity (PopBack v w).1.2
  ∧ (∀ pos args, Capacity v ≤ Capacity (Emplace pos args v w).1.2)
  ∧ (∀ pos value, Capacity v ≤ Capacity (Insert_copy pos value v w).1.2)
  ∧ (∀ pos value, Capacity v ≤ Capacity (Insert_move pos value v w).1.2)
  ∧ (∀ pos, Capacity v ≤ Capacity (Erase pos v w).1.2)
  ∧ (∀ rhs, Capacity v ≤ Capacity (Vector_copy_assign rhs v w).1.2).
Proof.
  intros Hreach. destruct (reachable_models v Hreach) as (junk & Hm).
  assert (Hmax : size_ v = Capacity v → (N.of_nat (Capacity v) ≤ max_alloc)%N).
  { intros Hfull. destruct (models_full _ _ _ Hm Hfull) as [-> _].
    destruct Hm as (_ & Hn & _ & Hserv). rewrite Nat.add_0_r in Hserv.
    rewrite <- Hfull, Hn. by apply servable_bound. }
  assert (HEB := λ args, Capacity_EmplaceBack_mono args v w Hmax).
  assert (HE := λ pos args, Capacity_Emplace_mono pos args v w Hmax).
  split; [intros n; apply Capacity_Reserve_mono|].
  split.
  { intros n. unfold Resize. case_decide as Hlt.
    - repeat case_match; done.
    - pose proof (Capacity_Reserve_mono n v w) as HR.
      case_decide as Hcap.
      + destruct (Reserve n v w) as [[r v1] w1]. simpl in HR.
        repeat case_match; simplify_eq; done.
      + repeat case_match; simplify_eq; done. }
  split; [done|]. split.
  { intros value. specialize (HEB (ByCopy value)). unfold PushBack_copy.
    repeat case_match; simplify_eq; done. }
  split.
  { intros value. specialize (HEB (ByMove value)). unfold PushBack_move.
    repeat case_match; simplify_eq; done. }
  split; [unfold PopBack; repeat case_match; done|].
  split; [done|]. split; [intros; apply HE|]. split; [intros; apply HE|].
  split; [intros pos; unfold Erase; repeat case_match; done|].
  intros [|rhs]; [done|]. unfold Vector_copy_assign. case_decide as Hcap.
  - unfold Vector_copy, Swap, RawMemory_Swap, RawMemory_new, Allocate.
    repeat (case_match; simplify_eq; try done); unfold Capacity in *; simpl in *;
      lia.
  - repeat case_match; done.
Qed.

End Operations.
(** * The instrumented element types at work *)

Lemma triple_eta {A B C : Type} (p : A * B * C) : p = (p.1.1, p.1.2, p.2).
Proof. by destruct p as [[a b] c]. Qed.

Lemma alloc_throws_limit (n : nat) :
  (max_alloc < N.of_nat (wrap64 (n * 4)))%N → Instr.alloc_throws n = true.
Proof. intros Hn. unfold Instr.alloc_throws. by apply N.ltb_lt. Qed.

Lemma copy_bomb_lawful : @Lawful nat Instr.copy_bomb.
Proof.
  split; [simpl; lia|done|done|].
  intros h n Hn. by apply alloc_throws_limit.
Qed.

Lemma copy_only_lawful : @Lawful nat Instr.copy_only.
Proof.
  split; [simpl; lia|done|done|].
  intros h n Hn. by apply alloc_throws_limit.
Qed.

Lemma assign_bomb_lawful : @Lawful nat Instr.assign_bomb.
Proof.
  split; [simpl; lia|done|done|].
  intros h n Hn. by apply alloc_throws_limit.
Qed.

Section CopyOnly.
#[local] Existing Instance Instr.copy_only.

Lemma copy_only_reachable_one : reachable (packed [7] 1).
Proof.
  eapply (reach_EmplaceBack (ByCtor 7) Vector_default Instr.w0 (Returned 0)
            (packed [7] 1)); [apply reach_default|reflexivity|done].
Qed.

(** C1, at the failing input: the element type relocates by copy and its
    copy constructor throws on the value 13.  Insert of 13 at the end of the
    full vector [7] copies 7 into the new block, then the construction of
    the new element throws.  The vector is as before, but the copy of 7 in
    the new block is never destroyed: no destructor runs and the block is
    released with the object in it. *)
Theorem Insert_realloc_leaks_prefix :
  Insert_copy 1 (Outside 13) (packed [7] 1) Instr.w0
  = (Thrown, packed [7] 1,
     mkWorld [EvAlloc 2; EvCopyCtor 7; EvCopyCtor 13] [7]).
Proof. reflexivity. Qed.

Lemma EmplaceBack_copy_relocation_strong_witness :
  @Lawful nat Instr.copy_only ∧ relocate_by_move = false
  ∧ reachable (packed [7] 1)
  ∧ leaked (EmplaceBack (ByCopy (Outside 13)) (packed [7] 1) Instr.w0).2 = [].
Proof.
  split; [exact copy_only_lawful|]. split; [reflexivity|].
  split; [exact copy_only_reachable_one|].
  exact (proj2 (@EmplaceBack_copy_relocation_strong nat Instr.copy_only
                  copy_only_lawful (ByCopy (Outside 13)) (packed [7] 1)
                  Instr.w0 (packed [7] 1)
                  (mkWorld [EvAlloc 2; EvCopyCtor 7; EvCopyCtor 13; EvDtor 7] [])
                  eq_refl copy_only_reachable_one eq_refl eq_refl)).
Defined.

Lemma Emplace_copy_relocation_throw_witness :
  @Lawful nat Instr.copy_only ∧ relocate_by_move = false
  ∧ reachable (packed [7] 1)
  ∧ (Insert_copy 1 (Outside 13) (packed [7] 1) Instr.w0).1.2 = packed [7] 1.
Proof.
  split; [exact copy_only_lawful|]. split; [reflexivity|].
  split; [exact copy_only_reachable_one|].
  exact (proj1 (@Emplace_copy_relocation_throw nat Instr.copy_only
                  copy_only_lawful 1 (ByCopy (Outside 13)) (packed [7] 1)
                  Instr.w0 (packed [7] 1)
                  (mkWorld [EvAlloc 2; EvCopyCtor 7; EvCopyCtor 13] [7])
                  eq_refl copy_only_reachable_one eq_refl
                  ltac:(vm_compute; lia) eq_refl)).
Defined.

End CopyOnly.

Section CopyBomb.
#[local] Existing Instance Instr.copy_bomb.

(** C2, at the failing input: the move constructor of the element type is
    noexcept and its copy constructor throws on the value 13.  PushBack of
    13 on the full vector [7] moves 7 into the new block, the construction
    of the new element throws, and the handler destroys the moved 7 in the
    new block: the exception leaves a vector whose only element is the
    moved-from object. *)
Theorem PushBack_growth_loses_elements :
  PushBack_copy (Outside 13) (packed [7] 1) Instr.w0
  = (Thrown, packed [0] 1,
     mkWorld [EvAlloc 2; EvMoveCtor 7; EvCopyCtor 13; EvDtor 7] [])
  ∧ elements (packed [7] 1) = [7]
  ∧ elements (packed [0] 1) = [0].
Proof. repeat split. Qed.

(** C7, at the failing input: Insert at the end of the full vector [7] of
    a reference to its own element 0, for an element type relocated by
    move.  The call returns position 1 and size 2, but the element read at
    position 1 is the moved-from value 0, not 7: element 0 was moved to the
    new block before the new element was copied from it. *)
Theorem Insert_own_element_reads_moved_from :
  Vector_at (packed [7] 1) 0 = Returned 7
  ∧ (Insert_copy 1 (Inside 0) (packed [7] 1) Instr.w0).1.1 = Returned 1
  ∧ size_ (Insert_copy 1 (Inside 0) (packed [7] 1) Instr.w0).1.2 = 2
  ∧ Vector_at (Insert_copy 1 (Inside 0) (packed [7] 1) Instr.w0).1.2 1
    = Returned 0
  ∧ log (Insert_copy 1 (Inside 0) (packed [7] 1) Instr.w0).2
    = [EvAlloc 2; EvMoveCtor 7; EvCopyCtor 0; EvDtor 0].
Proof. repeat split. Qed.

Lemma reachable_one : reachable (packed [7] 1).
Proof.
  eapply (reach_EmplaceBack (ByCtor 7) Vector_default Instr.w0 (Returned 0)
            (packed [7] 1)); [apply reach_default|reflexivity|done].
Qed.

Lemma reachable_three : reachable (packed [1; 2; 3] 4).
Proof.
  eapply (reach_EmplaceBack (ByCtor 3) (packed [1; 2] 4) Instr.w0 (Returned 2)
            (packed [1; 2; 3] 4)); [|reflexivity|done].
  eapply (reach_EmplaceBack (ByCtor 2) (packed [1] 4) Instr.w0 (Returned 1)
            (packed [1; 2] 4)); [|reflexivity|done].
  eapply (reach_EmplaceBack (ByCtor 1) (packed [] 4) Instr.w0 (Returned 0)
            (packed [1] 4)); [|reflexivity|done].
  eapply (reach_Reserve 4 Vector_default Instr.w0 (Returned tt) (packed [] 4));
    [apply reach_default|reflexivity|done].
Qed.

Lemma reachable_two : reachable (packed [5; 6] 2).
Proof.
  eapply (reach_EmplaceBack (ByCtor 6) (packed [5] 1) Instr.w0 (Returned 1)
            (packed [5; 6] 2)); [|reflexivity|done].
  eapply (reach_EmplaceBack (ByCtor 5) Vector_default Instr.w0 (Returned 0)
            (packed [5] 1)); [apply reach_default|reflexivity|done].
Qed.

Lemma three_intact : intact (packed [1; 2; 3] 4).
Proof. reflexivity. Qed.

Lemma reachable_invariant_witness :
  @Lawful nat Instr.copy_bomb ∧ reachable (packed [1; 2; 3] 4)
  ∧ size_within_capacity (packed [1; 2; 3] 4)
  ∧ prefix_constructed (packed [1; 2; 3] 4)
  ∧ size_ (packed [1; 2; 3] 4) ≤ length (slots (packed [1; 2; 3] 4))
  ∧ length (slots (packed [1; 2; 3] 4)) ≤ Capacity (packed [1; 2; 3] 4)
  ∧ tail_unconstructed (packed [1; 2; 3] 4).
Proof.
  split; [exact copy_bomb_lawful|]. split; [exact reachable_three|].
  destruct (@reachable_invariant nat Instr.copy_bomb copy_bomb_lawful
              (packed [1; 2; 3] 4) reachable_three)
    as (Hsz & Hp & Hlo & Hhi & Ht).
  split; [exact Hsz|]. split; [exact Hp|]. split; [exact Hlo|].
  split; [exact Hhi|]. apply Ht; [|exact three_intact].
  intros h d s. reflexivity.
Defined.

Lemma append_capacity_witness :
  @Lawful nat Instr.copy_bomb
  ∧ reachable (packed [7] 1) ∧ reachable (packed [1; 2; 3] 4)
  ∧ (EmplaceBack (ByCtor 8) (packed [7] 1) Instr.w0).1.1 = Returned 1
  ∧ Capacity (EmplaceBack (ByCtor 8) (packed [7] 1) Instr.w0).1.2 = 2
  ∧ (PushBack_move 8 (packed [7] 1) Instr.w0).1.1 = Returned tt
  ∧ Capacity (PushBack_move 8 (packed [7] 1) Instr.w0).1.2 = 2
  ∧ (EmplaceBack (ByCtor 0) Vector_default Instr.w0).1.1 = Returned 0
  ∧ Capacity (EmplaceBack (ByCtor 0) Vector_default Instr.w0).1.2 = 1
  ∧ (EmplaceBack (ByCtor 4) (packed [1; 2; 3] 4) Instr.w0).1.1 = Returned 3
  ∧ Capacity (EmplaceBack (ByCtor 4) (packed [1; 2; 3] 4) Instr.w0).1.2 = 4.
Proof.
  split; [exact copy_bomb_lawful|]. split; [exact reachable_one|].
  split; [exact reachable_three|].
  destruct (@append_capacity nat Instr.copy_bomb copy_bomb_lawful
              (packed [7] 1) Instr.w0 reachable_one)
    as (_ & _ & _ & _ & Hfull & _ & Hmove & _).
  destruct (@append_capacity nat Instr.copy_bomb copy_bomb_lawful
              Vector_default Instr.w0 (reach_default))
    as (_ & _ & _ & _ & Hempty & _).
  destruct (@append_capacity nat Instr.copy_bomb copy_bomb_lawful
              (packed [1; 2; 3] 4) Instr.w0 reachable_three)
    as (_ & _ & _ & _ & _ & _ & _ & Hroom).
  split; [exact (proj1 (Hfull (ByCtor 8) (EvCtor 8) 8 eq_refl eq_refl eq_refl))|].
  split; [exact (proj2 (Hfull (ByCtor 8) (EvCtor 8) 8 eq_refl eq_refl eq_refl))|].
  split; [exact (proj1 (Hmove 8 eq_refl eq_refl))|].
  split; [exact (proj2 (Hmove 8 eq_refl eq_refl))|].
  split; [exact (proj1 (Hempty (ByCtor 0) (EvCtor 0) 0 eq_refl eq_refl eq_refl))|].
  split; [exact (proj2 (Hempty (ByCtor 0) (EvCtor 0) 0 eq_refl eq_refl eq_refl))|].
  split.
  - exact (proj1 (Hroom (ByCtor 4) (EvCtor 4) 4 ltac:(discriminate)
                    three_intact eq_refl eq_refl)).
  - exact (proj2 (Hroom (ByCtor 4) (EvCtor 4) 4 ltac:(discriminate)
                    three_intact eq_refl eq_refl)).
Defined.

Lemma relocation_policy_witness :
  @Lawful nat Instr.copy_bomb ∧ reachable (packed [7] 1)
  ∧ (Reserve 4 (packed [7] 1) Instr.w0).1.1 = Returned tt
  ∧ (EmplaceBack (ByCopy (Outside 8)) (packed [7] 1) Instr.w0).1.1 = Returned 1
  ∧ (Emplace 0 (ByCopy (Outside 8)) (packed [7] 1) Instr.w0).1.1 = Returned 0
  ∧ (∃ j ds,
       log (Reserve 4 (packed [7] 1) Instr.w0).2
       = [] ++ EvAlloc 4 :: (EvMoveCtor <$> take j [7]) ++ (EvDtor <$> ds)
       ∧ j = 1 ∧ ds = [0]
       ∧ copy_constructions
           (EvAlloc 4 :: (EvMoveCtor <$> take j [7]) ++ (EvDtor <$> ds)) = 0)
  ∧ (∃ j new ds,
       log (EmplaceBack (ByCopy (Outside 13)) (packed [7] 1) Instr.w0).2
       = [] ++ EvAlloc 2 :: (EvMoveCtor <$> take j [7]) ++ new
            ++ (EvDtor <$> ds)
       ∧ copy_constructions
           (EvAlloc 2 :: (EvMoveCtor <$> take j [7]) ++ new ++ (EvDtor <$> ds))
         ≤ 1).
Proof.
  split; [exact copy_bomb_lawful|]. split; [exact reachable_one|].
  destruct (@relocation_policy nat Instr.copy_bomb copy_bomb_lawful
              (packed [7] 1) Instr.w0 reachable_one)
    as (HReserve & HReserve_returns & HEB & HEB_returns & _ & HE_returns).
  split; [exact (HReserve_returns 4 ltac:(vm_compute; lia)
                   ltac:(vm_compute; reflexivity) eq_refl)|].
  split; [exact (HEB_returns (ByCopy (Outside 8)) (EvCopyCtor 8) 8 eq_refl
                   eq_refl eq_refl)|].
  split; [exact (HE_returns 0 (ByCopy (Outside 8)) (EvCopyCtor 8) 8 eq_refl
                   ltac:(vm_compute; lia) eq_refl eq_refl)|].
  split.
  - destruct (HReserve 4 (Returned tt) (packed [7] 4)
                (mkWorld [EvAlloc 4; EvMoveCtor 7; EvDtor 0] [])
                ltac:(vm_compute; lia) eq_refl ltac:(discriminate))
      as (j & ds & Hlog & Hret & Hcount).
    exists j, ds. split; [exact Hlog|].
    split; [exact (proj1 (Hret eq_refl))|].
    split; [exact (proj2 (Hret eq_refl))|exact (Hcount eq_refl)].
  - destruct (HEB (ByCopy (Outside 13)) Thrown (packed [0] 1)
                (mkWorld [EvAlloc 2; EvMoveCtor 7; EvCopyCtor 13; EvDtor 7] [])
                eq_refl eq_refl ltac:(discriminate))
      as (j & new & ds & Hlog & _ & _ & Hcount).
    exists j, new, ds. split; [exact Hlog|exact (Hcount eq_refl)].
Defined.




Lemma Emplace_outside_returned_witness :
  @Lawful nat Instr.copy_bomb ∧ reachable (packed [1; 2; 3] 4)
  ∧ elements (Insert_copy 1 (Outside 9) (packed [1; 2; 3] 4) Instr.w0).1.2
    = [1; 9; 2; 3].
Proof.
  split; [exact copy_bomb_lawful|]. split; [exact reachable_three|].
  destruct (@Emplace_outside_returned nat Instr.copy_bomb copy_bomb_lawful 1
              (ByCopy (Outside 9)) 9 (packed [1; 2; 3] 4) Instr.w0 1
              (packed [1; 9; 2; 3] 4)
              (mkWorld [EvCopyCtor 9; EvMoveCtor 3; EvMoveAssign 0 2;
                        EvMoveAssign 0 9; EvDtor 0] [])
              reachable_three eq_refl eq_refl) as (_ & _ & _ & Hel & _).
  exact Hel.
Defined.

Lemma EmplaceBack_outside_returned_witness :
  @Lawful nat Instr.copy_bomb ∧ reachable (packed [7] 1)
  ∧ elements (EmplaceBack (ByCtor 8) (packed [7] 1) Instr.w0).1.2 = [7; 8].
Proof.
  split; [exact copy_bomb_lawful|]. split; [exact reachable_one|].
  destruct (@EmplaceBack_outside_returned nat Instr.copy_bomb copy_bomb_lawful
              (ByCtor 8) 8 (packed [7] 1) Instr.w0 1 (packed [7; 8] 2)
              (mkWorld [EvAlloc 2; EvMoveCtor 7; EvCtor 8; EvDtor 0] [])
              reachable_one eq_refl eq_refl) as (_ & _ & Hel).
  exact Hel.
Defined.

Lemma reachable_one_roomy : reachable (packed [1] 4).
Proof.
  eapply (reach_EmplaceBack (ByCtor 1) (packed [] 4) Instr.w0 (Returned 0)
            (packed [1] 4)); [|reflexivity|done].
  eapply (reach_Reserve 4 Vector_default Instr.w0 (Returned tt) (packed [] 4));
    [apply reach_default|reflexivity|done].
Qed.

Lemma reachable_with_bomb : reachable (packed [5; 13] 2).
Proof.
  eapply (reach_EmplaceBack (ByCtor 13) (packed [5] 1) Instr.w0 (Returned 1)
            (packed [5; 13] 2)); [|reflexivity|done].
  eapply (reach_EmplaceBack (ByCtor 5) Vector_default Instr.w0 (Returned 0)
            (packed [5] 1)); [apply reach_default|reflexivity|done].
Qed.

Lemma three_tail_unconstructed : tail_unconstructed (packed [1; 2; 3] 4).
Proof.
  intros i Hi. assert (i = 3) as -> by (vm_compute in Hi; lia). reflexivity.
Qed.

Lemma Reserve_grows_block_witness :
  @Lawful nat Instr.copy_bomb ∧ reachable (packed [7] 1)
  ∧ Reserve 4 (packed [7] 1) Instr.w0
    = (Returned tt, packed [7] 4,
       mkWorld [EvAlloc 4; EvMoveCtor 7; EvDtor 0] [])
  ∧ elements (packed [7] 4) = elements (packed [7] 1)
  ∧ Capacity (packed [7] 4) = Capacity (packed [7] 1) `max` 4
  ∧ slots (packed [7] 4)
    = (Some <$> elements (packed [7] 1))
        ++ replicate (alloc_bytes 4 / sizeof - size_ (packed [7] 1)) None
  ∧ intact (packed [7] 4) ∧ tail_unconstructed (packed [7] 4).
Proof.
  split; [exact copy_bomb_lawful|]. split; [exact reachable_one|].
  split; [reflexivity|].
  destruct (@Reserve_grows_block nat Instr.copy_bomb copy_bomb_lawful 4
              (packed [7] 1) Instr.w0 (Returned tt) (packed [7] 4)
              (mkWorld [EvAlloc 4; EvMoveCtor 7; EvDtor 0] [])
              reachable_one eq_refl) as (_ & _ & _ & _ & Hret & _).
  destruct (Hret eq_refl) as (Hel & Hcap & Hnew).
  destruct (Hnew ltac:(vm_compute; lia)) as (Hslots & _ & Hfit & _).
  split; [exact Hel|]. split; [exact Hcap|]. split; [exact Hslots|].
  exact (Hfit ltac:(vm_compute; reflexivity)).
Defined.

Lemma Resize_sets_size_witness :
  @Lawful nat Instr.copy_bomb ∧ reachable (packed [1; 2; 3] 4)
  ∧ (Resize 5 (packed [1; 2; 3] 4) Instr.w0).1.1 = Returned tt
  ∧ elements (Resize 5 (packed [1; 2; 3] 4) Instr.w0).1.2 = [1; 2; 3; 0; 0]
  ∧ Capacity (Resize 5 (packed [1; 2; 3] 4) Instr.w0).1.2 = 5
  ∧ (Resize 4 (packed [1; 2; 3] 4) Instr.w0).1.1 ≠ Undefined.
Proof.
  split; [exact copy_bomb_lawful|]. split; [exact reachable_three|].
  split; [reflexivity|].
  destruct (@Resize_sets_size nat Instr.copy_bomb copy_bomb_lawful 5
              (packed [1; 2; 3] 4) Instr.w0 (Returned tt)
              (packed [1; 2; 3; 0; 0] 5)
              (mkWorld [EvAlloc 5; EvMoveCtor 1; EvMoveCtor 2; EvMoveCtor 3;
                        EvDtor 0; EvDtor 0; EvDtor 0;
                        EvDefaultCtor; EvDefaultCtor] [])
              reachable_three eq_refl) as (_ & _ & _ & Hret & _).
  destruct (Hret eq_refl) as (_ & Hel & Hcap).
  split; [exact Hel|]. split; [exact Hcap|].
  exact (proj1 (@Resize_sets_size nat Instr.copy_bomb copy_bomb_lawful 4
                  (packed [1; 2; 3] 4) Instr.w0 _ _ _ reachable_three
                  (triple_eta _)) ltac:(vm_compute; lia)).
Defined.

Lemma PopBack_removes_last_witness :
  @Lawful nat Instr.copy_bomb ∧ reachable (packed [1; 2; 3] 4)
  ∧ ∃ v', PopBack (packed [1; 2; 3] 4) Instr.w0
          = (Returned tt, v', after [EvDtor 3] Instr.w0)
          ∧ elements v' = [1; 2]
          ∧ size_ v' = size_ (packed [1; 2; 3] 4) - 1
          ∧ Capacity v' = Capacity (packed [1; 2; 3] 4)
          ∧ slots v' !! (size_ (packed [1; 2; 3] 4) - 1) = Some None.
Proof.
  split; [exact copy_bomb_lawful|]. split; [exact reachable_three|].
  exact (proj2 (@PopBack_removes_last nat Instr.copy_bomb copy_bomb_lawful
                  (packed [1; 2; 3] 4) Instr.w0 reachable_three)
           [1; 2] 3 eq_refl).
Defined.

Lemma EmplaceBack_PopBack_witness :
  @Lawful nat Instr.copy_bomb ∧ reachable (packed [7] 1)
  ∧ ∃ x v2,
      elements (packed [7; 8] 2) = elements (packed [7] 1) ++ [x]
      ∧ PopBack (packed [7; 8] 2)
          (mkWorld [EvAlloc 2; EvMoveCtor 7; EvCtor 8; EvDtor 0] [])
        = (Returned tt, v2,
           after [EvDtor x]
             (mkWorld [EvAlloc 2; EvMoveCtor 7; EvCtor 8; EvDtor 0] []))
      ∧ elements v2 = elements (packed [7] 1)
      ∧ size_ v2 = size_ (packed [7] 1)
      ∧ Capacity v2 = Capacity (packed [7; 8] 2).
Proof.
  split; [exact copy_bomb_lawful|]. split; [exact reachable_one|].
  exact (@EmplaceBack_PopBack nat Instr.copy_bomb copy_bomb_lawful (ByCtor 8)
           (packed [7] 1) Instr.w0 1 (packed [7; 8] 2)
           (mkWorld [EvAlloc 2; EvMoveCtor 7; EvCtor 8; EvDtor 0] [])
           reachable_one eq_refl).
Defined.

Lemma Emplace_Erase_witness :
  @Lawful nat Instr.copy_bomb ∧ reachable (packed [1; 2; 3] 4)
  ∧ elements (Erase 1 (Insert_copy 1 (Outside 9) (packed [1; 2; 3] 4)
                         Instr.w0).1.2
                (Insert_copy 1 (Outside 9) (packed [1; 2; 3] 4) Instr.w0).2).1.2
    = elements (packed [1; 2; 3] 4).
Proof.
  split; [exact copy_bomb_lawful|]. split; [exact reachable_three|].
  destruct (@Emplace_Erase nat Instr.copy_bomb copy_bomb_lawful 1
              (ByCopy (Outside 9)) (packed [1; 2; 3] 4) Instr.w0 1
              (packed [1; 9; 2; 3] 4)
              (mkWorld [EvCopyCtor 9; EvMoveCtor 3; EvMoveAssign 0 2;
                        EvMoveAssign 0 9; EvDtor 0] [])
              (Returned 1) (packed [1; 2; 3] 4)
              (mkWorld [EvCopyCtor 9; EvMoveCtor 3; EvMoveAssign 0 2;
                        EvMoveAssign 0 9; EvDtor 0; EvMoveAssign 9 2;
                        EvMoveAssign 0 3; EvDtor 0] [])
              reachable_three eq_refl eq_refl) as (_ & _ & Hret).
  exact (proj1 (proj2 (Hret 1 eq_refl))).
Defined.

Lemma Erase_last_is_PopBack_witness :
  @Lawful nat Instr.copy_bomb ∧ reachable (packed [1; 2; 3] 4)
  ∧ Erase 2 (packed [1; 2; 3] 4) Instr.w0
    = (Returned 2, packed [1; 2] 4, mkWorld [EvDtor 3] []).
Proof.
  split; [exact copy_bomb_lawful|]. split; [exact reachable_three|].
  exact (proj2 (@Erase_last_is_PopBack nat Instr.copy_bomb copy_bomb_lawful
                  (packed [1; 2; 3] 4) Instr.w0 reachable_three
                  ltac:(discriminate))).
Defined.

Lemma RawMemory_new_block_witness :
  @Lawful nat Instr.copy_bomb
  ∧ RawMemory_new 3 Instr.w0
    = (Returned (mkRawMemory [@None nat; None; None] 3),
       mkWorld [EvAlloc 3] [])
  ∧ RawMemory_plus (mkRawMemory [@None nat; None; None] 3) 3 = Returned 3
  ∧ RawMemory_at (mkRawMemory [@None nat; None; None] 3) 3 = Undefined
  ∧ RawMemory_at (mkRawMemory [@None nat; None; None] 3) 2 = Returned None
  ∧ length (buffer_ (mkRawMemory [@None nat; None; None] 3)) = 3.
Proof.
  split; [exact copy_bomb_lawful|]. split; [reflexivity|].
  destruct (@RawMemory_new_block nat Instr.copy_bomb copy_bomb_lawful 3
              Instr.w0 (Returned (mkRawMemory [@None nat; None; None] 3))
              (mkWorld [EvAlloc 3] []) eq_refl)
    as (_ & _ & _ & _ & _ & Hret).
  destruct (Hret _ eq_refl) as (_ & _ & Hlen & _ & Hplus & Hat & _).
  split; [exact (Hplus 3)|]. split; [exact (Hat 3)|].
  split; [exact (Hat 2)|exact (Hlen ltac:(vm_compute; reflexivity))].
Defined.

Lemma Vector_sized_value_initializes_witness :
  @Lawful nat Instr.copy_bomb
  ∧ (Vector_sized 3 Instr.w0).1 = Returned (packed [0; 0; 0] 3)
  ∧ elements (packed [0; 0; 0] 3) = [0; 0; 0]
  ∧ intact (packed [0; 0; 0] 3)
  ∧ (Vector_sized 3 Instr.w0).2
    = mkWorld [EvAlloc 3; EvDefaultCtor; EvDefaultCtor; EvDefaultCtor] [].
Proof.
  split; [exact copy_bomb_lawful|]. split; [reflexivity|].
  destruct (@Vector_sized_value_initializes nat Instr.copy_bomb
              copy_bomb_lawful 3 Instr.w0 (Returned (packed [0; 0; 0] 3))
              (mkWorld [EvAlloc 3; EvDefaultCtor; EvDefaultCtor;
                        EvDefaultCtor] []) eq_refl)
    as (_ & _ & _ & _ & Hret & _).
  destruct (Hret _ eq_refl) as (_ & _ & Hint & Hel & Hw).
  split; [exact Hel|]. split; [exact Hint|exact Hw].
Defined.

Lemma Vector_copy_duplicates_witness :
  @Lawful nat Instr.copy_bomb ∧ reachable (packed [1; 2; 3] 4)
  ∧ elements (packed [1; 2; 3] 3) = elements (packed [1; 2; 3] 4)
  ∧ Capacity (packed [1; 2; 3] 3) = size_ (packed [1; 2; 3] 4).
Proof.
  split; [exact copy_bomb_lawful|]. split; [exact reachable_three|].
  destruct (@Vector_copy_duplicates nat Instr.copy_bomb copy_bomb_lawful
              (packed [1; 2; 3] 4) Instr.w0 (Returned (packed [1; 2; 3] 3))
              (mkWorld [EvAlloc 3; EvCopyCtor 1; EvCopyCtor 2; EvCopyCtor 3] [])
              reachable_three eq_refl) as (_ & Hret & _).
  destruct (Hret _ eq_refl) as (Hel & _ & Hcap & _).
  split; [exact Hel|exact Hcap].
Defined.

Lemma Vector_destroy_runs_destructors_witness :
  @Lawful nat Instr.copy_bomb ∧ reachable (packed [1; 2; 3] 4)
  ∧ ∃ w', Vector_destroy (packed [1; 2; 3] 4) Instr.w0 = (Returned tt, w')
          ∧ log w' = log Instr.w0 ++ (EvDtor <$> elements (packed [1; 2; 3] 4))
          ∧ leaked w'
            = leaked Instr.w0
              ++ omap id (drop (size_ (packed [1; 2; 3] 4))
                            (slots (packed [1; 2; 3] 4)))
          ∧ (tail_unconstructed (packed [1; 2; 3] 4) →
             w' = after (EvDtor <$> elements (packed [1; 2; 3] 4)) Instr.w0).
Proof.
  split; [exact copy_bomb_lawful|]. split; [exact reachable_three|].
  exact (@Vector_destroy_runs_destructors nat Instr.copy_bomb copy_bomb_lawful
           (packed [1; 2; 3] 4) Instr.w0 reachable_three).
Defined.

Lemma subscript_reads_elements_witness :
  @Lawful nat Instr.copy_bomb ∧ reachable (packed [1; 2; 3] 4)
  ∧ Vector_at (packed [1; 2; 3] 4) 1 = Returned 2
  ∧ Vector_at (packed [1; 2; 3] 4) 3 = Undefined.
Proof.
  split; [exact copy_bomb_lawful|]. split; [exact reachable_three|].
  split.
  - exact (proj1 (@subscript_reads_elements nat Instr.copy_bomb
                    copy_bomb_lawful (packed [1; 2; 3] 4) 1 reachable_three)).
  - exact (proj1 (@subscript_reads_elements nat Instr.copy_bomb
                    copy_bomb_lawful (packed [1; 2; 3] 4) 3 reachable_three)).
Defined.

Lemma EmplaceBack_with_room_witness :
  @Lawful nat Instr.copy_bomb ∧ reachable (packed [1; 2; 3] 4)
  ∧ EmplaceBack (ByCtor 4) (packed [1; 2; 3] 4) Instr.w0
    = (Returned 3, packed [1; 2; 3; 4] 4, mkWorld [EvCtor 4] [])
  ∧ Capacity (packed [1; 2; 3; 4] 4) = Capacity (packed [1; 2; 3] 4)
  ∧ leaked (mkWorld [EvCtor 4] []) = leaked Instr.w0.
Proof.
  split; [exact copy_bomb_lawful|]. split; [exact reachable_three|].
  split; [reflexivity|].
  destruct (@EmplaceBack_with_room nat Instr.copy_bomb copy_bomb_lawful
              (ByCtor 4) (packed [1; 2; 3] 4) Instr.w0 (Returned 3)
              (packed [1; 2; 3; 4] 4) (mkWorld [EvCtor 4] [])
              reachable_three ltac:(discriminate) eq_refl ltac:(discriminate))
    as (_ & Hcap & _ & _ & _ & _ & Hleak).
  split; [exact Hcap|exact (Hleak three_tail_unconstructed)].
Defined.

Lemma Emplace_at_end_vs_EmplaceBack_witness :
  @Lawful nat Instr.copy_bomb ∧ reachable (packed [1; 2; 3] 4)
  ∧ ∃ x, elements (packed [1; 2; 3; 4] 4) = elements (packed [1; 2; 3] 4) ++ [x]
         ∧ 3 = 3 ∧ packed [1; 2; 3; 4] 4 = packed [1; 2; 3; 4] 4
         ∧ mkWorld [EvCtor 4; EvMoveCtor 4; EvDtor 0] []
           = after (if decide (size_ (packed [1; 2; 3] 4)
                               = Capacity (packed [1; 2; 3] 4))
                    then [] else [EvMoveCtor x; EvDtor (moved_from x)])
               (mkWorld [EvCtor 4] []).
Proof.
  split; [exact copy_bomb_lawful|]. split; [exact reachable_three|].
  exact (@Emplace_at_end_vs_EmplaceBack nat Instr.copy_bomb copy_bomb_lawful
           (ByCtor 4) (packed [1; 2; 3] 4) Instr.w0
           3 (packed [1; 2; 3; 4] 4) (mkWorld [EvCtor 4] [])
           3 (packed [1; 2; 3; 4] 4)
           (mkWorld [EvCtor 4; EvMoveCtor 4; EvDtor 0] [])
           reachable_three eq_refl eq_refl).
Defined.

Lemma EmplaceBack_own_element_witness :
  @Lawful nat Instr.copy_bomb ∧ reachable (packed [1; 2; 3] 4)
  ∧ ∃ y, elements (packed [1; 2; 3] 4) !! 0 = Some y
         ∧ elements (packed [1; 2; 3; 1] 4)
           = elements (packed [1; 2; 3] 4)
             ++ [if decide (size_ (packed [1; 2; 3] 4)
                            = Capacity (packed [1; 2; 3] 4))
                 then residue relocate_by_move y else y].
Proof.
  split; [exact copy_bomb_lawful|]. split; [exact reachable_three|].
  exact (@EmplaceBack_own_element nat Instr.copy_bomb copy_bomb_lawful 0
           (packed [1; 2; 3] 4) Instr.w0 3 (packed [1; 2; 3; 1] 4)
           (mkWorld [EvCopyCtor 1] [])
           reachable_three ltac:(vm_compute; lia) eq_refl).
Defined.

Lemma Emplace_own_element_witness :
  @Lawful nat Instr.copy_bomb ∧ reachable (packed [5; 6] 2)
  ∧ ∃ y, elements (packed [5; 6] 2) !! 1 = Some y
         ∧ elements (packed [5; 6; 6] 4)
           = take 1 (elements (packed [5; 6] 2))
             ++ (if decide (size_ (packed [5; 6] 2) = Capacity (packed [5; 6] 2)
                            ∧ 1 < 1)
                 then residue relocate_by_move y else y)
             :: drop 1 (elements (packed [5; 6] 2)).
Proof.
  split; [exact copy_bomb_lawful|]. split; [exact reachable_two|].
  exact (@Emplace_own_element nat Instr.copy_bomb copy_bomb_lawful 1 1
           (packed [5; 6] 2) Instr.w0 1 (packed [5; 6; 6] 4)
           (mkWorld [EvAlloc 4; EvMoveCtor 5; EvCopyCtor 6; EvMoveCtor 6;
                     EvDtor 0; EvDtor 0] [])
           reachable_two ltac:(vm_compute; lia) eq_refl).
Defined.

Lemma guarded_operations_lose_nothing_witness :
  @Lawful nat Instr.copy_bomb ∧ reachable (packed [1; 2; 3] 4)
  ∧ tail_unconstructed (packed [1; 2; 3] 4)
  ∧ leaked (Reserve 8 (packed [1; 2; 3] 4) Instr.w0).2 = leaked Instr.w0
  ∧ leaked (Vector_destroy (packed [1; 2; 3] 4) Instr.w0).2 = leaked Instr.w0.
Proof.
  split; [exact copy_bomb_lawful|]. split; [exact reachable_three|].
  split; [exact three_tail_unconstructed|].
  destruct (@guarded_operations_lose_nothing nat Instr.copy_bomb
              copy_bomb_lawful (packed [1; 2; 3] 4) Instr.w0 reachable_three
              three_tail_unconstructed)
    as (HReserve & _ & _ & _ & _ & _ & _ & _ & _ & _ & Hdestroy).
  split; [exact (HReserve 8)|exact Hdestroy].
Defined.

Lemma Reserve_then_EmplaceBack_each_witness :
  @Lawful nat Instr.copy_bomb ∧ reachable (packed [7] 1)
  ∧ Reserve 4 (packed [7] 1) Instr.w0
    = (Returned tt, packed [7] 4,
       mkWorld [EvAlloc 4; EvMoveCtor 7; EvDtor 0] [])
  ∧ EmplaceBack_each [ByCtor 8; ByCtor 9] (packed [7] 4)
      (mkWorld [EvAlloc 4; EvMoveCtor 7; EvDtor 0] [])
    = (Returned tt, packed [7; 8; 9] 4,
       mkWorld [EvAlloc 4; EvMoveCtor 7; EvDtor 0; EvCtor 8; EvCtor 9] [])
  ∧ Capacity (packed [7; 8; 9] 4) = Capacity (packed [7] 4)
  ∧ leaked (mkWorld [EvAlloc 4; EvMoveCtor 7; EvDtor 0; EvCtor 8; EvCtor 9] [])
    = leaked (mkWorld [EvAlloc 4; EvMoveCtor 7; EvDtor 0] [])
        ++ live (take (size_ (packed [7; 8; 9] 4) - size_ (packed [7] 1))
                   (drop (size_ (packed [7] 4)) (slots (packed [7] 4))))
  ∧ take (size_ (packed [7] 1)) (elements (packed [7; 8; 9] 4))
    = elements (packed [7] 1).
Proof.
  split; [exact copy_bomb_lawful|]. split; [exact reachable_one|].
  split; [reflexivity|]. split; [reflexivity|].
  destruct (@Reserve_then_EmplaceBack_each nat Instr.copy_bomb copy_bomb_lawful
              4 [ByCtor 8; ByCtor 9] (packed [7] 1) Instr.w0 (packed [7] 4)
              (mkWorld [EvAlloc 4; EvMoveCtor 7; EvDtor 0] []) (Returned tt)
              (packed [7; 8; 9] 4)
              (mkWorld [EvAlloc 4; EvMoveCtor 7; EvDtor 0; EvCtor 8; EvCtor 9] [])
              reachable_one eq_refl ltac:(vm_compute; lia) eq_refl
              ltac:(discriminate)) as (Hcap & _ & Hleak & _ & Hel & _).
  split; [exact Hcap|]. split; [exact Hleak|exact Hel].
Defined.

Lemma EmplaceBack_each_from_empty_witness :
  @Lawful nat Instr.copy_bomb
  ∧ size_ (packed [1; 2; 3] 4) = 3
  ∧ Capacity (packed [1; 2; 3] 4) = 2 ^ Nat.log2_up 3
  ∧ Capacity (packed [1; 2; 3] 4) = 4.
Proof.
  split; [exact copy_bomb_lawful|].
  destruct (@EmplaceBack_each_from_empty nat Instr.copy_bomb copy_bomb_lawful
              [ByCtor 1; ByCtor 2; ByCtor 3] Instr.w0 (packed [1; 2; 3] 4)
              (mkWorld [EvAlloc 1; EvCtor 1; EvAlloc 2; EvMoveCtor 1; EvCtor 2;
                        EvDtor 0; EvAlloc 4; EvMoveCtor 1; EvMoveCtor 2;
                        EvCtor 3; EvDtor 0; EvDtor 0] [])
              eq_refl) as (Hsz & Hcap & _).
  split; [exact Hsz|]. split; [exact Hcap|reflexivity].
Defined.

Lemma copy_assign_in_place_throw_witness :
  @Lawful nat Instr.copy_bomb
  ∧ reachable (packed [1] 4) ∧ reachable (packed [5; 13] 2)
  ∧ Vector_copy_assign (Other (packed [5; 13] 2)) (packed [1] 4) Instr.w0
    = (Thrown, packed [5] 4, mkWorld [EvCopyAssign 1 5; EvCopyCtor 13] [])
  ∧ size_ (packed [5] 4) = size_ (packed [1] 4)
  ∧ Capacity (packed [5] 4) = Capacity (packed [1] 4)
  ∧ (∃ k, leaked (mkWorld [EvCopyAssign 1 5; EvCopyCtor 13] [])
          = leaked Instr.w0
            ++ live (take k (drop (size_ (packed [1] 4))
                               (slots (packed [1] 4)))))
  ∧ ∃ j, j ≤ size_ (packed [1] 4) `min` size_ (packed [5; 13] 2)
         ∧ elements (packed [5] 4)
           = take j (elements (packed [5; 13] 2))
             ++ drop j (elements (packed [1] 4)).
Proof.
  split; [exact copy_bomb_lawful|]. split; [exact reachable_one_roomy|].
  split; [exact reachable_with_bomb|]. split; [reflexivity|].
  destruct (@copy_assign_in_place_throw nat Instr.copy_bomb copy_bomb_lawful
              (packed [5; 13] 2) (packed [1] 4) Instr.w0 (packed [5] 4)
              (mkWorld [EvCopyAssign 1 5; EvCopyCtor 13] [])
              reachable_one_roomy reachable_with_bomb ltac:(vm_compute; lia)
              eq_refl) as (Hsz & Hcap & Hleak & _ & Hel).
  split; [exact Hsz|]. split; [exact Hcap|]. split; [exact Hleak|exact Hel].
Defined.

Lemma preconditions_suffice_witness :
  @Lawful nat Instr.copy_bomb ∧ reachable (packed [1; 2; 3] 4)
  ∧ intact (packed [1; 2; 3] 4)
  ∧ (Insert_copy 3 (Inside 2) (packed [1; 2; 3] 4) Instr.w0).1.1 ≠ Undefined
  ∧ (PushBack_move 9 (packed [1; 2; 3] 4) Instr.w0).1.1 ≠ Undefined
  ∧ (Reserve 9 (packed [1; 2; 3] 4) Instr.w0).1.1 ≠ Undefined
  ∧ (Resize 9 (packed [1; 2; 3] 4) Instr.w0).1.1 ≠ Undefined.
Proof.
  split; [exact copy_bomb_lawful|]. split; [exact reachable_three|].
  split; [exact three_intact|].
  destruct (@preconditions_suffice nat Instr.copy_bomb copy_bomb_lawful
              (packed [1; 2; 3] 4) Instr.w0 reachable_three)
    as (HReserve & HResize & _ & _ & _ & _ & _ & Hpush & _ & Hins & _).
  split; [apply (Hins 3 (Inside 2) three_intact); vm_compute; lia|].
  split; [exact (Hpush 9 three_intact)|].
  split; [exact (HReserve 9 ltac:(vm_compute; reflexivity))|].
  exact (HResize 9 ltac:(vm_compute; reflexivity) three_intact).
Defined.

Lemma Erase_cost_and_failure_witness :
  @Lawful nat Instr.copy_bomb ∧ reachable (packed [1; 2; 3] 4)
  ∧ ∃ es, mkWorld [EvMoveAssign 1 2; EvMoveAssign 0 3; EvDtor 0] []
          = after es Instr.w0
          ∧ length es = size_ (packed [1; 2; 3] 4) - 0 ∧ allocations es = 0.
Proof.
  split; [exact copy_bomb_lawful|]. split; [exact reachable_three|].
  exact (proj1 (@Erase_cost_and_failure nat Instr.copy_bomb copy_bomb_lawful 0
                  (packed [1; 2; 3] 4) Instr.w0 (Returned 0) (packed [2; 3] 4)
                  (mkWorld [EvMoveAssign 1 2; EvMoveAssign 0 3; EvDtor 0] [])
                  reachable_three ltac:(vm_compute; lia) eq_refl) eq_refl).
Defined.

Lemma insertion_cost_witness :
  @Lawful nat Instr.copy_bomb ∧ reachable (packed [1; 2; 3] 4)
  ∧ Emplace 1 (ByCopy (Outside 9)) (packed [1; 2; 3] 4) Instr.w0
    = (Returned 1, packed [1; 9; 2; 3] 4,
       mkWorld [EvCopyCtor 9; EvMoveCtor 3; EvMoveAssign 0 2;
                EvMoveAssign 0 9; EvDtor 0] [])
  ∧ ∃ es, log (mkWorld [EvCopyCtor 9; EvMoveCtor 3; EvMoveAssign 0 2;
                        EvMoveAssign 0 9; EvDtor 0] [])
          = log Instr.w0 ++ es
          ∧ length es = size_ (packed [1; 2; 3] 4) - 1 + 3
          ∧ allocations es = 0.
Proof.
  split; [exact copy_bomb_lawful|]. split; [exact reachable_three|].
  split; [reflexivity|].
  destruct (proj2 (@insertion_cost nat Instr.copy_bomb copy_bomb_lawful
                     (packed [1; 2; 3] 4) Instr.w0 reachable_three)
              1 (ByCopy (Outside 9)) 1 (packed [1; 9; 2; 3] 4)
              (mkWorld [EvCopyCtor 9; EvMoveCtor 3; EvMoveAssign 0 2;
                        EvMoveAssign 0 9; EvDtor 0] []) eq_refl)
    as (es & Hlog & _ & Hroom).
  exists es. split; [exact Hlog|].
  exact (proj2 (Hroom ltac:(discriminate))).
Defined.

Lemma capacity_never_shrinks_witness :
  @Lawful nat Instr.copy_bomb ∧ reachable (packed [1; 2; 3] 4)
  ∧ Capacity (packed [1; 2; 3] 4)
    ≤ Capacity (Resize 1 (packed [1; 2; 3] 4) Instr.w0).1.2
  ∧ Capacity (packed [1; 2; 3] 4)
    ≤ Capacity (Vector_copy_assign (Other (packed [5; 6] 2))
                  (packed [1; 2; 3] 4) Instr.w0).1.2.
Proof.
  split; [exact copy_bomb_lawful|]. split; [exact reachable_three|].
  destruct (@capacity_never_shrinks nat Instr.copy_bomb copy_bomb_lawful
              (packed [1; 2; 3] 4) Instr.w0 reachable_three)
    as (_ & HResize & _ & _ & _ & _ & _ & _ & _ & _ & Hassign).
  split; [exact (HResize 1)|exact (Hassign (Other (packed [5; 6] 2)))].
Defined.

Lemma huge_value : N.of_nat Instr.huge = 4611686018427387904%N.
Proof. apply N2Nat.id. Qed.

Lemma huge_pos : 0 < Instr.huge.
Proof. pose proof huge_value. lia. Qed.

Lemma huge_wraps : wrap64 (Instr.huge * 4) = 0.
Proof.
  unfold wrap64. rewrite Nat2N.inj_mul, huge_value. reflexivity.
Qed.

(** A request whose byte count wraps around.  For a four-byte element type,
    Reserve(2^62) on an empty vector asks operator new for 2^64 bytes, which
    is 0 in size_t: the request succeeds, and the vector records the
    capacity 2^62 for a block that has no slot at all.  That vector is
    reachable, it is not full, and every EmplaceBack on it constructs the
    new element past the end of its block. *)
Theorem Reserve_wrapped_block :
  N.of_nat Instr.huge = 4611686018427387904%N
  ∧ alloc_bytes Instr.huge = 0
  ∧ Reserve Instr.huge Vector_default Instr.w0
    = (Returned tt, Instr.wrapped, mkWorld [EvAlloc Instr.huge] [])
  ∧ reachable Instr.wrapped
  ∧ size_ Instr.wrapped ≠ Capacity Instr.wrapped
  ∧ ¬ intact Instr.wrapped
  ∧ ∀ args w, (EmplaceBack args Instr.wrapped w).1.1 = Undefined.
Proof.
  pose proof huge_pos as Hpos.
  assert (Hrun : Reserve Instr.huge Vector_default Instr.w0
                 = (Returned tt, Instr.wrapped, mkWorld [EvAlloc Instr.huge] [])).
  { unfold Reserve. rewrite decide_False by (unfold Capacity; simpl; lia).
    unfold RawMemory_new, Allocate. rewrite decide_False by lia.
    unfold attempt, alloc_bytes. cbn [throws Instr.copy_bomb sizeof].
    unfold Instr.alloc_throws. rewrite huge_wraps. reflexivity. }
  split; [exact huge_value|]. split; [exact huge_wraps|].
  split; [exact Hrun|].
  split.
  { eapply reach_Reserve; [apply reach_default|exact Hrun|done]. }
  split; [unfold Capacity, Instr.wrapped; simpl; lia|].
  split; [unfold intact, Capacity, slots, Instr.wrapped; simpl; lia|].
  intros args w. unfold EmplaceBack.
  rewrite decide_False by (unfold Capacity, Instr.wrapped; simpl; lia).
  unfold slots, Instr.wrapped. cbn [data_ buffer_ size_].
  destruct (resolve args []) as [[e x]|]; reflexivity.
Qed.

End CopyBomb.

Section AssignBomb.
#[local] Existing Instance Instr.assign_bomb.

Lemma reachable_stranded : reachable Instr.stranded.
Proof.
  eapply (reach_Insert_move 0 7 (packed [13; 2] 4) Instr.w0 Thrown
            Instr.stranded); [|reflexivity|done].
  eapply (reach_EmplaceBack (ByCtor 2) (packed [13] 4) Instr.w0 (Returned 1)
            (packed [13; 2] 4)); [|reflexivity|done].
  eapply (reach_EmplaceBack (ByCtor 13) (packed [] 4) Instr.w0 (Returned 0)
            (packed [13] 4)); [|reflexivity|done].
  eapply (reach_Reserve 4 Vector_default Instr.w0 (Returned tt) (packed [] 4));
    [apply reach_default|reflexivity|done].
Qed.

Lemma reachable_before_stranding : reachable (packed [13; 2] 4).
Proof.
  eapply (reach_EmplaceBack (ByCtor 2) (packed [13] 4) Instr.w0 (Returned 1)
            (packed [13; 2] 4)); [|reflexivity|done].
  eapply (reach_EmplaceBack (ByCtor 13) (packed [] 4) Instr.w0 (Returned 0)
            (packed [13] 4)); [|reflexivity|done].
  eapply (reach_Reserve 4 Vector_default Instr.w0 (Returned tt) (packed [] 4));
    [apply reach_default|reflexivity|done].
Qed.

Lemma Emplace_with_room_throw_witness :
  @Lawful nat Instr.assign_bomb ∧ reachable Instr.stranded
  ∧ Insert_move 0 7 Instr.stranded Instr.w0
    = (Thrown, mkVector (mkRawMemory [Some 13; Some 0; Some 0; None] 4) 2,
       mkWorld [EvMoveCtor 7; EvMoveCtor 0; EvMoveAssign 0 13; EvDtor 7] [2])
  ∧ size_ (mkVector (mkRawMemory [Some 13; Some 0; Some 0; None] 4) 2)
    = size_ Instr.stranded
  ∧ Capacity (mkVector (mkRawMemory [Some 13; Some 0; Some 0; None] 4) 2)
    = Capacity Instr.stranded
  ∧ (leaked (mkWorld [EvMoveCtor 7; EvMoveCtor 0; EvMoveAssign 0 13; EvDtor 7]
               [2]) = leaked Instr.w0
     ∨ leaked (mkWorld [EvMoveCtor 7; EvMoveCtor 0; EvMoveAssign 0 13; EvDtor 7]
                 [2])
       = leaked Instr.w0
         ++ live (take 1 (drop (size_ Instr.stranded) (slots Instr.stranded)))
       ∧ ∃ h d s, throws h (EvMoveAssign d s) = true)
  ∧ length (elements
              (mkVector (mkRawMemory [Some 13; Some 0; Some 0; None] 4) 2))
    = length (elements Instr.stranded).
Proof.
  split; [exact assign_bomb_lawful|]. split; [exact reachable_stranded|].
  split; [reflexivity|].
  destruct (@Emplace_with_room_throw nat Instr.assign_bomb assign_bomb_lawful 0
              (ByMove 7) Instr.stranded Instr.w0
              (mkVector (mkRawMemory [Some 13; Some 0; Some 0; None] 4) 2)
              (mkWorld [EvMoveCtor 7; EvMoveCtor 0; EvMoveAssign 0 13; EvDtor 7]
                 [2])
              reachable_stranded ltac:(discriminate) eq_refl)
    as (Hsz & Hcap & Hleak & _ & Hlen & _).
  split; [exact Hsz|]. split; [exact Hcap|]. split; [exact Hleak|exact Hlen].
Defined.

(** C3 fails on a state that the code reaches, and the state is a defect
    of the code.  The move assignment of the element type throws when it
    moves the value 13.  Reserve(4), EmplaceBack(13), EmplaceBack(2) reach a
    vector of two elements whose other two slots are unconstructed; then
    Insert(begin(), 7) move-constructs the last element into slot 2, the
    first move assignment of the shift throws, and the exception leaves the
    function with the size still 2: slot 2, which lies between size and
    capacity, holds a constructed element.  No member function ever runs
    its destructor: the destructor of the vector destroys the two elements
    and releases the block with the object in it, and an EmplaceBack
    constructs the new element over it. *)
Theorem reachable_tail_constructed :
  reachable (packed [13; 2] 4)
  ∧ tail_unconstructed (packed [13; 2] 4)
  ∧ Insert_move 0 7 (packed [13; 2] 4) Instr.w0
    = (Thrown, Instr.stranded,
       mkWorld [EvMoveCtor 7; EvMoveCtor 2; EvMoveAssign 0 13; EvDtor 7] [])
  ∧ reachable Instr.stranded
  ∧ size_ Instr.stranded = 2 ∧ Capacity Instr.stranded = 4
  ∧ slots Instr.stranded !! 2 = Some (Some 2)
  ∧ ¬ tail_unconstructed Instr.stranded
  ∧ Vector_destroy Instr.stranded Instr.w0
    = (Returned tt, mkWorld [EvDtor 13; EvDtor 0] [2])
  ∧ EmplaceBack (ByCtor 9) Instr.stranded Instr.w0
    = (Returned 2, mkVector (mkRawMemory [Some 13; Some 0; Some 9; None] 4) 3,
       mkWorld [EvCtor 9] [2]).
Proof.
  split; [exact reachable_before_stranding|].
  split.
  { intros i Hi.
    assert (i = 2 ∨ i = 3) as [-> | ->] by (vm_compute in Hi; lia);
      reflexivity. }
  split; [reflexivity|]. split; [exact reachable_stranded|].
  split; [reflexivity|]. split; [reflexivity|]. split; [reflexivity|].
  split; [|split; reflexivity].
  intros Htail. specialize (Htail 2 ltac:(vm_compute; lia)). done.
Qed.



End AssignBomb.
